(** * Input-state synchronisation of the 3D multiplayer client

  A shallow embedding of the input sequencing / transmission logic of
  [client/src/App.tsx] (interactive client), [client/src/simulation.ts]
  (bot driver) and [client/src/components/JoinGameDialog.tsx] (join
  dialog), followed by the properties proved about it.

  Conventions.
  - A handler of the source becomes a function from the session state to
    the new state and the list of externally visible actions it performs
    (reducer calls, callback registrations, timer operations), in program
    order.
  - JavaScript numbers that only ever hold small integers are [Z];
    the sequence counter keeps the behaviour of a double at 2^53
    ([num_incr]).  A fractional number (random draw, angle, timestamp) is
    the rational [Q] the double stands for, and the products, sums and
    differences the bot driver and the join dialog compute on them are
    rounded to the nearest double, ties to even ([Double.round]).  The
    frame times of the game loop are compared as exact numbers.
  - [Math.random()] is an oracle: a tape of draws threaded through the
    [Rand] monad.  A draw that is not a double in [0,1) is outside the
    contract of [Math.random], and the computation is undefined ([None])
    there. *)

From Stdlib Require Import ZArith QArith Qround Qpower String Ascii List Sorted Lia Lqa Bool.
From stdpp Require Import gmap strings list fin_maps.

Open Scope Z_scope.

(** ** JavaScript primitives *)

Module JS.

(** A JavaScript string as its sequence of UTF-16 code units. *)
Definition jsstring : Type := list N.

Fixpoint lit (s : string) : jsstring :=
  match s with
  | EmptyString => []
  | String a s' => N_of_ascii a :: lit s'
  end.

(** [WhiteSpace] and [LineTerminator] code points of ECMAScript, the
    characters removed by [String.prototype.trim].  All of them lie in the
    basic multilingual plane, so the test is on single code units. *)
Definition is_whitespace (c : N) : bool :=
  ((c =? 0x09) || (c =? 0x0A) || (c =? 0x0B) || (c =? 0x0C) || (c =? 0x0D)
   || (c =? 0x20) || (c =? 0xA0) || (c =? 0x1680)
   || ((0x2000 <=? c) && (c <=? 0x200A))
   || (c =? 0x2028) || (c =? 0x2029) || (c =? 0x202F) || (c =? 0x205F)
   || (c =? 0x3000) || (c =? 0xFEFF))%N.

Fixpoint trimStart (s : jsstring) : jsstring :=
  match s with
  | c :: s' => if is_whitespace c then trimStart s' else s
  | [] => []
  end.

Definition trimEnd (s : jsstring) : jsstring := rev (trimStart (rev s)).

Definition trim (s : jsstring) : jsstring := trimEnd (trimStart s).

(** Truthiness of a string: the empty string is the only falsy one. *)
Definition truthy (s : jsstring) : bool :=
  match s with [] => false | _ :: _ => true end.

Fixpoint digits (d : Decimal.uint) : jsstring :=
  match d with
  | Decimal.Nil => []
  | Decimal.D0 d' => 0x30%N :: digits d'
  | Decimal.D1 d' => 0x31%N :: digits d'
  | Decimal.D2 d' => 0x32%N :: digits d'
  | Decimal.D3 d' => 0x33%N :: digits d'
  | Decimal.D4 d' => 0x34%N :: digits d'
  | Decimal.D5 d' => 0x35%N :: digits d'
  | Decimal.D6 d' => 0x36%N :: digits d'
  | Decimal.D7 d' => 0x37%N :: digits d'
  | Decimal.D8 d' => 0x38%N :: digits d'
  | Decimal.D9 d' => 0x39%N :: digits d'
  end.

(** [String(n)] for a non-negative integer below 10^21: its decimal
    digits, without leading zeros, ["0"] for zero. *)
Definition toString (n : Z) : jsstring := digits (N.to_uint (Z.to_N n)).

(** The largest power of two up to which every integer is a double. *)
Definition TWO_53 : Z := 2 ^ 53.

(** [n += 1] on a double holding an integer [0 <= n <= 2^53]: exact below
    2^53; at 2^53 the sum 2^53 + 1 is not a double and rounds (to even)
    back to 2^53. *)
Definition num_incr (n : Z) : Z := if n <? TWO_53 then n + 1 else n.

(** *** Doubles

    Binary64 arithmetic on the rationals that doubles are: a result is the
    exact result rounded to the nearest double, ties to even.  Overflow to
    an infinity is not modelled (the numbers of this program stay below
    2^53), and the two zeros are not told apart. *)
Module Double.

Definition pow2 (e : Z) : Q := (2 ^ e)%Q.

(** The exponent [e] with [2^e <= x < 2^(e+1)], for a positive [x]. *)
Definition ilog2 (x : Q) : Z :=
  let e := Z.log2 (Qnum x) - Z.log2 (Zpos (Qden x)) in
  if Qle_bool (pow2 e) x then e else e - 1.

(** The nearest integer, the even one of two equally near. *)
Definition rne (m : Q) : Z :=
  let f := Qfloor m in
  match (m - inject_Z f ?= 1 # 2)%Q with
  | Lt => f
  | Gt => f + 1
  | Eq => if Z.even f then f else f + 1
  end.

(** The exponent of the last of the 53 significant bits of [x]; below
    2^-1022 the doubles are evenly spaced (subnormal). *)
Definition ulp_exp (x : Q) : Z := Z.max (ilog2 x) (-1022) - 52.

Definition round_pos (x : Q) : Q :=
  (inject_Z (rne (x * pow2 (- ulp_exp x))) * pow2 (ulp_exp x))%Q.

Definition round (x : Q) : Q :=
  Qred (match (x ?= 0)%Q with
        | Eq => 0
        | Gt => round_pos x
        | Lt => - round_pos (- x)
        end)%Q.

Definition is_double (x : Q) : bool := Qeq_bool (round x) x.

(** [a + b], [a - b] and [a * b] on doubles. *)
Definition add (a b : Q) : Q := round (a + b).

Definition sub (a b : Q) : Q := round (a - b).

Definition mul (a b : Q) : Q := round (a * b).

End Double.

(** The double [Math.PI], 0x400921FB54442D18, as the rational it is. *)
Definition PI : Q := 884279719003555 # 281474976710656.

(** The double literal [0.3], 0x3FD3333333333333, as the rational it is. *)
Definition lit_0_3 : Q := 5404319552844595 # 18014398509481984.

Definition floor (q : Q) : Z := Qfloor q.

(** [a < b] on numbers. *)
Definition lt (a b : Q) : bool := negb (Qle_bool b a).

(** *** The random oracle *)

Definition Rand (A : Type) : Type := list Q -> option (A * list Q).

#[export] Instance rand_ret : MRet Rand := fun A a tape => Some (a, tape).

#[export] Instance rand_bind : MBind Rand := fun A B k m tape =>
  match m tape with
  | Some (a, tape') => k a tape'
  | None => None
  end.

(** A double in [0,1): what [Math.random()] may return. *)
Definition in_unit (r : Q) : bool :=
  Qle_bool 0 r && lt r 1 && Double.is_double r.

(** [Math.random()]: the next draw of the tape, which is a double in
    [0,1). *)
Definition random : Rand Q := fun tape =>
  match tape with
  | r :: tape' => if in_unit r then Some (r, tape') else None
  | [] => None
  end.

(** [arr[i]] where the program needs a defined element: indexing out of
    range yields [undefined], which none of the callers handles. *)
Definition index {T : Type} (arr : list T) (i : Z) : Rand T := fun tape =>
  if i <? 0 then None
  else match arr !! Z.to_nat i with
       | Some v => Some (v, tape)
       | None => None
       end.

End JS.

Import JS.

(** ** Data exchanged with the remote service ([generated/types]) *)

Module Vector3.
Record t : Type := mk { x : Q; y : Q; z : Q }.
End Vector3.

Module InputState.
(** The declared fields of an [InputState], and in [extra] the own
    properties the object carries beyond them: a JavaScript object is open,
    and the key handlers of the interactive client can add a property
    ([App.handleKeyDown]).  [extra] is keyed by the name of the member of
    [Object.prototype] whose string form is the name of the property. *)
Record t : Type := mk {
  forward : bool;
  backward : bool;
  left : bool;
  right : bool;
  sprint : bool;
  jump : bool;
  attack : bool;
  castSpell : bool;
  sequence : Z;
  extra : gmap string bool;
}.
End InputState.

Definition Identity : Type := string.

Module PlayerData.
(** Modelled from the spec: the generated [PlayerData] row type is not part
    of the sources at hand.  The fields are those of the PlayerRecord of the
    data model; [identity] stands for [identity.toHexString()]. *)
Record t : Type := mk {
  identity : Identity;
  username : jsstring;
  characterClass : string;
  position : Vector3.t;
  rotation : Vector3.t;
  currentAnimation : string;
  health : Z;
  mana : Z;
}.
End PlayerData.

Definition DbConnection : Type := positive.

Inductive TableCallback : Type := OnInsert | OnUpdate | OnDelete.

(** Externally visible actions of a session. *)
Inductive Action : Type :=
| RegisterCallback (cb : TableCallback)
| Subscribe (query : string)
| RegisterPlayer (username : jsstring) (characterClass : string)
| UpdatePlayerInput (input : InputState.t) (clientPos clientRot : Vector3.t)
                    (clientAnimation : string)
| SetInterval (h : positive) (ms : Z)
| ClearInterval (h : positive)
| ClearTimeout (h : positive)
| RequestAnimationFrame (h : positive)
| CancelAnimationFrame (h : positive)
| AddInputListeners
| AddDelegatedListeners
| ResolveSpawn
| RejectSpawn.

(** The inputs handed to [updatePlayerInput], in transmission order. *)
Fixpoint transmitted (acts : list Action) : list InputState.t :=
  match acts with
  | UpdatePlayerInput i _ _ _ :: acts' => i :: transmitted acts'
  | _ :: acts' => transmitted acts'
  | [] => []
  end.

Definition transmittedSeqs (acts : list Action) : list Z :=
  map InputState.sequence (transmitted acts).

(** ** The bot driver ([simulation.ts]) *)

Module Bot.

Definition INPUT_TICK_INTERVAL_MS : Z := 50.

Definition CHARACTER_CLASSES : list string := ["Wizard"; "Paladin"]%string.

Inductive DirectionKey : Type := Forward | Backward | Left | Right.

Definition DIRECTIONS : list DirectionKey := [Forward; Backward; Left; Right].

Definition DirectionKey_eqb (a b : DirectionKey) : bool :=
  match a, b with
  | Forward, Forward | Backward, Backward | Left, Left | Right, Right => true
  | _, _ => false
  end.

Definition randomItem {T : Type} (arr : list T) : Rand T :=
  r ← random;
  index arr (floor (Double.mul r (inject_Z (Z.of_nat (length arr))))).

Record ClientState : Type := mkClientState {
  id : Z;
  conn : option DbConnection;
  registered : bool;
  sequence : Z;
  tickHandle : option positive;
  direction : DirectionKey;
  dirChangeCountdown : Z;
  rotation : Q;
}.

Definition set_conn (c : option DbConnection) (s : ClientState) : ClientState :=
  mkClientState (id s) c (registered s) (sequence s) (tickHandle s)
                (direction s) (dirChangeCountdown s) (rotation s).

Definition set_registered (b : bool) (s : ClientState) : ClientState :=
  mkClientState (id s) (conn s) b (sequence s) (tickHandle s)
                (direction s) (dirChangeCountdown s) (rotation s).

Definition set_sequence (n : Z) (s : ClientState) : ClientState :=
  mkClientState (id s) (conn s) (registered s) n (tickHandle s)
                (direction s) (dirChangeCountdown s) (rotation s).

Definition set_tickHandle (h : option positive) (s : ClientState) : ClientState :=
  mkClientState (id s) (conn s) (registered s) (sequence s) h
                (direction s) (dirChangeCountdown s) (rotation s).

Definition set_direction (d : DirectionKey) (s : ClientState) : ClientState :=
  mkClientState (id s) (conn s) (registered s) (sequence s) (tickHandle s)
                d (dirChangeCountdown s) (rotation s).

Definition set_dirChangeCountdown (n : Z) (s : ClientState) : ClientState :=
  mkClientState (id s) (conn s) (registered s) (sequence s) (tickHandle s)
                (direction s) n (rotation s).

Definition set_rotation (q : Q) (s : ClientState) : ClientState :=
  mkClientState (id s) (conn s) (registered s) (sequence s) (tickHandle s)
                (direction s) (dirChangeCountdown s) q.

Definition buildInput (dir : DirectionKey) (seq : Z) : Rand InputState.t :=
  r ← random;
  mret {| InputState.forward := DirectionKey_eqb dir Forward;
          InputState.backward := DirectionKey_eqb dir Backward;
          InputState.left := DirectionKey_eqb dir Left;
          InputState.right := DirectionKey_eqb dir Right;
          InputState.sprint := lt r lit_0_3;
          InputState.jump := false;
          InputState.attack := false;
          InputState.castSpell := false;
          InputState.sequence := seq;
          InputState.extra := ∅ |}.

Definition animationFromInput (input : InputState.t) : string :=
  let forward := InputState.forward input in
  let backward := InputState.backward input in
  let left := InputState.left input in
  let right := InputState.right input in
  let sprint := InputState.sprint input in
  if negb forward && negb backward && negb left && negb right then "idle"
  else
    let prefix := if sprint then "run" else "walk" in
    if forward then prefix ++ "-forward"
    else if backward then prefix ++ "-back"
    else if left then prefix ++ "-left"
    else prefix ++ "-right".

Definition rotMap (d : DirectionKey) : Q :=
  match d with
  | Forward => 0
  | Backward => PI
  | Left => PI / 2
  | Right => - PI / 2
  end.

(** The countdown drawn when the direction is switched. *)
Definition redrawCountdown (r : Q) : Z := 5 + floor (Double.mul r 20).

(** The countdown drawn when the session is created. *)
Definition initialCountdown (r : Q) : Z := 3 + floor (Double.mul r 10).

(** The jitter added to the facing angle. *)
Definition jitter (r : Q) : Q := Double.mul (Double.sub r (1 # 2)) (1 # 2).

(** The body of the [if (state.dirChangeCountdown <= 0)] block. *)
Definition switchDirection (state : ClientState) : Rand ClientState :=
  d ← randomItem DIRECTIONS;
  rc ← random;
  rj ← random;
  mret (set_rotation (Double.add (rotMap d) (jitter rj))
          (set_dirChangeCountdown (redrawCountdown rc)
             (set_direction d state))).

Definition tickClient (state : ClientState) : Rand (ClientState * list Action) :=
  if negb (bool_decide (is_Some (conn state))) || negb (registered state)
  then mret (state, [])
  else
    let state := set_dirChangeCountdown (dirChangeCountdown state - 1) state in
    state ← (if dirChangeCountdown state <=? 0
             then switchDirection state
             else mret state);
    let state := set_sequence (num_incr (sequence state)) state in
    input ← buildInput (direction state) (sequence state);
    let clientPos := Vector3.mk 0 0 0 in
    let clientRot := Vector3.mk 0 (rotation state) 0 in
    let clientAnimation := animationFromInput input in
    mret (state, [UpdatePlayerInput input clientPos clientRot clientAnimation]).

(** What the closures of one [spawnClient] call share: the mutable
    [state] object and the constants [username], [characterClass] and
    [timeout]. *)
Record Session : Type := mkSession {
  state : ClientState;
  username : jsstring;
  characterClass : string;
  timeout : positive;
}.

Definition set_state (st : ClientState) (s : Session) : Session :=
  mkSession st (username s) (characterClass s) (timeout s).

(** The synchronous part of [spawnClient]: the constants and the initial
    [state] literal.  [timeout] is the handle [setTimeout] returned. *)
Definition spawnClient (clientId : Z) (timeout : positive) : Rand Session :=
  let username := (lit "Bot_" ++ toString clientId)%list in
  characterClass ← randomItem CHARACTER_CLASSES;
  d ← randomItem DIRECTIONS;
  rc ← random;
  mret {| state := {| id := clientId;
                      conn := None;
                      registered := false;
                      sequence := 0;
                      tickHandle := None;
                      direction := d;
                      dirChangeCountdown := initialCountdown rc;
                      rotation := 0 |};
          username := username;
          characterClass := characterClass;
          timeout := timeout |}.

Definition onConnect (connection : DbConnection) (s : Session)
  : Session * list Action :=
  (set_state (set_conn (Some connection) (state s)) s,
   [RegisterCallback OnInsert; Subscribe "SELECT * FROM player"]).

(** The [onApplied] callback of the subscription; [h] is the handle
    [setInterval] returns. *)
Definition onApplied (h : positive) (s : Session) : Session * list Action :=
  (set_state (set_tickHandle (Some h) (set_registered true (state s))) s,
   [RegisterPlayer (username s) (characterClass s);
    SetInterval h INPUT_TICK_INTERVAL_MS;
    ClearTimeout (timeout s);
    ResolveSpawn]).

(** The [onError] callback of the subscription. *)
Definition onError (s : Session) : Session * list Action :=
  (s, [ClearTimeout (timeout s); RejectSpawn]).

Definition onDisconnect (s : Session) : Session * list Action :=
  match tickHandle (state s) with
  | Some h => (set_state (set_tickHandle None (state s)) s, [ClearInterval h])
  | None => (s, [])
  end.

(** One iteration of the clean-up loop of [main]. *)
Definition stopBot (s : Session) : Session * list Action :=
  match tickHandle (state s) with
  | Some h => (set_state (set_tickHandle None (state s)) s, [ClearInterval h])
  | None => (s, [])
  end.

(** What can happen to a spawned session.  The subscription callbacks
    exist once [onConnect] has run; the interval fires only while a
    handle is armed. *)
Inductive Event : Type :=
| Connect (connection : DbConnection)
| Applied (h : positive)
| SubscriptionError
| Tick
| Disconnect
| Stop.

Definition step (e : Event) (s : Session) : Rand (Session * list Action) :=
  match e with
  | Connect c => mret (onConnect c s)
  | Applied h =>
      match conn (state s) with
      | Some _ => mret (onApplied h s)
      | None => mret (s, [])
      end
  | SubscriptionError =>
      match conn (state s) with
      | Some _ => mret (onError s)
      | None => mret (s, [])
      end
  | Tick =>
      match tickHandle (state s) with
      | Some _ =>
          '(st, acts) ← tickClient (state s);
          mret (set_state st s, acts)
      | None => mret (s, [])
      end
  | Disconnect => mret (onDisconnect s)
  | Stop => mret (stopBot s)
  end.

Fixpoint run (es : list Event) (s : Session) : Rand (Session * list Action) :=
  match es with
  | [] => mret (s, [])
  | e :: es' =>
      '(s1, acts1) ← step e s;
      '(s2, acts2) ← run es' s1;
      mret (s2, acts1 ++ acts2)
  end.

End Bot.

(** ** The interactive client ([App.tsx]) *)

Module App.

Definition INPUT_SEND_INTERVAL : Q := 50.

(** Everything the callbacks of [App] read and write: the module-level
    [conn], the React state, the refs, and the variable [lastSendTime] of
    the game-loop effect.  [effectConnected] is the value of [connected]
    the game-loop effect last ran with (its dependency array), which is how
    React decides whether to run the effect again.  [lastSentInputState] is
    a [Partial<InputState>] that is either [{}] ([None]) or a full copy of
    an input.

    A React state field ([connected], [identity], [statusMessage],
    [players], [localPlayer], [showJoinDialog]) holds the value the setter
    calls made so far give it, in the order they were made; React applies
    them at the next render, so in the program the field trails the refs
    between an event and that render.  The refs and [conn] are written at
    once. *)
Record State : Type := mkState {
  conn : option DbConnection;
  connected : bool;
  identity : option Identity;
  statusMessage : jsstring;
  players : gmap string PlayerData.t;
  localPlayer : option PlayerData.t;
  showJoinDialog : bool;
  identityRef : option Identity;
  localPlayerRef : option PlayerData.t;
  connectedRef : bool;
  currentInputRef : InputState.t;
  lastSentInputState : option InputState.t;
  animationFrameIdRef : option positive;
  playerRotationRef : Vector3.t;
  lastSendTime : Q;
  effectConnected : bool;
}.

Definition set_conn (v : option DbConnection) (s : State) : State :=
  mkState v (connected s) (identity s) (statusMessage s) (players s)
    (localPlayer s) (showJoinDialog s) (identityRef s) (localPlayerRef s)
    (connectedRef s) (currentInputRef s) (lastSentInputState s)
    (animationFrameIdRef s) (playerRotationRef s) (lastSendTime s)
    (effectConnected s).

Definition set_connected (v : bool) (s : State) : State :=
  mkState (conn s) v (identity s) (statusMessage s) (players s)
    (localPlayer s) (showJoinDialog s) (identityRef s) (localPlayerRef s)
    (connectedRef s) (currentInputRef s) (lastSentInputState s)
    (animationFrameIdRef s) (playerRotationRef s) (lastSendTime s)
    (effectConnected s).

Definition set_identity (v : option Identity) (s : State) : State :=
  mkState (conn s) (connected s) v (statusMessage s) (players s)
    (localPlayer s) (showJoinDialog s) (identityRef s) (localPlayerRef s)
    (connectedRef s) (currentInputRef s) (lastSentInputState s)
    (animationFrameIdRef s) (playerRotationRef s) (lastSendTime s)
    (effectConnected s).

Definition set_statusMessage (v : jsstring) (s : State) : State :=
  mkState (conn s) (connected s) (identity s) v (players s) (localPlayer s)
    (showJoinDialog s) (identityRef s) (localPlayerRef s) (connectedRef s)
    (currentInputRef s) (lastSentInputState s) (animationFrameIdRef s)
    (playerRotationRef s) (lastSendTime s) (effectConnected s).

Definition set_players (v : gmap string PlayerData.t) (s : State) : State :=
  mkState (conn s) (connected s) (identity s) (statusMessage s) v
    (localPlayer s) (showJoinDialog s) (identityRef s) (localPlayerRef s)
    (connectedRef s) (currentInputRef s) (lastSentInputState s)
    (animationFrameIdRef s) (playerRotationRef s) (lastSendTime s)
    (effectConnected s).

Definition set_localPlayer (v : option PlayerData.t) (s : State) : State :=
  mkState (conn s) (connected s) (identity s) (statusMessage s) (players s)
    v (showJoinDialog s) (identityRef s) (localPlayerRef s) (connectedRef s)
    (currentInputRef s) (lastSentInputState s) (animationFrameIdRef s)
    (playerRotationRef s) (lastSendTime s) (effectConnected s).

Definition set_showJoinDialog (v : bool) (s : State) : State :=
  mkState (conn s) (connected s) (identity s) (statusMessage s) (players s)
    (localPlayer s) v (identityRef s) (localPlayerRef s) (connectedRef s)
    (currentInputRef s) (lastSentInputState s) (animationFrameIdRef s)
    (playerRotationRef s) (lastSendTime s) (effectConnected s).

Definition set_identityRef (v : option Identity) (s : State) : State :=
  mkState (conn s) (connected s) (identity s) (statusMessage s) (players s)
    (localPlayer s) (showJoinDialog s) v (localPlayerRef s) (connectedRef s)
    (currentInputRef s) (lastSentInputState s) (animationFrameIdRef s)
    (playerRotationRef s) (lastSendTime s) (effectConnected s).

Definition set_localPlayerRef (v : option PlayerData.t) (s : State) : State :=
  mkState (conn s) (connected s) (identity s) (statusMessage s) (players s)
    (localPlayer s) (showJoinDialog s) (identityRef s) v (connectedRef s)
    (currentInputRef s) (lastSentInputState s) (animationFrameIdRef s)
    (playerRotationRef s) (lastSendTime s) (effectConnected s).

Definition set_connectedRef (v : bool) (s : State) : State :=
  mkState (conn s) (connected s) (identity s) (statusMessage s) (players s)
    (localPlayer s) (showJoinDialog s) (identityRef s) (localPlayerRef s) v
    (currentInputRef s) (lastSentInputState s) (animationFrameIdRef s)
    (playerRotationRef s) (lastSendTime s) (effectConnected s).

Definition set_currentInputRef (v : InputState.t) (s : State) : State :=
  mkState (conn s) (connected s) (identity s) (statusMessage s) (players s)
    (localPlayer s) (showJoinDialog s) (identityRef s) (localPlayerRef s)
    (connectedRef s) v (lastSentInputState s) (animationFrameIdRef s)
    (playerRotationRef s) (lastSendTime s) (effectConnected s).

Definition set_lastSentInputState (v : option InputState.t) (s : State) : State :=
  mkState (conn s) (connected s) (identity s) (statusMessage s) (players s)
    (localPlayer s) (showJoinDialog s) (identityRef s) (localPlayerRef s)
    (connectedRef s) (currentInputRef s) v (animationFrameIdRef s)
    (playerRotationRef s) (lastSendTime s) (effectConnected s).

Definition set_animationFrameIdRef (v : option positive) (s : State) : State :=
  mkState (conn s) (connected s) (identity s) (statusMessage s) (players s)
    (localPlayer s) (showJoinDialog s) (identityRef s) (localPlayerRef s)
    (connectedRef s) (currentInputRef s) (lastSentInputState s) v
    (playerRotationRef s) (lastSendTime s) (effectConnected s).

Definition set_playerRotationRef (v : Vector3.t) (s : State) : State :=
  mkState (conn s) (connected s) (identity s) (statusMessage s) (players s)
    (localPlayer s) (showJoinDialog s) (identityRef s) (localPlayerRef s)
    (connectedRef s) (currentInputRef s) (lastSentInputState s)
    (animationFrameIdRef s) v (lastSendTime s) (effectConnected s).

Definition set_lastSendTime (v : Q) (s : State) : State :=
  mkState (conn s) (connected s) (identity s) (statusMessage s) (players s)
    (localPlayer s) (showJoinDialog s) (identityRef s) (localPlayerRef s)
    (connectedRef s) (currentInputRef s) (lastSentInputState s)
    (animationFrameIdRef s) (playerRotationRef s) v (effectConnected s).

Definition set_effectConnected (v : bool) (s : State) : State :=
  mkState (conn s) (connected s) (identity s) (statusMessage s) (players s)
    (localPlayer s) (showJoinDialog s) (identityRef s) (localPlayerRef s)
    (connectedRef s) (currentInputRef s) (lastSentInputState s)
    (animationFrameIdRef s) (playerRotationRef s) (lastSendTime s) v.

(** The state after the first render: nothing connected yet. *)
Definition init : State :=
  {| conn := None;
     connected := false;
     identity := None;
     statusMessage := lit "Connecting...";
     players := ∅;
     localPlayer := None;
     showJoinDialog := false;
     identityRef := None;
     localPlayerRef := None;
     connectedRef := false;
     currentInputRef := InputState.mk false false false false
                                      false false false false 0 ∅;
     lastSentInputState := None;
     animationFrameIdRef := None;
     playerRotationRef := Vector3.mk 0 0 0;
     lastSendTime := 0;
     effectConnected := false |}.

(** [identityRef.current && player.identity.toHexString() ===
    identityRef.current.toHexString()] *)
Definition isLocal (player : PlayerData.t) (s : State) : bool :=
  match identityRef s with
  | Some id => String.eqb (PlayerData.identity player) id
  | None => false
  end.

(** *** Table callbacks and subscription *)

Definition registerTableCallbacks (s : State) : list Action :=
  match conn s with
  | None => []
  | Some _ => [RegisterCallback OnInsert; RegisterCallback OnUpdate;
               RegisterCallback OnDelete]
  end.

Definition onInsert (player : PlayerData.t) (s : State) : State :=
  let s := set_players (<[PlayerData.identity player := player]> (players s)) s in
  if isLocal player s
  then set_statusMessage (lit "Registered as " ++ PlayerData.username player)%list
         (set_localPlayerRef (Some player) (set_localPlayer (Some player) s))
  else s.

Definition onUpdate (_oldPlayer newPlayer : PlayerData.t) (s : State) : State :=
  let s := set_players (<[PlayerData.identity newPlayer := newPlayer]> (players s)) s in
  if isLocal newPlayer s
  then set_localPlayerRef (Some newPlayer) (set_localPlayer (Some newPlayer) s)
  else s.

Definition onDelete (player : PlayerData.t) (s : State) : State :=
  let s := set_players (delete (PlayerData.identity player) (players s)) s in
  if isLocal player s
  then set_statusMessage (lit "Local player deleted!")
         (set_localPlayerRef None (set_localPlayer None s))
  else s.

(** The body of the [for (const player of conn.db.player.iter())] loop, on
    the map under construction and the state. *)
Definition backfillRow (acc : gmap string PlayerData.t * State)
    (player : PlayerData.t) : gmap string PlayerData.t * State :=
  let '(currentPlayers, s) := acc in
  let currentPlayers := <[PlayerData.identity player := player]> currentPlayers in
  if isLocal player s
  then (currentPlayers,
        set_localPlayerRef (Some player) (set_localPlayer (Some player) s))
  else (currentPlayers, s).

(** The updater the [onApplied] callback hands to [setPlayers], which React
    runs at the next render: [rows] is what [conn.db.player.iter()] yields
    when it runs, and [s] the state it then finds. *)
Definition onSubscriptionApplied (rows : list PlayerData.t) (s : State) : State :=
  if (size (players s) =? 0)%nat && bool_decide (is_Some (conn s))
  then
    let '(currentPlayers, s) := fold_left backfillRow rows (∅, s) in
    set_players currentPlayers s
  else s.

Definition subscribeToTables (s : State) : list Action :=
  match conn s with
  | None => []
  | Some _ => [Subscribe "SELECT * FROM player"]
  end.

(** *** Input sampling *)

Inductive InputKey : Type :=
  KForward | KBackward | KLeft | KRight | KSprint | KJump.

(** What [keyMap[event.code]] is when it is not [undefined]: the name of
    a flag, for a code the literal lists, or a member of
    [Object.prototype], which the literal inherits, for a code that is the
    name of one.  Every such member is truthy. *)
Inductive KeyAction : Type :=
| Flag (k : InputKey)
| Inherited (name : string).

(** The names of the members of [Object.prototype]. *)
Definition objectPrototype : list string :=
  ["constructor"; "hasOwnProperty"; "isPrototypeOf"; "propertyIsEnumerable";
   "toLocaleString"; "toString"; "valueOf"; "__defineGetter__";
   "__defineSetter__"; "__lookupGetter__"; "__lookupSetter__";
   "__proto__"]%string.

(** [keyMap[event.code]]; [None] is [undefined]. *)
Definition keyMap (code : string) : option KeyAction :=
  if String.eqb code "KeyW" then Some (Flag KForward)
  else if String.eqb code "KeyS" then Some (Flag KBackward)
  else if String.eqb code "KeyA" then Some (Flag KLeft)
  else if String.eqb code "KeyD" then Some (Flag KRight)
  else if String.eqb code "ShiftLeft" then Some (Flag KSprint)
  else if String.eqb code "Space" then Some (Flag KJump)
  else if existsb (String.eqb code) objectPrototype then Some (Inherited code)
  else None.

Definition getKey (k : InputKey) (i : InputState.t) : bool :=
  match k with
  | KForward => InputState.forward i
  | KBackward => InputState.backward i
  | KLeft => InputState.left i
  | KRight => InputState.right i
  | KSprint => InputState.sprint i
  | KJump => InputState.jump i
  end.

Definition setKey (k : InputKey) (b : bool) (i : InputState.t) : InputState.t :=
  let 'InputState.mk f bk l r sp j a c n e := i in
  match k with
  | KForward => InputState.mk b bk l r sp j a c n e
  | KBackward => InputState.mk f b l r sp j a c n e
  | KLeft => InputState.mk f bk b r sp j a c n e
  | KRight => InputState.mk f bk l b sp j a c n e
  | KSprint => InputState.mk f bk l r b j a c n e
  | KJump => InputState.mk f bk l r sp b a c n e
  end.

Definition setAttack (b : bool) (i : InputState.t) : InputState.t :=
  let 'InputState.mk f bk l r sp j _ c n e := i in
  InputState.mk f bk l r sp j b c n e.

Definition setSequence (n : Z) (i : InputState.t) : InputState.t :=
  let 'InputState.mk f bk l r sp j a c _ e := i in
  InputState.mk f bk l r sp j a c n e.

Definition setExtra (e : gmap string bool) (i : InputState.t) : InputState.t :=
  let 'InputState.mk f bk l r sp j a c n _ := i in
  InputState.mk f bk l r sp j a c n e.

(** The truthiness of [currentInputRef.current[action]].  A member of
    [Object.prototype] used as a property name is converted to its string
    form, which names no declared field: the property is [undefined],
    falsy, until a key handler has written it. *)
Definition getProp (action : KeyAction) (i : InputState.t) : bool :=
  match action with
  | Flag k => getKey k i
  | Inherited name =>
      match InputState.extra i !! name with
      | Some b => b
      | None => false
      end
  end.

(** [currentInputRef.current[action] = b] *)
Definition setProp (action : KeyAction) (b : bool) (i : InputState.t)
  : InputState.t :=
  match action with
  | Flag k => setKey k b i
  | Inherited name => setExtra (<[name := b]> (InputState.extra i)) i
  end.

Definition handleKeyDown (code : string) (repeat : bool) (s : State) : State :=
  if repeat then s
  else match keyMap code with
       | Some action =>
           if negb (getProp action (currentInputRef s))
           then set_currentInputRef (setProp action true (currentInputRef s)) s
           else s
       | None => s
       end.

Definition handleKeyUp (code : string) (s : State) : State :=
  match keyMap code with
  | Some action =>
      if getProp action (currentInputRef s)
      then set_currentInputRef (setProp action false (currentInputRef s)) s
      else s
  | None => s
  end.

Definition handleMouseDown (button : Z) (s : State) : State :=
  if button =? 0
  then if negb (InputState.attack (currentInputRef s))
       then set_currentInputRef (setAttack true (currentInputRef s)) s
       else s
  else s.

Definition handleMouseUp (button : Z) (s : State) : State :=
  if button =? 0
  then if InputState.attack (currentInputRef s)
       then set_currentInputRef (setAttack false (currentInputRef s)) s
       else s
  else s.

Definition handlePlayerRotation (rotation : Vector3.t) (s : State) : State :=
  set_playerRotationRef rotation s.

(** *** Animation label and transmission gate *)

Definition determineAnimation (input : InputState.t) : string :=
  if InputState.attack input then "attack1"
  else if InputState.castSpell input then "cast"
  else if InputState.jump input then "jump"
  else
    let forward := InputState.forward input in
    let backward := InputState.backward input in
    let left := InputState.left input in
    let right := InputState.right input in
    let sprint := InputState.sprint input in
    let isMoving := forward || backward || left || right in
    if negb isMoving then "idle"
    else
      let direction :=
        if forward && negb backward then "forward"
        else if backward && negb forward then "back"
        else if left && negb right then "left"
        else if right && negb left then "right"
        else if forward && left then "left"
        else if forward && right then "right"
        else if backward && left then "left"
        else if backward && right then "right"
        else "forward" in
      let moveType := if sprint then "run" else "walk" in
      moveType ++ "-" ++ direction.

(** The declared fields of [a] and [b] are equal. *)
Definition inputEqb (a b : InputState.t) : bool :=
  Bool.eqb (InputState.forward a) (InputState.forward b)
  && Bool.eqb (InputState.backward a) (InputState.backward b)
  && Bool.eqb (InputState.left a) (InputState.left b)
  && Bool.eqb (InputState.right a) (InputState.right b)
  && Bool.eqb (InputState.sprint a) (InputState.sprint b)
  && Bool.eqb (InputState.jump a) (InputState.jump b)
  && Bool.eqb (InputState.attack a) (InputState.attack b)
  && Bool.eqb (InputState.castSpell a) (InputState.castSpell b)
  && (InputState.sequence a =? InputState.sequence b).

(** Every further property of [a] is a property of [b] with the same
    value. *)
Definition extraIn (a b : InputState.t) : bool :=
  bool_decide (map_Forall (fun k v => InputState.extra b !! k = Some v)
                          (InputState.extra a)).

(** The [for (const key in currentInputState)] loop: some property of the
    current input is [!==] the same property of the last sent one.  Against
    [{}] every field differs from [undefined]. *)
Definition changed (current : InputState.t) (last : option InputState.t) : bool :=
  match last with
  | None => true
  | Some l => negb (inputEqb current l) || negb (extraIn current l)
  end.

(** [currentInputState.sequence !== lastSentInputState.current.sequence] *)
Definition sequenceDiffers (current : InputState.t) (last : option InputState.t)
  : bool :=
  match last with
  | None => true
  | Some l => negb (InputState.sequence current =? InputState.sequence l)
  end.

(** The guard at the top of [sendInput] and of [gameLoop] passes. *)
Definition live (s : State) : bool :=
  bool_decide (is_Some (conn s)) && bool_decide (is_Some (identityRef s))
  && connectedRef s.

Definition sendInput (currentInputState : InputState.t) (s : State)
  : State * list Action :=
  if negb (bool_decide (is_Some (conn s)))
     || negb (bool_decide (is_Some (identityRef s)))
     || negb (connectedRef s)
  then (s, [])
  else
    let currentPosition :=
      match localPlayerRef s with
      | Some p => PlayerData.position p
      | None => Vector3.mk 0 0 0
      end in
    let currentRotation :=
      Vector3.mk (Vector3.x (playerRotationRef s))
                 (Vector3.y (playerRotationRef s))
                 (Vector3.z (playerRotationRef s)) in
    let currentAnimation := determineAnimation currentInputState in
    if changed currentInputState (lastSentInputState s)
       || sequenceDiffers currentInputState (lastSentInputState s)
    then (set_lastSentInputState (Some currentInputState) s,
          [UpdatePlayerInput currentInputState currentPosition currentRotation
                             currentAnimation])
    else (s, []).

(** *** Game loop *)

(** One run of the [requestAnimationFrame] callback at time [now]; [h] is
    the handle the next [requestAnimationFrame] returns. *)
Definition gameLoop (now : Q) (h : positive) (s : State) : State * list Action :=
  if negb (connectedRef s)
     || negb (bool_decide (is_Some (conn s)))
     || negb (bool_decide (is_Some (identityRef s)))
  then
    match animationFrameIdRef s with
    | Some h0 => (set_animationFrameIdRef None s, [CancelAnimationFrame h0])
    | None => (s, [])
    end
  else
    let '(s, acts) :=
      if Qle_bool INPUT_SEND_INTERVAL (now - lastSendTime s)
      then
        let s := set_currentInputRef
                   (setSequence (num_incr (InputState.sequence (currentInputRef s)))
                                (currentInputRef s)) s in
        let '(s, acts) := sendInput (currentInputRef s) s in
        (set_lastSendTime now s, acts)
      else (s, []) in
    (set_animationFrameIdRef (Some h) s, (acts ++ [RequestAnimationFrame h])%list).

(** The clean-up function of the game-loop effect. *)
Definition gameLoopCleanup (s : State) : State * list Action :=
  match animationFrameIdRef s with
  | Some h0 => (set_animationFrameIdRef None s, [CancelAnimationFrame h0])
  | None => (s, [])
  end.

(** The body of the game-loop effect: a new closure with [lastSendTime = 0],
    which arms the loop when connected and not already armed. *)
Definition gameLoopEffect (h : positive) (s : State) : State * list Action :=
  let s := set_lastSendTime 0 s in
  if connected s && negb (bool_decide (is_Some (animationFrameIdRef s)))
  then (set_animationFrameIdRef (Some h) s, [RequestAnimationFrame h])
  else (s, []).

(** React committing a render: the game-loop effect, whose dependency is
    [connected], is cleaned up and run again exactly when [connected]
    changed since it last ran. *)
Definition commit (h : positive) (s : State) : State * list Action :=
  if Bool.eqb (connected s) (effectConnected s) then (s, [])
  else
    let '(s, acts1) := gameLoopCleanup s in
    let '(s, acts2) := gameLoopEffect h s in
    (set_effectConnected (connected s) s, (acts1 ++ acts2)%list).

(** *** Connection life cycle *)

Definition onConnect (connection : DbConnection) (id : Identity) (s : State)
  : State * list Action :=
  let s := set_conn (Some connection) s in
  let s := set_identityRef (Some id) s in
  let s := set_connectedRef true s in
  let s := set_identity (Some id) s in
  let s := set_connected true s in
  let s := set_statusMessage
             (lit ("Connected as " ++ String.substring 0 8 id ++ "...")) s in
  let acts1 := registerTableCallbacks s in
  let acts2 := subscribeToTables s in
  let s := set_showJoinDialog true s in
  (s, (acts1 ++ acts2 ++ [AddInputListeners; AddDelegatedListeners])%list).

(** [reason] is [reason.message] when a reason is given. *)
Definition onDisconnect (reason : option jsstring) (s : State) : State :=
  let reasonStr := match reason with
                   | Some m => m
                   | None => lit "No reason given"
                   end in
  let s := set_statusMessage (lit "Disconnected: " ++ reasonStr)%list s in
  let s := set_conn None s in
  let s := set_identityRef None s in
  let s := set_connectedRef false s in
  let s := set_localPlayerRef None s in
  let s := set_identity None s in
  let s := set_connected false s in
  let s := set_players ∅ s in
  set_localPlayer None s.

Definition handleJoinGame (username : jsstring) (characterClass : string)
    (s : State) : State * list Action :=
  match conn s with
  | None => (s, [])
  | Some _ => (set_showJoinDialog false s, [RegisterPlayer username characterClass])
  end.

(** *** Runs of the interactive client *)

(** What can happen after the first render.  A frame fires only while one is
    requested, which is exactly while [animationFrameIdRef] holds a
    handle. *)
Inductive Event : Type :=
| Connect (connection : DbConnection) (id : Identity)
| Disconnect (reason : option jsstring)
| Commit (h : positive)
| Frame (now : Q) (h : positive)
| SubscriptionApplied (rows : list PlayerData.t)
| Insert (player : PlayerData.t)
| Update (oldPlayer newPlayer : PlayerData.t)
| Delete (player : PlayerData.t)
| KeyDown (code : string) (repeat : bool)
| KeyUp (code : string)
| MouseDown (button : Z)
| MouseUp (button : Z)
| PlayerRotation (rotation : Vector3.t)
| JoinGame (username : jsstring) (characterClass : string).

Definition step (e : Event) (s : State) : State * list Action :=
  match e with
  | Connect c id => onConnect c id s
  | Disconnect reason => (onDisconnect reason s, [])
  | Commit h => commit h s
  | Frame now h =>
      match animationFrameIdRef s with
      | Some _ => gameLoop now h s
      | None => (s, [])
      end
  | SubscriptionApplied rows => (onSubscriptionApplied rows s, [])
  | Insert p => (onInsert p s, [])
  | Update o n => (onUpdate o n s, [])
  | Delete p => (onDelete p s, [])
  | KeyDown code repeat => (handleKeyDown code repeat s, [])
  | KeyUp code => (handleKeyUp code s, [])
  | MouseDown b => (handleMouseDown b s, [])
  | MouseUp b => (handleMouseUp b s, [])
  | PlayerRotation r => (handlePlayerRotation r s, [])
  | JoinGame u c => handleJoinGame u c s
  end.

Fixpoint run (es : list Event) (s : State) : State * list Action :=
  match es with
  | [] => (s, [])
  | e :: es' =>
      let '(s1, acts1) := step e s in
      let '(s2, acts2) := run es' s1 in
      (s2, (acts1 ++ acts2)%list)
  end.

End App.

(** ** The join dialog ([JoinGameDialog.tsx]) *)

Module JoinGameDialog.

(** [handleSubmit] with the dialog's [username] and [characterClass] state:
    the arguments [onJoin] is called with.  The random draw happens only
    when the trimmed name is empty ([||] short-circuits). *)
Definition handleSubmit (username : jsstring) (characterClass : string)
  : Rand (jsstring * string) :=
  finalUsername ←
    (if truthy (trim username) then mret (trim username)
     else r ← random;
          mret (lit "Player" ++ toString (floor (Double.mul r 1000)))%list);
  mret (finalUsername, characterClass).

End JoinGameDialog.

(** ** Vocabulary of the properties *)

(** Every later element is strictly greater than every earlier one. *)
Definition strictlyIncreasing (l : list Z) : Prop :=
  forall (i j : nat) (a b : Z),
    l !! i = Some a -> l !! j = Some b -> (i < j)%nat -> a < b.

(** Every callback registration of the trace comes strictly before every
    subscription of the trace. *)
Definition registrationsPrecedeSubscription (acts : list Action) : Prop :=
  forall (i j : nat) (cb : TableCallback) (q : string),
    acts !! i = Some (RegisterCallback cb) ->
    acts !! j = Some (Subscribe q) ->
    (i < j)%nat.

(** How many of the four movement flags are set. *)
Definition movementFlags (i : InputState.t) : nat :=
  count_occ bool_dec
    [InputState.forward i; InputState.backward i;
     InputState.left i; InputState.right i] true.

(** The first movement flag set, in the order forward, backward, left, right,
    as the direction suffix of a label. *)
Definition priorityDirection (i : InputState.t) : option string :=
  if InputState.forward i then Some "forward"
  else if InputState.backward i then Some "back"
  else if InputState.left i then Some "left"
  else if InputState.right i then Some "right"
  else None.

(** The direction of the interactive client's label: opposite flags cancel
    on each axis, the forward/backward axis is looked at first, and when both
    axes cancel the direction is left with all four flags set and forward
    otherwise. *)
Definition axisDirection (i : InputState.t) : option string :=
  let f := InputState.forward i in
  let b := InputState.backward i in
  let l := InputState.left i in
  let r := InputState.right i in
  if negb (f || b || l || r) then None
  else if xorb f b then Some (if f then "forward" else "back")
  else if xorb l r then Some (if l then "left" else "right")
  else if f && l then Some "left"
  else Some "forward".

Definition movementLabel (sprint : bool) (d : option string) : string :=
  match d with
  | None => "idle"
  | Some d => (if sprint then "run" else "walk") ++ "-" ++ d
  end.

Module Stated.


(** "Tie-breaks favor forward > backward > left > right": the label names
    the first flag set in that order. *)
Definition priorityLabel (i : InputState.t) : string :=
  movementLabel (InputState.sprint i) (priorityDirection i).

(** "3 to 23 ticks". *)
Definition holdRange (n : Z) : Prop := 3 <= n <= 23.

(** The interactive session is in the Connected-Registered state: it is
    live and its own player row has arrived, which is how the client learns
    that the remote service accepted its registration. *)
Definition connectedRegistered (s : App.State) : bool :=
  App.live s && bool_decide (is_Some (App.localPlayerRef s)).

End Stated.

(** ** Derived notions and sample sessions *)

(** The input [buildInput] returns when its draw is [r]. *)
Definition botInput (dir : Bot.DirectionKey) (seq : Z) (r : Q) : InputState.t :=
  {| InputState.forward := Bot.DirectionKey_eqb dir Bot.Forward;
     InputState.backward := Bot.DirectionKey_eqb dir Bot.Backward;
     InputState.left := Bot.DirectionKey_eqb dir Bot.Left;
     InputState.right := Bot.DirectionKey_eqb dir Bot.Right;
     InputState.sprint := lt r lit_0_3;
     InputState.jump := false;
     InputState.attack := false;
     InputState.castSpell := false;
     InputState.sequence := seq;
     InputState.extra := ∅ |}.

(** The state a tick reaches before it stamps the sequence number. *)
Definition afterDirection (st st1 : Bot.ClientState) (tape tape1 : list Q) : Prop :=
  let st0 := Bot.set_dirChangeCountdown (Bot.dirChangeCountdown st - 1) st in
  (0 < Bot.dirChangeCountdown st - 1 /\ st1 = st0 /\ tape1 = tape)
  \/ (Bot.dirChangeCountdown st - 1 <= 0
      /\ Bot.switchDirection st0 tape = Some (st1, tape1)).

(** [l] is strictly increasing and lies in the interval (n, m]. *)
Definition seqsWithin (n m : Z) (l : list Z) : Prop :=
  StronglySorted Z.lt l /\ Forall (fun x => n < x <= m) l.

(** The position sent along: the local player's, or the origin. *)
Definition currentPosition (s : App.State) : Vector3.t :=
  match App.localPlayerRef s with
  | Some p => PlayerData.position p
  | None => Vector3.mk 0 0 0
  end.

Definition currentRotation (s : App.State) : Vector3.t :=
  Vector3.mk (Vector3.x (App.playerRotationRef s))
             (Vector3.y (App.playerRotationRef s))
             (Vector3.z (App.playerRotationRef s)).

(** The sequence number of the live input. *)
Definition appSequence (s : App.State) : Z :=
  InputState.sequence (App.currentInputRef s).

(** The input last sent, if any, carries a sequence number the live input
    has reached. *)
Definition lastSentBehind (s : App.State) : Prop :=
  forall l, App.lastSentInputState s = Some l ->
            InputState.sequence l <= appSequence s.

(** A bot session: spawned with three draws, connected, subscribed, and
    ticked twice. *)
Definition demoBotTape : list Q := [0; 0; 0; 1 # 2; 1 # 2]%Q.

Definition demoBotEvents : list Bot.Event :=
  [Bot.Connect 1%positive; Bot.Applied 2%positive; Bot.Tick; Bot.Tick].

Definition demoBotStart : Bot.Session :=
  Bot.mkSession (Bot.mkClientState 1 None false 0 None Bot.Forward 3 0)
                (lit "Bot_1") "Wizard" 9%positive.

Definition demoBotSession : option (Bot.Session * list Q) :=
  Eval vm_compute in Bot.spawnClient 1 9%positive demoBotTape.

Definition demoBotRun : option (Bot.Session * list Action * list Q) :=
  Eval vm_compute in
    match demoBotSession with
    | Some (sess, tape) => Bot.run demoBotEvents sess tape
    | None => None
    end.

Definition demoBotActions : list Action :=
  Eval vm_compute in
    match demoBotRun with
    | Some (_, acts, _) => acts
    | None => []
    end.

(** An interactive session: connected, game loop armed by the render,
    [W] pressed, and three frames of which two are due. *)
Definition demoAppEvents : list App.Event :=
  [App.Connect 1%positive "c0ffee00c0ffee00"; App.Commit 1%positive;
   App.Frame 60 2%positive; App.KeyDown "KeyW" false;
   App.Frame 70 3%positive; App.Frame 120 4%positive].

Definition demoAppActions : list Action :=
  Eval vm_compute in snd (App.run demoAppEvents App.init).

(** The call of [sendInput] that a frame at time [now] makes in state [s],
    if it makes one: the argument and the state the call runs in.
    [gameLoop] holds the only call, after its guard and its pacing test and
    right after the increment of the sequence number. *)
Definition sendInputCall (now : Q) (s : App.State)
  : option (InputState.t * App.State) :=
  if negb (App.connectedRef s)
     || negb (bool_decide (is_Some (App.conn s)))
     || negb (bool_decide (is_Some (App.identityRef s)))
  then None
  else if Qle_bool App.INPUT_SEND_INTERVAL (now - App.lastSendTime s)
  then
    let s1 := App.set_currentInputRef
                (App.setSequence
                   (num_incr (InputState.sequence (App.currentInputRef s)))
                   (App.currentInputRef s)) s in
    Some (App.currentInputRef s1, s1)
  else None.




(** Forward, backward and left held together. *)
Definition labelInput : InputState.t :=
  InputState.mk true true true false false false false false 0 ∅.

(** Exactly one movement flag, and no action flag. *)
Definition oneDirectionNoAction (i : InputState.t) : Prop :=
  movementFlags i = 1%nat
  /\ InputState.jump i = false
  /\ InputState.attack i = false
  /\ InputState.castSpell i = false.

(** The rows written one after the other into a map, as the backfill loop
    does. *)
Definition mergeRows (rows : list PlayerData.t) (m : gmap string PlayerData.t)
  : gmap string PlayerData.t :=
  fold_left (fun m p => <[PlayerData.identity p := p]> m) rows m.

(** Two rows as the service could hold them. *)
Definition rowAda : PlayerData.t :=
  PlayerData.mk "c0ffee00c0ffee00" (lit "Ada") "Wizard"
                (Vector3.mk 1 0 2) (Vector3.mk 0 0 0) "idle" 100 100.

Definition rowBob : PlayerData.t :=
  PlayerData.mk "0badf00d0badf00d" (lit "Bob") "Paladin"
                (Vector3.mk 3 0 4) (Vector3.mk 0 0 0) "idle" 100 100.

(** The interactive client just after [onConnect]: live, its map empty. *)
Definition connectedState : App.State :=
  fst (App.onConnect 1%positive "c0ffee00c0ffee00" App.init).

(** While a frame is requested the game-loop effect last ran with
    [connected] true. *)
Definition frameArmedByEffect (s : App.State) : Prop :=
  is_Some (App.animationFrameIdRef s) -> App.effectConnected s = true.

Definition isConnect (e : App.Event) : bool :=
  match e with App.Connect _ _ => true | _ => false end.

(** The locally cached authoritative state is gone and the session is
    marked disconnected. *)
Definition cleared (s : App.State) : Prop :=
  App.players s = ∅
  /\ App.localPlayer s = None /\ App.localPlayerRef s = None
  /\ App.identity s = None /\ App.identityRef s = None
  /\ App.connected s = false /\ App.connectedRef s = false
  /\ App.conn s = None.

(** The outcome of a step leaves no frame requested, requests none, and
    transmits nothing; a frame that was requested in [s] is cancelled. *)
Definition tickCancelled (s : App.State) (out : App.State * list Action) : Prop :=
  App.animationFrameIdRef (fst out) = None
  /\ snd out = match App.animationFrameIdRef s with
               | Some h0 => [CancelAnimationFrame h0]
               | None => []
               end.

(** A connected session whose game loop the first render after
    [onConnect] has armed; nobody has joined yet. *)
Definition armedState : App.State :=
  fst (App.run [App.Connect 1%positive "c0ffee00c0ffee00"; App.Commit 1%positive]
               App.init).

(** The position of a direction in [DIRECTIONS]. *)
Definition dirIndex (d : Bot.DirectionKey) : Z :=
  match d with
  | Bot.Forward => 0
  | Bot.Backward => 1
  | Bot.Left => 2
  | Bot.Right => 3
  end.

(** A draw that makes [randomItem] pick index [i] of an array of length
    [n]: the least multiple of 2^-53 that is at least i/n. *)
Definition drawFor (i n : Z) : Q :=
  Qmake ((i * 2 ^ 53 + n - 1) / n) 9007199254740992.

(** The direction an input moves in: the first movement flag set. *)
Definition directionOf (i : InputState.t) : option Bot.DirectionKey :=
  if InputState.forward i then Some Bot.Forward
  else if InputState.backward i then Some Bot.Backward
  else if InputState.left i then Some Bot.Left
  else if InputState.right i then Some Bot.Right
  else None.

(** The directions of the inputs transmitted, in order. *)
Definition directionsSent (acts : list Action) : list (option Bot.DirectionKey) :=
  map directionOf (transmitted acts).

(** The bot is connected, registered and its interval is armed. *)
Definition ticking (sess : Bot.Session) : Prop :=
  is_Some (Bot.conn (Bot.state sess))
  /\ Bot.registered (Bot.state sess) = true
  /\ is_Some (Bot.tickHandle (Bot.state sess)).

(** A tape all of whose draws are doubles in [0,1). *)
Definition validTape (tape : list Q) : Prop :=
  Forall (fun r => in_unit r = true) tape.

(** A registered bot whose countdown is about to run out. *)
Definition holdState : Bot.ClientState :=
  Bot.mkClientState 1 (Some 1%positive) true 0 (Some 2%positive) Bot.Forward 1 0.

Definition holdSession : Bot.Session :=
  Bot.mkSession holdState (lit "Bot_1") "Wizard" 9%positive.

(** Draws that make the next tick turn backward and redraw the longest
    countdown (31/32 * 20 = 19.375), then sprint draws for 23 more ticks,
    then the draws of the next switch, to the left. *)
Definition holdTape : list Q :=
  ([1 # 4; 31 # 32; 1 # 2; 1 # 2] ++ replicate 23 (1 # 2)
   ++ [1 # 2; 0; 1 # 2; 1 # 2])%Q.

(** A bot spawned heading forward with the shortest countdown, 3, which
    connects, subscribes and ticks three times; the third tick turns it
    backward. *)
Definition shortHoldSpawnTape : list Q := [0; 0; 0]%Q.

Definition shortHoldEvents : list Bot.Event :=
  [Bot.Connect 1%positive; Bot.Applied 2%positive; Bot.Tick; Bot.Tick; Bot.Tick].

Definition shortHoldTape : list Q := [1 # 2; 1 # 2; 1 # 4; 0; 1 # 2; 1 # 2]%Q.

Definition shortHoldRun : option (Bot.Session * list Action * list Q) :=
  Eval vm_compute in Bot.run shortHoldEvents demoBotStart shortHoldTape.

Definition shortHoldEnd : Bot.Session :=
  Eval vm_compute in
    match shortHoldRun with
    | Some (sess, _, _) => sess
    | None => demoBotStart
    end.

Definition shortHoldActions : list Action :=
  Eval vm_compute in
    match shortHoldRun with
    | Some (_, acts, _) => acts
    | None => []
    end.

(** ** Further code: pointer look and shutdown *)

Module Pointer.

(** The double literal [0.002], as the rational it is. *)
Definition sensitivity : Q := 1152921504606847 # 576460752303423488.

(** [Math.PI / 2.5]: the quotient is itself a double, so no rounding
    occurs. *)
Definition PITCH_LIMIT : Q := 176855943800711 # 140737488355328.

Definition max (a b : Q) : Q := if Qle_bool a b then b else a.

Definition min (a b : Q) : Q := if Qle_bool a b then a else b.

Section MouseMove.

(** Subtraction and multiplication of doubles, whatever their rounding. *)
Variables num_sub num_mul : Q -> Q -> Q.

(** [handleMouseMove]; [locked] is
    [document.pointerLockElement === document.body]. *)
Definition handleMouseMove (locked : bool) (movementX movementY : Q)
    (s : App.State) : App.State :=
  if locked
  then
    let rot := App.playerRotationRef s in
    let y := num_sub (Vector3.y rot) (num_mul movementX sensitivity) in
    let x := max (- PITCH_LIMIT)
                 (min PITCH_LIMIT
                      (num_sub (Vector3.x rot) (num_mul movementY sensitivity))) in
    App.set_playerRotationRef (Vector3.mk x y (Vector3.z rot)) s
  else s.

End MouseMove.

End Pointer.

Module Main.

(** The clean-up loop of [main] over the connected clients. *)
Fixpoint stopAll (clients : list Bot.Session) : list Bot.Session * list Action :=
  match clients with
  | [] => ([], [])
  | client :: clients' =>
      let '(client, acts1) := Bot.stopBot client in
      let '(clients', acts2) := stopAll clients' in
      (client :: clients', (acts1 ++ acts2)%list)
  end.

End Main.

(** ** Further notions *)

Definition isRegisterPlayer (a : Action) : bool :=
  match a with RegisterPlayer _ _ => true | _ => false end.

Definition isSubscribe (a : Action) : bool :=
  match a with Subscribe _ => true | _ => false end.

Definition isUpdatePlayerInput (a : Action) : bool :=
  match a with UpdatePlayerInput _ _ _ _ => true | _ => false end.

(** Scanning a trace from the left: every [updatePlayerInput] call comes
    after some action satisfying [enables]; [seen] tells whether one has
    occurred before the trace starts. *)
Fixpoint enabledBefore (enables : Action -> bool) (seen : bool)
    (acts : list Action) : bool :=
  match acts with
  | [] => true
  | a :: acts' =>
      (negb (isUpdatePlayerInput a) || seen)
      && enabledBefore enables (seen || enables a) acts'
  end.

(** The bot's rotation is within 0.25 rad of the angle of the direction it
    walks in, bounds included. *)
Definition facesDirection (st : Bot.ClientState) : Prop :=
  (Bot.rotMap (Bot.direction st) - (1 # 4) <= Bot.rotation st
   /\ Bot.rotation st <= Bot.rotMap (Bot.direction st) + (1 # 4))%Q.

(** The two phases of a bot spawned with direction [d0] and countdown [c0],
    after [n] transmissions: it has not turned yet, or it faces the
    direction it walks in. *)
Definition botPhase (d0 : Bot.DirectionKey) (c0 n : Z) (st : Bot.ClientState)
  : Prop :=
  (n < c0 /\ Bot.direction st = d0 /\ Bot.rotation st = 0%Q
   /\ Bot.dirChangeCountdown st = c0 - n)
  \/ (c0 <= n /\ facesDirection st).

(** What a bot hands to [updatePlayerInput]: the origin as position, a
    pure yaw as rotation, and the label of the input, which is a walk or a
    run. *)
Definition botReport (a : Action) : Prop :=
  match a with
  | UpdatePlayerInput input clientPos clientRot clientAnimation =>
      clientPos = Vector3.mk 0 0 0
      /\ Vector3.x clientRot = 0%Q /\ Vector3.z clientRot = 0%Q
      /\ clientAnimation = Bot.animationFromInput input
      /\ clientAnimation <> "idle"
  | _ => True
  end.

(** A registered bot with three ticks left on its countdown. *)
Definition holdingSession : Bot.Session :=
  Bot.mkSession
    (Bot.mkClientState 1 (Some 1%positive) true 0 (Some 2%positive)
                       Bot.Forward 3 0)
    (lit "Bot_1") "Wizard" 9%positive.

Definition isFrame (e : App.Event) : bool :=
  match e with App.Frame _ _ => true | _ => false end.

Definition isCommit (e : App.Event) : bool :=
  match e with App.Commit _ => true | _ => false end.

(** The live input after the sequence number has been stamped. *)
Definition stamped (s : App.State) : App.State :=
  App.set_currentInputRef
    (App.setSequence (num_incr (InputState.sequence (App.currentInputRef s)))
                     (App.currentInputRef s)) s.

(** The one action of a transmission of the live input of [s]. *)
Definition sendAction (s : App.State) : Action :=
  UpdatePlayerInput (App.currentInputRef s) (currentPosition s)
                    (currentRotation s)
                    (App.determineAnimation (App.currentInputRef s)).

(** An input obtained from [i] by what an event handler can do to it. *)
Definition inputEdit (i i' : InputState.t) : Prop :=
  i' = i
  \/ (exists a b, i' = App.setProp a b i)
  \/ (exists b, i' = App.setAttack b i)
  \/ (exists n, i' = App.setSequence n i).

(** What the interactive client hands to [updatePlayerInput]: an input
    whose [castSpell] flag is off, with the label [determineAnimation]
    derives from it, which is never the cast label. *)
Definition appReport (a : Action) : Prop :=
  match a with
  | UpdatePlayerInput input _ _ clientAnimation =>
      InputState.castSpell input = false
      /\ clientAnimation = App.determineAnimation input
      /\ clientAnimation <> "cast"
  | _ => True
  end.

Definition isDisconnect (e : App.Event) : bool :=
  match e with App.Disconnect _ => true | _ => false end.

(** The times of the frames of a run that transmitted. *)
Fixpoint sendTimes (es : list App.Event) (s : App.State) : list Q :=
  match es with
  | [] => []
  | e :: es' =>
      let '(s1, acts) := App.step e s in
      match e, transmitted acts with
      | App.Frame now _, _ :: _ => now :: sendTimes es' s1
      | _, _ => sendTimes es' s1
      end
  end.

(** Each time of [l] is at least [INPUT_SEND_INTERVAL] after the one before
    it, the first one after [t]. *)
Fixpoint spacedFrom (t : Q) (l : list Q) : Prop :=
  match l with
  | [] => True
  | x :: l' => (t + App.INPUT_SEND_INTERVAL <= x)%Q /\ spacedFrom x l'
  end.

(** The game-loop effect has run for the current value of [connected]. *)
Definition rendered (s : App.State) : Prop :=
  App.connected s = App.effectConnected s.

(** The interactive client with its loop armed, 60 ms after the effect
    ran. *)
Definition pacedEvents : list App.Event :=
  [App.Frame 60 2%positive; App.Frame 100 3%positive;
   App.KeyDown "KeyD" false; App.Frame 110 4%positive;
   App.Frame 161 5%positive].

(** The three things the guard of [gameLoop] and of [sendInput] tests, the
    module variable [conn] and the refs [identityRef] and [connectedRef],
    are present together or absent together. *)
Definition guardRefsAgree (s : App.State) : Prop :=
  (is_Some (App.conn s) <-> is_Some (App.identityRef s))
  /\ (App.connectedRef s = true <-> is_Some (App.conn s)).

(** The local-player ref, when set, holds a row of the session's own
    identity. *)
Definition aliasOwn (s : App.State) : bool :=
  match App.localPlayerRef s with
  | Some p => App.isLocal p s
  | None => true
  end.

(** The position an [updatePlayerInput] call made in state [s] reports: the
    position of the row the local-player ref holds, a row of the session's
    own identity, or the origin when the ref is unset. *)
Definition reportsOwnPosition (s : App.State) (a : Action) : Prop :=
  match a with
  | UpdatePlayerInput _ clientPos _ _ =>
      match App.localPlayerRef s with
      | Some p => App.isLocal p s = true /\ clientPos = PlayerData.position p
      | None => clientPos = Vector3.mk 0 0 0
      end
  | _ => True
  end.

(** Ada's row after she has walked on. *)
Definition rowAdaMoved : PlayerData.t :=
  PlayerData.mk "c0ffee00c0ffee00" (lit "Ada") "Wizard"
                (Vector3.mk 5 0 5) (Vector3.mk 0 0 0) "walk-forward" 90 100.

Definition InputKey_eqb (a b : App.InputKey) : bool :=
  match a, b with
  | App.KForward, App.KForward | App.KBackward, App.KBackward
  | App.KLeft, App.KLeft | App.KRight, App.KRight
  | App.KSprint, App.KSprint | App.KJump, App.KJump => true
  | _, _ => false
  end.

(** The inputs on which the label of the interactive client and the label
    of the bot driver coincide: no action flag, and no opposed pair that
    the interactive client would cancel in favour of another direction. *)
Definition labelsAgree (i : InputState.t) : bool :=
  let f := InputState.forward i in
  let b := InputState.backward i in
  let l := InputState.left i in
  let r := InputState.right i in
  negb (InputState.attack i) && negb (InputState.castSpell i)
  && negb (InputState.jump i)
  && (negb (f && b) || (negb l && negb r))
  && (f || b || negb (l && r)).

(** Neither the first nor the last code unit is white space. *)
Definition edgeFree (s : jsstring) : bool :=
  match s with
  | [] => true
  | c :: _ => negb (is_whitespace c) && negb (is_whitespace (List.last s c))
  end.

(** Submitting the join dialog as [App] wires it: the dialog's [onJoin] is
    [handleJoinGame]. *)
Definition submitJoin (username : jsstring) (characterClass : string)
    (s : App.State) : Rand (App.State * list Action) :=
  '(finalUsername, characterClass) ←
    JoinGameDialog.handleSubmit username characterClass;
  mret (App.handleJoinGame finalUsername characterClass s).

(** The handles of the clients whose interval is armed. *)
Definition armedHandles (clients : list Bot.Session) : list positive :=
  omap (fun c => Bot.tickHandle (Bot.state c)) clients.

(** ** Auxiliary facts *)

Section RandFacts.

Context {A B : Type}.

Lemma bind_Some (m : Rand A) (k : A -> Rand B) (tape : list Q) (r : B * list Q) :
  (m ≫= k) tape = Some r ->
  exists a tape', m tape = Some (a, tape') /\ k a tape' = Some r.
Proof.
  unfold mbind, rand_bind.
  destruct (m tape) as [[a tape']|] eqn:Hm; [|discriminate].
  intros Hk. exists a, tape'. split; [reflexivity | exact Hk].
Qed.

Lemma ret_Some (a : A) (tape : list Q) (r : A * list Q) :
  (mret a : Rand A) tape = Some r -> r = (a, tape).
Proof. unfold mret, rand_ret. congruence. Qed.

End RandFacts.

(** *** Rounding to a double *)

Section DoubleFacts.

Import Double.

Lemma pow2_pos e : (0 < pow2 e)%Q.
Proof. apply Qpower_0_lt. reflexivity. Qed.

Lemma pow2_add a b : (pow2 (a + b) == pow2 a * pow2 b)%Q.
Proof. apply Qpower_plus. discriminate. Qed.

Lemma pow2_le a b : a <= b -> (pow2 a <= pow2 b)%Q.
Proof. intros H. apply Qpower_le_compat_l; [exact H | discriminate]. Qed.

Lemma pow2_lt a b : a < b -> (pow2 a < pow2 b)%Q.
Proof. intros H. apply Qpower_lt_compat_l; [exact H | reflexivity]. Qed.

Lemma pow2_lt_inv a b : (pow2 a < pow2 b)%Q -> a < b.
Proof. intros H. apply (Qpower_lt_compat_l_inv 2); [exact H | reflexivity]. Qed.

Lemma pow2_inject e : 0 <= e -> (pow2 e == inject_Z (2 ^ e))%Q.
Proof. intros H. unfold pow2. rewrite Zpower_Qpower by exact H. reflexivity. Qed.

Lemma pow2_cancel a : (pow2 a * pow2 (- a) == 1)%Q.
Proof. rewrite <- pow2_add. replace (a + - a) with 0 by lia. reflexivity. Qed.

Lemma ilog2_spec x :
  (0 < x)%Q -> (pow2 (ilog2 x) <= x /\ x < pow2 (ilog2 x + 1))%Q.
Proof.
  intros Hx. unfold ilog2.
  destruct x as [n d]. unfold Qlt in Hx. simpl in Hx.
  assert (Hn : 0 < n) by lia. cbn [Qnum Qden].
  set (a := Z.log2 n). set (b := Z.log2 (Z.pos d)).
  destruct (Z.log2_spec n Hn) as [Ha1 Ha2]. fold a in Ha1, Ha2.
  destruct (Z.log2_spec (Z.pos d) eq_refl) as [Hb1 Hb2]. fold b in Hb1, Hb2.
  assert (Ha0 : 0 <= a) by apply Z.log2_nonneg.
  assert (Hb0 : 0 <= b) by apply Z.log2_nonneg.
  assert (Hx' : (n # d == inject_Z n / inject_Z (Z.pos d))%Q)
    by (rewrite Qmake_Qdiv; reflexivity).
  assert (Hd : (0 < inject_Z (Z.pos d))%Q) by reflexivity.
  assert (Hlo : (pow2 (a - b - 1) < n # d)%Q).
  { rewrite Hx'. apply Qlt_shift_div_l; [exact Hd|].
    replace (a - b - 1) with (a + - (b + 1)) by lia.
    rewrite pow2_add.
    apply Qlt_le_trans with (pow2 a * pow2 (- (b + 1)) * pow2 (b + 1))%Q.
    - apply Qmult_lt_l.
      + apply Qmult_lt_0_compat; apply pow2_pos.
      + rewrite (pow2_inject (b + 1)) by lia. rewrite <- Zlt_Qlt.
        rewrite Z.add_1_r. exact Hb2.
    - rewrite <- Qmult_assoc, (Qmult_comm (pow2 (- (b + 1)))), pow2_cancel, Qmult_1_r.
      rewrite (pow2_inject a) by lia. rewrite <- Zle_Qle. exact Ha1. }
  assert (Hhi : (n # d < pow2 (a - b + 1))%Q).
  { rewrite Hx'. apply Qlt_shift_div_r; [exact Hd|].
    replace (a - b + 1) with (a + 1 + - b) by lia.
    rewrite pow2_add.
    apply Qlt_le_trans with (pow2 (a + 1) * pow2 (- b) * pow2 b)%Q.
    - rewrite <- Qmult_assoc, (Qmult_comm (pow2 (- b))), pow2_cancel, Qmult_1_r.
      rewrite (pow2_inject (a + 1)) by lia. rewrite <- Zlt_Qlt.
      rewrite Z.add_1_r. exact Ha2.
    - apply Qmult_le_l.
      + apply Qmult_lt_0_compat; apply pow2_pos.
      + rewrite (pow2_inject b) by lia. rewrite <- Zle_Qle. exact Hb1. }
  destruct (Qle_bool (pow2 (a - b)) (n # d)) eqn:E.
  - apply Qle_bool_iff in E. split; assumption.
  - split.
    + apply Qlt_le_weak. exact Hlo.
    + replace (a - b - 1 + 1) with (a - b) by lia.
      apply Qnot_le_lt. intros Hle. apply Qle_bool_iff in Hle. congruence.
Qed.

Lemma ilog2_unique x e :
  (pow2 e <= x)%Q -> (x < pow2 (e + 1))%Q -> ilog2 x = e.
Proof.
  intros H1 H2.
  assert (Hx : (0 < x)%Q) by (eapply Qlt_le_trans; [apply pow2_pos | exact H1]).
  destruct (ilog2_spec x Hx) as [H3 H4].
  assert (e < ilog2 x + 1).
  { apply pow2_lt_inv. eapply Qle_lt_trans; eassumption. }
  assert (ilog2 x < e + 1).
  { apply pow2_lt_inv. eapply Qle_lt_trans; eassumption. }
  lia.
Qed.

Lemma ilog2_mono x y : (0 < x)%Q -> (x <= y)%Q -> ilog2 x <= ilog2 y.
Proof.
  intros Hx Hxy.
  assert (Hy : (0 < y)%Q) by (eapply Qlt_le_trans; eassumption).
  destruct (ilog2_spec x Hx) as [H1 _]. destruct (ilog2_spec y Hy) as [_ H2].
  assert (ilog2 x < ilog2 y + 1); [|lia].
  apply pow2_lt_inv. eapply Qle_lt_trans; [exact H1|].
  eapply Qle_lt_trans; eassumption.
Qed.

Lemma ilog2_comp x y : (0 < x)%Q -> (x == y)%Q -> ilog2 x = ilog2 y.
Proof.
  intros Hx Hxy. symmetry. destruct (ilog2_spec x Hx) as [H1 H2].
  apply ilog2_unique; rewrite <- Hxy; assumption.
Qed.

Lemma rne_comp m m' : (m == m')%Q -> rne m = rne m'.
Proof.
  intros H. unfold rne. rewrite (Qfloor_comp _ _ H).
  assert (Hc : ((m - inject_Z (Qfloor m') ?= 1 # 2)
                = (m' - inject_Z (Qfloor m') ?= 1 # 2))%Q).
  { apply Qcompare_comp; [rewrite H; reflexivity | reflexivity]. }
  rewrite Hc. reflexivity.
Qed.

Lemma rne_bounds m : Qfloor m <= rne m <= Qfloor m + 1.
Proof.
  unfold rne. destruct (_ ?= _)%Q; [destruct (Z.even _)| |]; lia.
Qed.

Lemma rne_Z z : rne (inject_Z z) = z.
Proof.
  unfold rne. rewrite Qfloor_Z.
  assert (H : ((inject_Z z - inject_Z z ?= 1 # 2) = Lt)%Q).
  { rewrite <- Qlt_alt. lra. }
  rewrite H. reflexivity.
Qed.

Lemma rne_mono m1 m2 : (m1 <= m2)%Q -> rne m1 <= rne m2.
Proof.
  intros H. pose proof (Qfloor_resp_le _ _ H) as Hf.
  pose proof (rne_bounds m1) as B1. pose proof (rne_bounds m2) as B2.
  destruct (Z.eq_dec (Qfloor m1) (Qfloor m2)) as [E|NE]; [|lia].
  unfold rne. rewrite E.
  destruct (m1 - inject_Z (Qfloor m2) ?= 1 # 2)%Q eqn:C1;
    destruct (m2 - inject_Z (Qfloor m2) ?= 1 # 2)%Q eqn:C2;
    try (destruct (Z.even (Qfloor m2))); try lia; exfalso;
    try rewrite <- Qeq_alt in C1; try rewrite <- Qlt_alt in C1;
    try rewrite <- Qgt_alt in C1;
    try rewrite <- Qeq_alt in C2; try rewrite <- Qlt_alt in C2;
    try rewrite <- Qgt_alt in C2; lra.
Qed.

Lemma rne_nonneg m : (0 <= m)%Q -> 0 <= rne m.
Proof.
  intros H. pose proof (rne_bounds m).
  pose proof (Qfloor_resp_le _ _ H) as Hf.
  change (Qfloor 0) with 0 in Hf. lia.
Qed.

(** Rounding a positive number at its own exponent. *)
Lemma ulp_exp_at x e :
  (pow2 e <= x)%Q -> (x < pow2 (e + 1))%Q -> ulp_exp x = Z.max e (-1022) - 52.
Proof. intros H1 H2. unfold ulp_exp. rewrite (ilog2_unique x e H1 H2). reflexivity. Qed.

Lemma round_pos_comp x y : (0 < x)%Q -> (x == y)%Q -> (round_pos x == round_pos y)%Q.
Proof.
  intros Hx H. unfold round_pos, ulp_exp. rewrite (ilog2_comp x y Hx H).
  rewrite (rne_comp (x * _) (y * pow2 (- (Z.max (ilog2 y) (-1022) - 52)))%Q);
    [reflexivity|]. rewrite H. reflexivity.
Qed.

Lemma round_pos_nonneg x : (0 < x)%Q -> (0 <= round_pos x)%Q.
Proof.
  intros Hx. unfold round_pos. apply Qmult_le_0_compat.
  - change 0%Q with (inject_Z 0). rewrite <- Zle_Qle. apply rne_nonneg.
    apply Qmult_le_0_compat; [lra | apply Qlt_le_weak, pow2_pos].
  - apply Qlt_le_weak, pow2_pos.
Qed.

(** With [E] the clamped exponent of [x]: the rounding is at most 2^(E+1),
    and at least 2^E for a normal [x]. *)
Lemma round_pos_upper x :
  (0 < x)%Q -> (round_pos x <= pow2 (Z.max (ilog2 x) (-1022) + 1))%Q.
Proof.
  intros Hx. unfold round_pos, ulp_exp.
  set (E := Z.max (ilog2 x) (-1022)).
  destruct (ilog2_spec x Hx) as [_ H2].
  assert (Hlt : (x < pow2 (E + 1))%Q).
  { eapply Qlt_le_trans; [exact H2|]. apply pow2_le. lia. }
  assert (Hm : (x * pow2 (- (E - 52)) < inject_Z (2 ^ 53))%Q).
  { rewrite <- (pow2_inject 53) by lia.
    replace 53 with (E + 1 + - (E - 52)) by lia. rewrite pow2_add.
    apply Qmult_lt_compat_r; [apply pow2_pos | exact Hlt]. }
  assert (Hr : rne (x * pow2 (- (E - 52))) <= 2 ^ 53).
  { pose proof (rne_bounds (x * pow2 (- (E - 52)))) as B.
    pose proof (Qfloor_le (x * pow2 (- (E - 52)))) as Hfl.
    assert (inject_Z (Qfloor (x * pow2 (- (E - 52)))) < inject_Z (2 ^ 53))%Q
      by (eapply Qle_lt_trans; eassumption).
    rewrite <- Zlt_Qlt in H. lia. }
  replace (E + 1) with (53 + (E - 52)) by lia. rewrite pow2_add.
  apply Qmult_le_compat_r; [|apply Qlt_le_weak, pow2_pos].
  rewrite (pow2_inject 53) by lia. rewrite <- Zle_Qle. exact Hr.
Qed.

Lemma round_pos_lower x :
  (0 < x)%Q -> -1022 <= ilog2 x -> (pow2 (ilog2 x) <= round_pos x)%Q.
Proof.
  intros Hx Hn. unfold round_pos, ulp_exp.
  rewrite Z.max_l by lia. set (E := ilog2 x).
  destruct (ilog2_spec x Hx) as [H1 _]. fold E in H1.
  assert (Hm : (inject_Z (2 ^ 52) <= x * pow2 (- (E - 52)))%Q).
  { rewrite <- (pow2_inject 52) by lia.
    replace 52 with (E + - (E - 52)) at 1 by lia. rewrite pow2_add.
    apply Qmult_le_compat_r; [exact H1 | apply Qlt_le_weak, pow2_pos]. }
  assert (Hr : 2 ^ 52 <= rne (x * pow2 (- (E - 52)))).
  { pose proof (rne_bounds (x * pow2 (- (E - 52)))) as B.
    pose proof (Qfloor_resp_le _ _ Hm) as Hf. rewrite Qfloor_Z in Hf. lia. }
  replace E with (52 + (E - 52)) at 1 by lia. rewrite pow2_add.
  apply Qmult_le_compat_r; [|apply Qlt_le_weak, pow2_pos].
  rewrite (pow2_inject 52) by lia. rewrite <- Zle_Qle. exact Hr.
Qed.

Lemma round_pos_mono x y :
  (0 < x)%Q -> (x <= y)%Q -> (round_pos x <= round_pos y)%Q.
Proof.
  intros Hx Hxy.
  assert (Hy : (0 < y)%Q) by (eapply Qlt_le_trans; eassumption).
  pose proof (ilog2_mono x y Hx Hxy) as Hm.
  destruct (Z.eq_dec (Z.max (ilog2 x) (-1022)) (Z.max (ilog2 y) (-1022)))
    as [E|NE].
  - unfold round_pos, ulp_exp. rewrite E.
    apply Qmult_le_compat_r; [|apply Qlt_le_weak, pow2_pos].
    rewrite <- Zle_Qle. apply rne_mono.
    apply Qmult_le_compat_r; [exact Hxy | apply Qlt_le_weak, pow2_pos].
  - eapply Qle_trans; [apply round_pos_upper; exact Hx|].
    eapply Qle_trans; [|apply round_pos_lower; [exact Hy | lia]].
    apply pow2_le. lia.
Qed.

Lemma round_pos_eq x : (0 < x)%Q -> (round x == round_pos x)%Q.
Proof.
  intros Hx. unfold round. rewrite Qred_correct.
  assert (Hc : (x ?= 0)%Q = Gt) by (rewrite <- Qgt_alt; exact Hx).
  rewrite Hc. reflexivity.
Qed.

Lemma round_neg_eq x : (x < 0)%Q -> (round x == - round_pos (- x))%Q.
Proof.
  intros Hx. unfold round. rewrite Qred_correct.
  assert (Hc : (x ?= 0)%Q = Lt) by (rewrite <- Qlt_alt; exact Hx).
  rewrite Hc. reflexivity.
Qed.

Lemma round_zero x : (x == 0)%Q -> round x = 0%Q.
Proof.
  intros Hx. unfold round.
  assert (Hc : (x ?= 0)%Q = Eq) by (rewrite <- Qeq_alt; exact Hx).
  rewrite Hc. reflexivity.
Qed.

Lemma round_comp x y : (x == y)%Q -> round x = round y.
Proof.
  intros H. unfold round. apply Qred_complete.
  rewrite (Qcompare_comp x y H 0%Q 0%Q (Qeq_refl 0)).
  destruct (y ?= 0)%Q eqn:C.
  - reflexivity.
  - rewrite <- Qlt_alt in C. apply Qopp_comp. apply round_pos_comp; [lra|].
    rewrite H. reflexivity.
  - rewrite <- Qgt_alt in C. apply round_pos_comp; [lra | exact H].
Qed.

Lemma round_nonneg x : (0 <= x)%Q -> (0 <= round x)%Q.
Proof.
  intros H. destruct (Qlt_le_dec 0 x) as [Hx|Hx].
  - rewrite (round_pos_eq x Hx). apply round_pos_nonneg. exact Hx.
  - rewrite (round_zero x); lra.
Qed.

Lemma round_nonpos x : (x <= 0)%Q -> (round x <= 0)%Q.
Proof.
  intros H. destruct (Qlt_le_dec x 0) as [Hx|Hx].
  - rewrite (round_neg_eq x Hx).
    pose proof (round_pos_nonneg (- x)) as Hp. lra.
  - rewrite (round_zero x); lra.
Qed.

(** Rounding is monotone. *)
Lemma round_mono x y : (x <= y)%Q -> (round x <= round y)%Q.
Proof.
  intros H. destruct (Qlt_le_dec 0 x) as [Hx|Hx].
  - rewrite (round_pos_eq x Hx), (round_pos_eq y) by lra.
    apply round_pos_mono; assumption.
  - destruct (Qlt_le_dec 0 y) as [Hy|Hy].
    + eapply Qle_trans; [apply round_nonpos; exact Hx|].
      apply round_nonneg. lra.
    + destruct (Qlt_le_dec y 0) as [Hy'|Hy'].
      * rewrite (round_neg_eq x), (round_neg_eq y) by lra.
        pose proof (round_pos_mono (- y) (- x)) as Hm. lra.
      * eapply Qle_trans; [apply round_nonpos; exact Hx|].
        apply round_nonneg. exact Hy'.
Qed.

Lemma round_opp x : (round (- x) == - round x)%Q.
Proof.
  destruct (Qlt_le_dec 0 x) as [Hx|Hx].
  - rewrite (round_neg_eq (- x)) by lra. rewrite (round_pos_eq x Hx).
    rewrite (round_pos_comp (- - x) x); [reflexivity | lra | ring].
  - destruct (Qlt_le_dec x 0) as [Hx'|Hx'].
    + rewrite (round_pos_eq (- x)) by lra. rewrite (round_neg_eq x Hx'). ring.
    + rewrite (round_zero x), (round_zero (- x)) by lra. reflexivity.
Qed.

Lemma pow2_mul_inject M t :
  0 <= t -> (inject_Z M * pow2 t == inject_Z (M * 2 ^ t))%Q.
Proof. intros H. rewrite inject_Z_mult, pow2_inject by exact H. reflexivity. Qed.

(** Every [M * 2^e] with [|M| <= 2^53] and [e >= -1074] is a double. *)
Lemma round_exact_pos M e :
  0 < M <= 2 ^ 53 -> -1074 <= e ->
  (round (inject_Z M * pow2 e) == inject_Z M * pow2 e)%Q.
Proof.
  intros HM He.
  set (x := (inject_Z M * pow2 e)%Q).
  assert (Hx : (0 < x)%Q).
  { apply Qmult_lt_0_compat; [|apply pow2_pos].
    change 0%Q with (inject_Z 0). rewrite <- Zlt_Qlt. lia. }
  rewrite (round_pos_eq x Hx).
  set (k := Z.log2 M).
  destruct (Z.log2_spec M) as [Hk1 Hk2]; [lia|]. fold k in Hk1, Hk2.
  assert (Hk0 : 0 <= k) by apply Z.log2_nonneg.
  assert (Hk53 : k <= 53).
  { assert (2 ^ k < 2 ^ 54) by lia.
    apply Z.pow_lt_mono_r_iff in H; lia. }
  assert (Hlo : (pow2 (k + e) <= x)%Q).
  { rewrite pow2_add. unfold x.
    apply Qmult_le_compat_r; [|apply Qlt_le_weak, pow2_pos].
    rewrite pow2_inject by lia. rewrite <- Zle_Qle. exact Hk1. }
  assert (Hhi : (x < pow2 (k + e + 1))%Q).
  { replace (k + e + 1) with (k + 1 + e) by lia. rewrite pow2_add. unfold x.
    apply Qmult_lt_compat_r; [apply pow2_pos|].
    rewrite pow2_inject by lia. rewrite <- Zlt_Qlt.
    rewrite Z.add_1_r. exact Hk2. }
  unfold round_pos. rewrite (ulp_exp_at x (k + e) Hlo Hhi).
  set (q := Z.max (k + e) (-1022) - 52).
  destruct (Z_le_dec 0 (e - q)) as [Ht|Ht].
  - assert (Hm : (x * pow2 (- q) == inject_Z (M * 2 ^ (e - q)))%Q).
    { unfold x. rewrite <- Qmult_assoc, <- pow2_add.
      replace (e + - q) with (e - q) by lia. apply pow2_mul_inject. exact Ht. }
    rewrite (rne_comp _ _ Hm), rne_Z.
    rewrite <- pow2_mul_inject by exact Ht.
    rewrite <- Qmult_assoc, <- pow2_add.
    replace (e - q + q) with e by lia. reflexivity.
  - assert (Hk : k = 53) by lia.
    assert (HM' : M = 2 ^ 53).
    { rewrite Hk in Hk1. lia. }
    assert (Hq : q = e + 1) by lia.
    assert (Hm : (x * pow2 (- q) == inject_Z (2 ^ 52))%Q).
    { unfold x. rewrite <- Qmult_assoc, <- pow2_add.
      replace (e + - q) with (-1) by lia. rewrite HM'. reflexivity. }
    rewrite (rne_comp _ _ Hm), rne_Z. unfold x. rewrite HM', Hq.
    rewrite (pow2_add e 1). change (pow2 1) with 2%Q.
    change (inject_Z (2 ^ 53)) with (inject_Z (2 ^ 52) * 2)%Q. ring.
Qed.

Lemma round_exact M e :
  - 2 ^ 53 <= M <= 2 ^ 53 -> -1074 <= e ->
  (round (inject_Z M * pow2 e) == inject_Z M * pow2 e)%Q.
Proof.
  intros HM He.
  destruct (Z.lt_trichotomy M 0) as [Hn|[Hz|Hp]].
  - assert (Heq : (inject_Z M * pow2 e == - (inject_Z (- M) * pow2 e))%Q).
    { rewrite inject_Z_opp. ring. }
    rewrite (round_comp _ _ Heq), round_opp, round_exact_pos by lia.
    symmetry. exact Heq.
  - subst M. rewrite (round_zero (inject_Z 0 * pow2 e)); ring.
  - apply round_exact_pos; lia.
Qed.

Lemma round_exact_Z n : - 2 ^ 53 <= n <= 2 ^ 53 -> (round (inject_Z n) == inject_Z n)%Q.
Proof.
  intros H. pose proof (round_exact n 0 H ltac:(lia)) as Hr.
  assert (Heq : (inject_Z n * pow2 0 == inject_Z n)%Q)
    by (change (pow2 0) with 1%Q; ring).
  rewrite (round_comp _ _ Heq) in Hr. rewrite Hr. exact Heq.
Qed.

Lemma is_double_spec x : is_double x = true <-> (round x == x)%Q.
Proof. unfold is_double. apply Qeq_bool_iff. Qed.

(** A positive double is an integer of at most 53 bits times a power of
    two. *)
Lemma double_decomp x :
  (0 < x)%Q -> is_double x = true ->
  exists M, 0 <= M <= 2 ^ 53 /\ (x == inject_Z M * pow2 (ulp_exp x))%Q.
Proof.
  intros Hx Hd. apply is_double_spec in Hd.
  rewrite (round_pos_eq x Hx) in Hd.
  exists (rne (x * pow2 (- ulp_exp x))). split.
  - split.
    + apply rne_nonneg. apply Qmult_le_0_compat; [lra | apply Qlt_le_weak, pow2_pos].
    + pose proof (round_pos_upper x Hx) as Hu. unfold round_pos in Hu.
      unfold ulp_exp in *. set (E := Z.max (ilog2 x) (-1022)) in *.
      replace (E + 1) with (53 + (E - 52)) in Hu by lia.
      rewrite pow2_add in Hu.
      apply Qmult_le_r in Hu; [|apply pow2_pos].
      rewrite (pow2_inject 53) in Hu by lia. rewrite <- Zle_Qle in Hu. exact Hu.
  - symmetry. exact Hd.
Qed.

Lemma ulp_exp_ge x : -1074 <= ulp_exp x.
Proof. unfold ulp_exp. lia. Qed.

(** The doubles below 1 end at [1 - 2^-53]. *)
Lemma double_below_one x :
  is_double x = true -> (x < 1)%Q -> (x <= 1 - pow2 (-53))%Q.
Proof.
  intros Hd H1.
  assert (Hc : (pow2 (-53) == 1 # 9007199254740992)%Q) by reflexivity.
  destruct (Qlt_le_dec x (1 # 2)) as [Hh|Hh]; [rewrite Hc; lra|].
  assert (Hx : (0 < x)%Q) by lra.
  destruct (double_decomp x Hx Hd) as (M & HM & Heq).
  assert (He : ulp_exp x = -53).
  { rewrite (ulp_exp_at x (-1)); [reflexivity | exact Hh | exact H1]. }
  rewrite He in Heq.
  assert (HM' : M < 2 ^ 53).
  { rewrite Zlt_Qlt. apply Qmult_lt_r with (pow2 (-53)); [apply pow2_pos|].
    rewrite <- Heq. rewrite <- (pow2_inject 53) by lia.
    rewrite <- pow2_add. exact H1. }
  rewrite Heq. 
  assert (Hle : (inject_Z M <= inject_Z (2 ^ 53 - 1))%Q) by (rewrite <- Zle_Qle; lia).
  apply Qmult_le_compat_r with (z := pow2 (-53)) in Hle; [|apply Qlt_le_weak, pow2_pos].
  eapply Qle_trans; [exact Hle|]. rewrite Hc. apply Qle_bool_iff. reflexivity.
Qed.

Lemma Qfloor_unique m f :
  (inject_Z f <= m)%Q -> (m < inject_Z (f + 1))%Q -> Qfloor m = f.
Proof.
  intros H1 H2. pose proof (Qfloor_le m) as H3. pose proof (Qlt_floor m) as H4.
  assert (inject_Z f < inject_Z (Qfloor m + 1))%Q by lra.
  assert (inject_Z (Qfloor m) < inject_Z (f + 1))%Q by lra.
  rewrite <- Zlt_Qlt in *. lia.
Qed.

Lemma rne_down m f :
  (inject_Z f <= m)%Q -> (m < inject_Z f + (1 # 2))%Q -> rne m = f.
Proof.
  intros H1 H2. unfold rne.
  assert (Hf : Qfloor m = f).
  { apply Qfloor_unique; [exact H1|]. rewrite inject_Z_plus.
    change (inject_Z 1) with 1%Q. lra. }
  rewrite Hf.
  assert (Hc : (m - inject_Z f ?= 1 # 2)%Q = Lt) by (rewrite <- Qlt_alt; lra).
  rewrite Hc. reflexivity.
Qed.

(** [Math.random() * n] never rounds up to [n]. *)
Lemma round_scale_lt r n :
  is_double r = true -> (0 <= r)%Q -> (r < 1)%Q -> 1 <= n <= 2 ^ 53 ->
  (round (r * inject_Z n) < inject_Z n)%Q.
Proof.
  intros Hd H0 H1 Hn.
  pose proof (double_below_one r Hd H1) as Hr.
  assert (Hc : (pow2 (-53) == 1 # 9007199254740992)%Q) by reflexivity.
  set (c := (1 - pow2 (-53))%Q) in *.
  assert (Hc0 : (0 < c)%Q) by (unfold c; rewrite Hc; reflexivity).
  assert (Hnq : (1 <= inject_Z n)%Q)
    by (change 1%Q with (inject_Z 1); rewrite <- Zle_Qle; lia).
  assert (Hn53 : (inject_Z n <= inject_Z (2 ^ 53))%Q) by (rewrite <- Zle_Qle; lia).
  eapply Qle_lt_trans.
  { apply (round_mono _ (c * inject_Z n)).
    apply Qmult_le_compat_r; [exact Hr | lra]. }
  destruct (Z.eq_dec n 1) as [->|Hn1].
  - assert (Heq : (c * inject_Z 1 == inject_Z (2 ^ 53 - 1) * pow2 (-53))%Q).
    { unfold c. rewrite Hc. reflexivity. }
    rewrite (round_comp _ _ Heq), round_exact by lia.
    rewrite Hc. reflexivity.
  - set (k := Z.log2_up n - 1).
    destruct (Z.log2_up_spec n) as [Hk1 Hk2]; [lia|].
    replace (Z.pred (Z.log2_up n)) with k in Hk1 by lia.
    replace (Z.log2_up n) with (k + 1) in Hk2 by lia.
    assert (Hk0 : 0 <= k).
    { assert (0 < Z.log2_up n) by (apply Z.log2_up_pos; lia). lia. }
    assert (Hk52 : k <= 52).
    { assert (2 ^ k < 2 ^ 53) by lia.
      apply Z.pow_lt_mono_r_iff in H; lia. }
    set (y := (c * inject_Z n)%Q).
    set (P := inject_Z (2 ^ k)).
    assert (HP : (P + 1 <= inject_Z n)%Q).
    { unfold P. change 1%Q with (inject_Z 1). rewrite <- inject_Z_plus.
      rewrite <- Zle_Qle. lia. }
    assert (HP2 : (inject_Z n <= 2 * P)%Q).
    { unfold P. change 2%Q with (inject_Z 2). rewrite <- inject_Z_mult.
      rewrite <- Zle_Qle. rewrite Z.pow_add_r in Hk2 by lia. lia. }
    assert (Hlo : (pow2 k <= y)%Q).
    { rewrite pow2_inject by lia. fold P. unfold y, c. rewrite Hc.
      change (inject_Z (2 ^ 53)) with 9007199254740992%Q in Hn53. nra. }
    assert (Hhi : (y < pow2 (k + 1))%Q).
    { rewrite pow2_add, pow2_inject by lia. fold P. change (pow2 1) with 2%Q.
      unfold y, c. rewrite Hc. nra. }
    assert (Hy : (0 < y)%Q) by (eapply Qlt_le_trans; [apply pow2_pos | exact Hlo]).
    rewrite (round_pos_eq y Hy). unfold round_pos.
    rewrite (ulp_exp_at y k Hlo Hhi), Z.max_l by lia.
    set (N := n * 2 ^ (52 - k)).
    assert (HN : (inject_Z n * pow2 (- (k - 52)) == inject_Z N)%Q).
    { replace (- (k - 52)) with (52 - k) by lia. apply pow2_mul_inject. lia. }
    assert (HN1 : 2 ^ 52 < N).
    { unfold N. replace (2 ^ 52) with (2 ^ k * 2 ^ (52 - k)).
      - apply Z.mul_lt_mono_pos_r; [apply Z.pow_pos_nonneg; lia | lia].
      - rewrite <- Z.pow_add_r by lia. f_equal. lia. }
    assert (HN2 : N <= 2 ^ 53).
    { unfold N. replace (2 ^ 53) with (2 ^ (k + 1) * 2 ^ (52 - k)).
      - apply Z.mul_le_mono_nonneg_r; [apply Z.pow_nonneg; lia | lia].
      - rewrite <- Z.pow_add_r by lia. f_equal. lia. }
    assert (Hm : (y * pow2 (- (k - 52)) == c * inject_Z N)%Q).
    { unfold y. rewrite <- Qmult_assoc, HN. reflexivity. }
    assert (HNq1 : (inject_Z (2 ^ 52) < inject_Z N)%Q) by (rewrite <- Zlt_Qlt; lia).
    assert (HNq2 : (inject_Z N <= inject_Z (2 ^ 53))%Q) by (rewrite <- Zle_Qle; lia).
    change (inject_Z (2 ^ 52)) with 4503599627370496%Q in HNq1.
    change (inject_Z (2 ^ 53)) with 9007199254740992%Q in HNq2.
    assert (HN' : (inject_Z (N - 1) == inject_Z N - 1)%Q).
    { unfold Z.sub. rewrite inject_Z_plus, inject_Z_opp. reflexivity. }
    assert (Hr1 : rne (y * pow2 (- (k - 52))) = N - 1).
    { rewrite (rne_comp _ _ Hm). apply rne_down.
      - rewrite HN'. unfold c. rewrite Hc. lra.
      - rewrite HN'. unfold c. rewrite Hc. lra. }
    rewrite Hr1.
    assert (Hn' : (inject_Z n == inject_Z N * pow2 (k - 52))%Q).
    { rewrite <- HN, <- Qmult_assoc, (Qmult_comm (pow2 _)), pow2_cancel. ring. }
    rewrite Hn'. apply Qmult_lt_compat_r; [apply pow2_pos|].
    rewrite <- Zlt_Qlt. lia.
Qed.

(** Flooring the rounded product, as [Math.floor(Math.random() * n)]
    does, gives one of [0 .. n-1]. *)
Lemma floor_mul_range r n :
  is_double r = true -> (0 <= r)%Q -> (r < 1)%Q -> 1 <= n <= 2 ^ 53 ->
  0 <= Qfloor (mul r (inject_Z n)) <= n - 1.
Proof.
  intros Hd H0 H1 Hn. unfold mul.
  pose proof (round_scale_lt r n Hd H0 H1 Hn) as Hlt.
  assert (Hge : (0 <= round (r * inject_Z n))%Q).
  { apply round_nonneg. apply Qmult_le_0_compat; [exact H0|].
    change 0%Q with (inject_Z 0). rewrite <- Zle_Qle. lia. }
  split.
  - apply Qfloor_resp_le in Hge. exact Hge.
  - pose proof (Qfloor_le (round (r * inject_Z n))) as Hfl.
    assert (inject_Z (Qfloor (round (r * inject_Z n))) < inject_Z n)%Q by lra.
    rewrite <- Zlt_Qlt in H. lia.
Qed.

End DoubleFacts.

Lemma in_unit_spec (r : Q) :
  in_unit r = true <-> (0 <= r /\ r < 1)%Q /\ Double.is_double r = true.
Proof.
  unfold in_unit, lt.
  rewrite !andb_true_iff, negb_true_iff, Qle_bool_iff.
  split.
  - intros [[H0 H1] Hd]. split; [split|]; try assumption.
    apply Qnot_le_lt. intros Hle. apply Qle_bool_iff in Hle. congruence.
  - intros [[H0 H1] Hd]. split; [split|]; try assumption.
    destruct (Qle_bool 1 r) eqn:E; [|reflexivity].
    apply Qle_bool_iff in E. exfalso. apply (Qlt_not_le _ _ H1 E).
Qed.

Lemma in_unit_range (r : Q) : in_unit r = true -> (0 <= r /\ r < 1)%Q.
Proof. intros H. apply in_unit_spec in H. tauto. Qed.

Lemma random_Some (tape : list Q) (r : Q) (tape' : list Q) :
  random tape = Some (r, tape') -> tape = r :: tape' /\ in_unit r = true.
Proof.
  unfold random. destruct tape as [|r0 t]; [discriminate|].
  destruct (in_unit r0) eqn:E; [|discriminate].
  intros [= <- <-]. split; [reflexivity | assumption].
Qed.

Lemma random_cons (r : Q) (tape : list Q) :
  in_unit r = true -> random (r :: tape) = Some (r, tape).
Proof. intros H. unfold random. rewrite H. reflexivity. Qed.

Lemma validTape_forallb (tape : list Q) :
  forallb in_unit tape = true -> validTape tape.
Proof.
  induction tape as [|r tape IH]; simpl; [constructor|].
  intros [Hr Ht]%andb_true_iff. constructor; [exact Hr | apply IH, Ht].
Qed.

(** [Math.floor(Math.random() * n)] is one of [0 .. n-1]: the product of a
    double below 1 and [n] never rounds up to [n]. *)
Lemma floor_scale_range (r : Q) (n : Z) :
  0 < n <= 2 ^ 53 -> in_unit r = true ->
  0 <= floor (Double.mul r (inject_Z n)) <= n - 1.
Proof.
  intros Hn [[H0 H1] Hd]%in_unit_spec. unfold floor.
  apply floor_mul_range; try assumption. lia.
Qed.

(** *** Sample evaluations *)

Example trim_strips_both_ends : trim (lit "  Ada ") = lit "Ada".
Proof. reflexivity. Qed.

Example trim_strips_line_separator :
  trim [0x2028%N; 0x41%N; 0xA0%N; 0xFEFF%N] = [0x41%N].
Proof. reflexivity. Qed.

Example trim_keeps_inner_space : trim (lit " a b ") = lit "a b".
Proof. reflexivity. Qed.

Example toString_zero : toString 0 = lit "0".
Proof. reflexivity. Qed.

Example toString_999 : toString 999 = lit "999".
Proof. reflexivity. Qed.

Example PI_digits :
  (3141592653589793 # 1000000000000000 < PI
   /\ PI < 3141592653589794 # 1000000000000000)%Q.
Proof. split; reflexivity. Qed.

Example lit_0_3_digits :
  (29999999999999998 # 100000000000000000 < lit_0_3 /\ lit_0_3 < 3 # 10)%Q.
Proof. split; reflexivity. Qed.

(** The product of the double 0.3 and 10 is 2.9999999999999998..., which is
    no double and rounds to 3: the floor of the product the program computes
    is 3, not the floor of the exact product. *)
Example product_rounds_to_integer :
  floor (Double.mul lit_0_3 10) = 3 /\ floor (lit_0_3 * 10) = 2.
Proof. split; reflexivity. Qed.

Example initialCountdown_at_0_3 : Bot.initialCountdown lit_0_3 = 6.
Proof. reflexivity. Qed.

(** The double 0.95 times 20 rounds to 19. *)
Example redrawCountdown_at_0_95 :
  Bot.redrawCountdown (4278419646001971 # 4503599627370496) = 24.
Proof. reflexivity. Qed.

(** The largest draw gives the largest jitter, 0.25 - 2^-54, and the sum
    with [Math.PI] rounds to [Math.PI + 0.25]. *)
Example rotation_reaches_bound :
  (Double.add (Bot.rotMap Bot.Backward)
              (Bot.jitter (9007199254740991 # 9007199254740992))
   == PI + (1 # 4))%Q.
Proof. vm_compute. reflexivity. Qed.

Example num_incr_small : num_incr 41 = 42.
Proof. reflexivity. Qed.

Example num_incr_saturates : num_incr TWO_53 = TWO_53.
Proof. reflexivity. Qed.

(** The first tick of a bot registered as Bot_1, heading forward and not
    sprinting, transmits the forward input with sequence number 1 and the
    label walk-forward. *)
Example bot_first_tick :
  demoBotActions
  = [RegisterCallback OnInsert; Subscribe "SELECT * FROM player";
     RegisterPlayer (lit "Bot_1") "Wizard"; SetInterval 2 50;
     ClearTimeout 9; ResolveSpawn;
     UpdatePlayerInput
       (InputState.mk true false false false false false false false 1 ∅)
       (Vector3.mk 0 0 0) (Vector3.mk 0 0 0) "walk-forward";
     UpdatePlayerInput
       (InputState.mk true false false false false false false false 2 ∅)
       (Vector3.mk 0 0 0) (Vector3.mk 0 0 0) "walk-forward"].
Proof. reflexivity. Qed.

Example bot_label_run_forward :
  Bot.animationFromInput
    (InputState.mk true false false false true false false false 1 ∅)
  = "run-forward".
Proof. reflexivity. Qed.

Example bot_label_idle_when_sprinting :
  Bot.animationFromInput
    (InputState.mk false false false false true false false false 1 ∅)
  = "idle".
Proof. reflexivity. Qed.

(** The interactive session of [demoAppEvents]: the frame at 70 ms comes
    too early after the one at 60 ms and sends nothing. *)
Example app_demo_transmissions :
  transmitted demoAppActions
  = [InputState.mk false false false false false false false false 1 ∅;
     InputState.mk true false false false false false false false 2 ∅].
Proof. reflexivity. Qed.

(** *** Inversion of the bot's randomised steps *)

Ltac rand_inv H :=
  let a := fresh "a" in
  let t := fresh "tape" in
  let H1 := fresh "Hm" in
  apply bind_Some in H; destruct H as (a & t & H1 & H).

Lemma buildInput_Some dir seq tape input tape' :
  Bot.buildInput dir seq tape = Some (input, tape') ->
  exists r, tape = r :: tape' /\ in_unit r = true /\ input = botInput dir seq r.
Proof.
  unfold Bot.buildInput. intros H. rand_inv H.
  apply random_Some in Hm as [-> Hr]. apply ret_Some in H.
  injection H as -> ->. exists a. auto.
Qed.

Lemma buildInput_cons dir seq r tape :
  in_unit r = true ->
  Bot.buildInput dir seq (r :: tape) = Some (botInput dir seq r, tape).
Proof.
  intros Hr. unfold Bot.buildInput, mbind, rand_bind.
  rewrite (random_cons _ _ Hr). reflexivity.
Qed.

Lemma randomItem_Some {T : Type} (arr : list T) tape v tape' :
  Bot.randomItem arr tape = Some (v, tape') ->
  exists r, tape = r :: tape' /\ in_unit r = true
            /\ 0 <= floor (Double.mul r (inject_Z (Z.of_nat (length arr))))
            /\ arr !! Z.to_nat (floor (Double.mul r (inject_Z (Z.of_nat (length arr))))) = Some v.
Proof.
  unfold Bot.randomItem. intros H. rand_inv H.
  apply random_Some in Hm as [-> Hr]. exists a.
  unfold index in H.
  destruct (floor (Double.mul a (inject_Z (Z.of_nat (length arr)))) <? 0) eqn:Hneg;
    [discriminate|].
  destruct (arr !! _) as [v0|] eqn:Hv; [|discriminate].
  injection H as <- <-. apply Z.ltb_ge in Hneg. auto.
Qed.

Lemma randomItem_cons {T : Type} (arr : list T) r tape :
  arr <> [] -> Z.of_nat (length arr) <= 2 ^ 53 -> in_unit r = true ->
  exists v, Bot.randomItem arr (r :: tape) = Some (v, tape)
            /\ arr !! Z.to_nat (floor (Double.mul r (inject_Z (Z.of_nat (length arr))))) = Some v.
Proof.
  intros Hne Hmax Hr.
  assert (Hlen : 0 < Z.of_nat (length arr) <= 2 ^ 53)
    by (split; [destruct arr; [congruence | simpl; lia] | exact Hmax]).
  pose proof (floor_scale_range r _ Hlen Hr) as Hfl.
  destruct (lookup_lt_is_Some_2 arr
              (Z.to_nat (floor (Double.mul r (inject_Z (Z.of_nat (length arr)))))))
    as [v Hv]; [lia|].
  exists v. split; [|exact Hv].
  unfold Bot.randomItem, mbind, rand_bind. rewrite (random_cons _ _ Hr).
  unfold index. destruct (Z.ltb_spec (floor (Double.mul r (inject_Z (Z.of_nat (length arr))))) 0);
    [lia|]. rewrite Hv. reflexivity.
Qed.

Lemma switchDirection_Some st tape st1 tape1 :
  Bot.switchDirection st tape = Some (st1, tape1) ->
  exists rd rc rj d,
    tape = rd :: rc :: rj :: tape1
    /\ in_unit rd = true /\ in_unit rc = true /\ in_unit rj = true
    /\ Bot.DIRECTIONS !! Z.to_nat (floor (Double.mul rd 4)) = Some d
    /\ st1 = Bot.set_rotation (Double.add (Bot.rotMap d) (Bot.jitter rj))
               (Bot.set_dirChangeCountdown (Bot.redrawCountdown rc)
                  (Bot.set_direction d st)).
Proof.
  unfold Bot.switchDirection. intros H.
  rand_inv H. apply randomItem_Some in Hm as (rd & -> & Hrd & _ & Hd).
  rand_inv H. apply random_Some in Hm as [-> Hrc].
  rand_inv H. apply random_Some in Hm as [-> Hrj].
  apply ret_Some in H. injection H as -> ->.
  exists rd, a0, a1, a. repeat split; assumption.
Qed.

Lemma switchDirection_cons st rd rc rj tape :
  in_unit rd = true -> in_unit rc = true -> in_unit rj = true ->
  exists d,
    Bot.DIRECTIONS !! Z.to_nat (floor (Double.mul rd 4)) = Some d
    /\ Bot.switchDirection st (rd :: rc :: rj :: tape)
       = Some (Bot.set_rotation (Double.add (Bot.rotMap d) (Bot.jitter rj))
                 (Bot.set_dirChangeCountdown (Bot.redrawCountdown rc)
                    (Bot.set_direction d st)), tape).
Proof.
  intros Hrd Hrc Hrj.
  destruct (randomItem_cons Bot.DIRECTIONS rd (rc :: rj :: tape)) as (d & Hd & Hl);
    [discriminate | simpl; lia | assumption |].
  exists d. split; [exact Hl|].
  unfold Bot.switchDirection, mbind, rand_bind. rewrite Hd.
  rewrite (random_cons _ _ Hrc), (random_cons _ _ Hrj). reflexivity.
Qed.

Lemma tickClient_Some st tape st' acts tape' :
  Bot.tickClient st tape = Some (st', acts, tape') ->
  ((Bot.conn st = None \/ Bot.registered st = false)
   /\ st' = st /\ acts = [] /\ tape' = tape)
  \/ (is_Some (Bot.conn st) /\ Bot.registered st = true
      /\ exists st1 tape1 r,
          afterDirection st st1 tape tape1
          /\ tape1 = r :: tape' /\ in_unit r = true
          /\ st' = Bot.set_sequence (num_incr (Bot.sequence st1)) st1
          /\ acts = [UpdatePlayerInput
                       (botInput (Bot.direction st1) (num_incr (Bot.sequence st1)) r)
                       (Vector3.mk 0 0 0)
                       (Vector3.mk 0 (Bot.rotation st1) 0)
                       (Bot.animationFromInput
                          (botInput (Bot.direction st1)
                                    (num_incr (Bot.sequence st1)) r))]).
Proof.
  unfold Bot.tickClient.
  destruct (Bot.conn st) as [c|] eqn:Hc; simpl.
  2:{ intros H. apply ret_Some in H. injection H as -> -> ->. left. auto. }
  destruct (Bot.registered st) eqn:Hreg; simpl.
  2:{ intros H. apply ret_Some in H. injection H as -> -> ->. left. auto. }
  intros H. right. split; [eauto|]. split; [reflexivity|].
  rand_inv H. rename a into st1. rename tape0 into tape1.
  rand_inv H. apply buildInput_Some in Hm0 as (r & -> & Hr & ->).
  apply ret_Some in H. injection H as -> -> ->.
  eexists st1, _, r. repeat split; try assumption; try reflexivity.
  unfold afterDirection.
  destruct (Bot.dirChangeCountdown st - 1 <=? 0) eqn:E.
  - right. apply Z.leb_le in E. auto.
  - left. apply Z.leb_gt in E. apply ret_Some in Hm.
    injection Hm as -> ->. auto.
Qed.

(** *** Runs of the bot are defined on tapes of valid draws *)

Lemma tickClient_total st tape :
  validTape tape -> (4 <= length tape)%nat ->
  exists st' acts k,
    (k <= 4)%nat /\ Bot.tickClient st tape = Some (st', acts, drop k tape).
Proof.
  intros Hv Hlen.
  destruct tape as [|r1 [|r2 [|r3 [|r4 tape]]]]; simpl in Hlen; try lia.
  apply Forall_cons in Hv as [H1 Hv]. apply Forall_cons in Hv as [H2 Hv].
  apply Forall_cons in Hv as [H3 Hv]. apply Forall_cons in Hv as [H4 Hv].
  unfold Bot.tickClient.
  destruct (negb (bool_decide (is_Some (Bot.conn st)))
            || negb (Bot.registered st)).
  { exists st, [], 0%nat. split; [lia | reflexivity]. }
  unfold mbind at 1, rand_bind at 1.
  destruct (Bot.dirChangeCountdown
              (Bot.set_dirChangeCountdown (Bot.dirChangeCountdown st - 1) st)
            <=? 0).
  - destruct (switchDirection_cons
                (Bot.set_dirChangeCountdown (Bot.dirChangeCountdown st - 1) st)
                r1 r2 r3 (r4 :: tape) H1 H2 H3) as (d & _ & ->).
    unfold mbind, rand_bind. rewrite (buildInput_cons _ _ _ _ H4).
    eexists _, _, 4%nat. split; [lia | reflexivity].
  - unfold mret at 1, rand_ret at 1. unfold mbind, rand_bind.
    rewrite (buildInput_cons _ _ _ _ H1).
    eexists _, _, 1%nat. split; [lia | reflexivity].
Qed.

Lemma bot_step_total e s tape :
  validTape tape -> (4 <= length tape)%nat ->
  exists s' acts k,
    (k <= 4)%nat /\ Bot.step e s tape = Some (s', acts, drop k tape).
Proof.
  intros Hv Hlen.
  assert (Hret : forall x : Bot.Session * list Action,
             exists s' acts k,
               (k <= 4)%nat
               /\ (mret x : Rand _) tape = Some (s', acts, drop k tape)).
  { intros [s' acts]. exists s', acts, 0%nat. split; [lia | reflexivity]. }
  destruct e; simpl; try apply Hret.
  - destruct (Bot.conn (Bot.state s)); apply Hret.
  - destruct (Bot.conn (Bot.state s)); apply Hret.
  - destruct (Bot.tickHandle (Bot.state s)); [|apply Hret].
    destruct (tickClient_total (Bot.state s) tape Hv Hlen)
      as (st' & acts & k & Hk & Ht).
    unfold mbind, rand_bind. rewrite Ht.
    eexists _, _, k. split; [exact Hk | reflexivity].
Qed.

Lemma bot_run_total es : forall s tape,
  validTape tape -> (4 * length es <= length tape)%nat ->
  exists s' acts tape', Bot.run es s tape = Some (s', acts, tape').
Proof.
  induction es as [|e es IH]; intros s tape Hv Hlen.
  - eexists _, _, _. reflexivity.
  - simpl in Hlen.
    destruct (bot_step_total e s tape Hv) as (s1 & acts1 & k & Hk & Hs); [lia|].
    destruct (IH s1 (drop k tape)) as (s2 & acts2 & tape2 & Hr).
    + apply Forall_drop. exact Hv.
    + rewrite length_drop. lia.
    + simpl. unfold mbind, rand_bind. rewrite Hs, Hr.
      eexists _, _, _. reflexivity.
Qed.

Lemma spawnClient_total clientId timeout r1 r2 r3 tape :
  in_unit r1 = true -> in_unit r2 = true -> in_unit r3 = true ->
  exists sess,
    Bot.spawnClient clientId timeout (r1 :: r2 :: r3 :: tape) = Some (sess, tape).
Proof.
  intros H1 H2 H3. unfold Bot.spawnClient.
  destruct (randomItem_cons Bot.CHARACTER_CLASSES r1 (r2 :: r3 :: tape))
    as (cls & Hc & _); [discriminate | simpl; lia | assumption |].
  destruct (randomItem_cons Bot.DIRECTIONS r2 (r3 :: tape))
    as (d & Hd & _); [discriminate | simpl; lia | assumption |].
  unfold mbind, rand_bind. rewrite Hc, Hd, (random_cons _ _ H3).
  eexists. reflexivity.
Qed.

(** *** Sequence numbers along a run *)

Lemma seqsWithin_nil n m : seqsWithin n m [].
Proof. split; constructor. Qed.

Lemma seqsWithin_single n m x : n < x <= m -> seqsWithin n m [x].
Proof. intros H. split; repeat constructor; lia. Qed.

Lemma seqsWithin_app n k m l1 l2 :
  n <= k <= m -> seqsWithin n k l1 -> seqsWithin k m l2 ->
  seqsWithin n m (l1 ++ l2).
Proof.
  intros Hk [Hs1 Hb1] [Hs2 Hb2]. split.
  - induction Hs1 as [|x l1 Hs1 IH Hx]; simpl; [exact Hs2|].
    apply Forall_cons in Hb1 as [Hxb Hb1].
    constructor; [apply IH; exact Hb1|].
    apply Forall_app. split; [exact Hx|].
    eapply Forall_impl; [exact Hb2|]. simpl. intros y Hy. lia.
  - apply Forall_app. split.
    + eapply Forall_impl; [exact Hb1|]. simpl. intros y Hy. lia.
    + eapply Forall_impl; [exact Hb2|]. simpl. intros y Hy. lia.
Qed.

Lemma seqsWithin_increasing n m l : seqsWithin n m l -> strictlyIncreasing l.
Proof.
  intros [Hs _]. induction Hs as [|x l Hs IH Hx]; intros i j a b Hi Hj Hij.
  - rewrite lookup_nil in Hi. discriminate.
  - destruct j as [|j]; [lia|]. simpl in Hj.
    destruct i as [|i]; simpl in Hi.
    + injection Hi as ->. rewrite Forall_forall in Hx. apply Hx.
      eapply list_elem_of_lookup_2. exact Hj.
    + eapply (IH i j); eauto. lia.
Qed.

Lemma transmitted_app (a1 a2 : list Action) :
  transmitted (a1 ++ a2) = transmitted a1 ++ transmitted a2.
Proof.
  induction a1 as [|a a1 IH]; [reflexivity|].
  destruct a; simpl; rewrite IH; reflexivity.
Qed.

Lemma transmittedSeqs_app (a1 a2 : list Action) :
  transmittedSeqs (a1 ++ a2) = transmittedSeqs a1 ++ transmittedSeqs a2.
Proof. unfold transmittedSeqs. rewrite transmitted_app. apply map_app. Qed.

Lemma num_incr_bounds n : n <= num_incr n <= n + 1.
Proof. unfold num_incr. destruct (n <? TWO_53); lia. Qed.

Lemma num_incr_range n : 0 <= n -> n + 1 <= TWO_53 -> num_incr n = n + 1.
Proof.
  intros H0 H1. unfold num_incr. destruct (Z.ltb_spec n TWO_53); lia.
Qed.

(** A step of the bot either transmits nothing and keeps the counter, or
    transmits exactly the incremented counter. *)
Lemma bot_step_transmits e s tape s' acts tape' :
  Bot.step e s tape = Some (s', acts, tape') ->
  (transmitted acts = []
   /\ Bot.sequence (Bot.state s') = Bot.sequence (Bot.state s))
  \/ (exists d r,
        transmitted acts
        = [botInput d (num_incr (Bot.sequence (Bot.state s))) r]
        /\ Bot.sequence (Bot.state s')
           = num_incr (Bot.sequence (Bot.state s))).
Proof.
  destruct e; simpl; intros H.
  - apply ret_Some in H. injection H as -> ->. left. auto.
  - destruct (Bot.conn (Bot.state s)); apply ret_Some in H;
      injection H as -> ->; left; auto.
  - destruct (Bot.conn (Bot.state s)); apply ret_Some in H;
      injection H as -> ->; left; auto.
  - destruct (Bot.tickHandle (Bot.state s)).
    2:{ apply ret_Some in H. injection H as -> ->. left. auto. }
    rand_inv H. destruct a as [st acts0]. apply ret_Some in H.
    injection H as -> -> ->.
    apply tickClient_Some in Hm
      as [(_ & -> & -> & _)
         | (_ & _ & st1 & tape1 & r & Hdir & _ & _ & -> & ->)].
    + left. auto.
    + right. exists (Bot.direction st1), r. simpl.
      assert (Hseq : Bot.sequence st1 = Bot.sequence (Bot.state s)).
      { destruct Hdir as [(_ & -> & _) | (_ & Hsw)]; [reflexivity|].
        apply switchDirection_Some in Hsw
          as (rd & rc & rj & d & _ & _ & _ & _ & _ & ->). reflexivity. }
      rewrite Hseq. auto.
  - apply ret_Some in H. unfold Bot.onDisconnect in H.
    destruct (Bot.tickHandle (Bot.state s)); injection H as -> ->; left; auto.
  - apply ret_Some in H. unfold Bot.stopBot in H.
    destruct (Bot.tickHandle (Bot.state s)); injection H as -> ->; left; auto.
Qed.

Lemma bot_run_seqs es : forall s tape s' acts tape',
  Bot.run es s tape = Some (s', acts, tape') ->
  0 <= Bot.sequence (Bot.state s) ->
  Bot.sequence (Bot.state s) + Z.of_nat (length es) <= TWO_53 ->
  Bot.sequence (Bot.state s) <= Bot.sequence (Bot.state s')
    <= Bot.sequence (Bot.state s) + Z.of_nat (length es)
  /\ seqsWithin (Bot.sequence (Bot.state s)) (Bot.sequence (Bot.state s'))
                (transmittedSeqs acts).
Proof.
  induction es as [|e es IH]; intros s tape s' acts tape' H H0 Hb.
  - apply ret_Some in H. injection H as -> -> ->. simpl.
    split; [lia | apply seqsWithin_nil].
  - simpl in H. rand_inv H. destruct a as [s1 acts1].
    rand_inv H. destruct a as [s2 acts2]. apply ret_Some in H.
    injection H as -> -> ->.
    rewrite length_cons, Nat2Z.inj_succ in Hb |- *.
    pose proof (bot_step_transmits _ _ _ _ _ _ Hm) as Hstep.
    assert (Hs1 : Bot.sequence (Bot.state s) <= Bot.sequence (Bot.state s1)
                  <= Bot.sequence (Bot.state s) + 1
                  /\ seqsWithin (Bot.sequence (Bot.state s))
                                (Bot.sequence (Bot.state s1))
                                (transmittedSeqs acts1)).
    { destruct Hstep as [[Ht Hq] | (d & r & Ht & Hq)];
        unfold transmittedSeqs; rewrite Ht, Hq; simpl.
      - split; [lia | apply seqsWithin_nil].
      - rewrite num_incr_range by lia.
        split; [lia | apply seqsWithin_single; lia]. }
    destruct Hs1 as [Hr1 Hw1].
    destruct (IH _ _ _ _ _ Hm0) as [Hr2 Hw2]; [lia | lia |].
    split; [lia|]. rewrite transmittedSeqs_app.
    eapply seqsWithin_app; [|exact Hw1|exact Hw2]. lia.
Qed.

(** *** The interactive client's gate and game loop *)

Lemma sequenceDiffers_changed cur last :
  App.sequenceDiffers cur last = true -> App.changed cur last = true.
Proof.
  destruct last as [l|]; simpl; [|reflexivity].
  unfold App.inputEqb. intros H. apply negb_true_iff in H.
  rewrite H, andb_false_r. reflexivity.
Qed.

Lemma changed_or_sequenceDiffers cur last :
  App.changed cur last || App.sequenceDiffers cur last = App.changed cur last.
Proof.
  destruct (App.changed cur last) eqn:Hc; [reflexivity|]. simpl.
  destruct (App.sequenceDiffers cur last) eqn:Hs; [|reflexivity].
  apply sequenceDiffers_changed in Hs. congruence.
Qed.

Lemma guard_live s :
  negb (bool_decide (is_Some (App.conn s)))
  || negb (bool_decide (is_Some (App.identityRef s)))
  || negb (App.connectedRef s)
  = negb (App.live s).
Proof.
  unfold App.live.
  destruct (bool_decide (is_Some (App.conn s))),
           (bool_decide (is_Some (App.identityRef s))),
           (App.connectedRef s); reflexivity.
Qed.

Lemma loop_guard_live s :
  negb (App.connectedRef s)
  || negb (bool_decide (is_Some (App.conn s)))
  || negb (bool_decide (is_Some (App.identityRef s)))
  = negb (App.live s).
Proof.
  unfold App.live.
  destruct (bool_decide (is_Some (App.conn s))),
           (bool_decide (is_Some (App.identityRef s))),
           (App.connectedRef s); reflexivity.
Qed.

Lemma sendInput_spec cur s :
  App.sendInput cur s
  = if App.live s && App.changed cur (App.lastSentInputState s)
    then (App.set_lastSentInputState (Some cur) s,
          [UpdatePlayerInput cur (currentPosition s) (currentRotation s)
                             (App.determineAnimation cur)])
    else (s, []).
Proof.
  unfold App.sendInput. rewrite guard_live, changed_or_sequenceDiffers.
  destruct (App.live s); simpl; reflexivity.
Qed.

Lemma setSequence_sequence n i : InputState.sequence (App.setSequence n i) = n.
Proof. destruct i; reflexivity. Qed.

Lemma setKey_sequence k b i :
  InputState.sequence (App.setKey k b i) = InputState.sequence i.
Proof. destruct i, k; reflexivity. Qed.

Lemma setProp_sequence a b i :
  InputState.sequence (App.setProp a b i) = InputState.sequence i.
Proof. destruct a as [k|name]; destruct i; [destruct k|]; reflexivity. Qed.

Lemma setAttack_sequence b i :
  InputState.sequence (App.setAttack b i) = InputState.sequence i.
Proof. destruct i; reflexivity. Qed.

Lemma gameLoop_transmits now h s s' acts :
  App.gameLoop now h s = (s', acts) ->
  (transmitted acts = [] /\ appSequence s' = appSequence s)
  \/ (transmitted acts = [] /\ appSequence s' = num_incr (appSequence s))
  \/ (transmittedSeqs acts = [num_incr (appSequence s)]
      /\ appSequence s' = num_incr (appSequence s)).
Proof.
  unfold App.gameLoop. rewrite loop_guard_live.
  destruct (App.live s) eqn:Hlive; simpl.
  - destruct (Qle_bool App.INPUT_SEND_INTERVAL (now - App.lastSendTime s)).
    + rewrite sendInput_spec.
      match goal with |- context [if ?c then _ else _] => destruct c end;
        intros [= <- <-]; unfold appSequence, transmittedSeqs; simpl;
        rewrite setSequence_sequence; auto.
    + intros [= <- <-]. left. auto.
  - destruct (App.animationFrameIdRef s); intros [= <- <-]; left; auto.
Qed.

Lemma set_local_eta s :
  App.set_localPlayerRef (App.localPlayerRef s)
    (App.set_localPlayer (App.localPlayer s) s) = s.
Proof. destruct s; reflexivity. Qed.

Lemma set_local_set_local o1 o1' o2 o2' s :
  App.set_localPlayerRef o2' (App.set_localPlayer o2
    (App.set_localPlayerRef o1' (App.set_localPlayer o1 s)))
  = App.set_localPlayerRef o2' (App.set_localPlayer o2 s).
Proof. destruct s; reflexivity. Qed.

(** The backfill loop touches nothing but the local-player alias. *)
Lemma backfill_fold_frame rows : forall m s,
  exists o o',
    snd (fold_left App.backfillRow rows (m, s))
    = App.set_localPlayerRef o' (App.set_localPlayer o s).
Proof.
  induction rows as [|p rows IH]; intros m s; simpl.
  - exists (App.localPlayer s), (App.localPlayerRef s).
    symmetry. apply set_local_eta.
  - destruct (App.isLocal p s).
    + destruct (IH (<[PlayerData.identity p := p]> m)
                   (App.set_localPlayerRef (Some p)
                      (App.set_localPlayer (Some p) s))) as (o & o' & ->).
      exists o, o'. apply set_local_set_local.
    + apply IH.
Qed.

Lemma onSubscriptionApplied_frame rows s :
  exists m o o',
    App.onSubscriptionApplied rows s
    = App.set_players m (App.set_localPlayerRef o' (App.set_localPlayer o s)).
Proof.
  unfold App.onSubscriptionApplied.
  destruct ((size (App.players s) =? 0)%nat && bool_decide (is_Some (App.conn s))).
  - destruct (backfill_fold_frame rows ∅ s) as (o & o' & Hs).
    destruct (fold_left App.backfillRow rows (∅, s)) as [m s1]. simpl in Hs.
    subst s1. eauto.
  - exists (App.players s), (App.localPlayer s), (App.localPlayerRef s).
    destruct s; reflexivity.
Qed.

Lemma app_step_transmits e s s' acts :
  App.step e s = (s', acts) ->
  (transmitted acts = [] /\ appSequence s' = appSequence s)
  \/ (transmitted acts = [] /\ appSequence s' = num_incr (appSequence s))
  \/ (transmittedSeqs acts = [num_incr (appSequence s)]
      /\ appSequence s' = num_incr (appSequence s)).
Proof.
  destruct e; simpl.
  - unfold App.onConnect, App.registerTableCallbacks, App.subscribeToTables.
    intros [= <- <-]. left. destruct s; auto.
  - intros [= <- <-]. left. destruct s; auto.
  - unfold App.commit, App.gameLoopCleanup, App.gameLoopEffect.
    intros H. left.
    destruct s as [? cn ? ? ? ? ? ? ? ? ? ? fr ? ? ec]; simpl in H.
    destruct cn, ec, fr; simpl in H; injection H as <- <-; auto.
  - destruct (App.animationFrameIdRef s); [apply gameLoop_transmits|].
    intros [= <- <-]. left. auto.
  - intros [= <- <-]. left. split; [reflexivity|].
    destruct (onSubscriptionApplied_frame rows s) as (m & o & o' & ->).
    destruct s; reflexivity.
  - intros [= <- <-]. left. split; [reflexivity|].
    unfold App.onInsert. case_match; destruct s; reflexivity.
  - intros [= <- <-]. left. split; [reflexivity|].
    unfold App.onUpdate. case_match; destruct s; reflexivity.
  - intros [= <- <-]. left. split; [reflexivity|].
    unfold App.onDelete. case_match; destruct s; reflexivity.
  - intros [= <- <-]. left. split; [reflexivity|].
    unfold App.handleKeyDown. repeat case_match; try reflexivity.
    unfold appSequence. destruct s; simpl. apply setProp_sequence.
  - intros [= <- <-]. left. split; [reflexivity|].
    unfold App.handleKeyUp. repeat case_match; try reflexivity.
    unfold appSequence. destruct s; simpl. apply setProp_sequence.
  - intros [= <- <-]. left. split; [reflexivity|].
    unfold App.handleMouseDown. repeat case_match; try reflexivity.
    unfold appSequence. destruct s; simpl. apply setAttack_sequence.
  - intros [= <- <-]. left. split; [reflexivity|].
    unfold App.handleMouseUp. repeat case_match; try reflexivity.
    unfold appSequence. destruct s; simpl. apply setAttack_sequence.
  - intros [= <- <-]. left. destruct s; auto.
  - unfold App.handleJoinGame. destruct (App.conn s); intros [= <- <-];
      left; destruct s; auto.
Qed.

Lemma app_run_seqs es : forall s s' acts,
  App.run es s = (s', acts) ->
  0 <= appSequence s ->
  appSequence s + Z.of_nat (length es) <= TWO_53 ->
  appSequence s <= appSequence s' <= appSequence s + Z.of_nat (length es)
  /\ seqsWithin (appSequence s) (appSequence s') (transmittedSeqs acts).
Proof.
  induction es as [|e es IH]; intros s s' acts H H0 Hb.
  - injection H as <- <-. simpl. split; [lia | apply seqsWithin_nil].
  - simpl in H.
    destruct (App.step e s) as [s1 acts1] eqn:Hstep.
    destruct (App.run es s1) as [s2 acts2] eqn:Hrun.
    injection H as <- <-.
    rewrite length_cons, Nat2Z.inj_succ in Hb |- *.
    assert (Hs1 : appSequence s <= appSequence s1 <= appSequence s + 1
                  /\ seqsWithin (appSequence s) (appSequence s1)
                                (transmittedSeqs acts1)).
    { destruct (app_step_transmits _ _ _ _ Hstep)
        as [[Ht Hq] | [[Ht Hq] | [Ht Hq]]];
        unfold transmittedSeqs in *; rewrite Ht, Hq; simpl.
      - split; [lia | apply seqsWithin_nil].
      - rewrite num_incr_range by lia. split; [lia | apply seqsWithin_nil].
      - rewrite num_incr_range by lia.
        split; [lia | apply seqsWithin_single; lia]. }
    destruct Hs1 as [Hr1 Hw1].
    destruct (IH _ _ _ Hrun) as [Hr2 Hw2]; [lia | lia |].
    split; [lia|]. rewrite transmittedSeqs_app.
    eapply seqsWithin_app; [|exact Hw1|exact Hw2]. lia.
Qed.

(** *** C1: sequence numbers increase *)

Lemma spawnClient_Some clientId timeout tape sess tape' :
  Bot.spawnClient clientId timeout tape = Some (sess, tape') ->
  exists rk rd rc cls d,
    tape = rk :: rd :: rc :: tape'
    /\ in_unit rk = true /\ in_unit rd = true /\ in_unit rc = true
    /\ Bot.DIRECTIONS !! Z.to_nat (floor (Double.mul rd 4)) = Some d
    /\ sess = Bot.mkSession
                (Bot.mkClientState clientId None false 0 None d
                                   (Bot.initialCountdown rc) 0)
                (lit "Bot_" ++ toString clientId) cls timeout.
Proof.
  unfold Bot.spawnClient. intros H.
  rand_inv H. apply randomItem_Some in Hm as (rk & -> & Hrk & _ & _).
  rand_inv H. apply randomItem_Some in Hm as (rd & -> & Hrd & _ & Hd).
  rand_inv H. apply random_Some in Hm as [-> Hrc].
  apply ret_Some in H. injection H as -> ->.
  exists rk, rd, a1, a, a0. repeat split; assumption.
Qed.

(** C1. In every bot session and in every run of the interactive client,
    of any two inputs handed to [updatePlayerInput] the later one carries
    the strictly greater sequence number, as long as the session is short
    enough for the counter to stay within the integers a double counts
    exactly (at most 2^53 events).  A bot session is defined on every tape
    of doubles in [0,1) that is long enough (three draws to spawn, at most
    four per event). *)
Theorem sequence_numbers_strictly_increase :
  (forall clientId timeout tape0 sess tape1 es sess' acts tape2,
      Bot.spawnClient clientId timeout tape0 = Some (sess, tape1) ->
      Bot.run es sess tape1 = Some (sess', acts, tape2) ->
      Z.of_nat (length es) <= TWO_53 ->
      strictlyIncreasing (transmittedSeqs acts))
  /\ (forall clientId timeout r1 r2 r3 tape es,
        in_unit r1 = true -> in_unit r2 = true -> in_unit r3 = true ->
        validTape tape -> (4 * length es <= length tape)%nat ->
        exists sess sess' acts tape',
          Bot.spawnClient clientId timeout (r1 :: r2 :: r3 :: tape)
          = Some (sess, tape)
          /\ Bot.run es sess tape = Some (sess', acts, tape'))
  /\ (forall es,
        Z.of_nat (length es) <= TWO_53 ->
        strictlyIncreasing (transmittedSeqs (snd (App.run es App.init)))).
Proof.
  split; [|split].
  - intros clientId timeout tape0 sess tape1 es sess' acts tape2 Hsp Hrun Hlen.
    apply spawnClient_Some in Hsp
      as (rk & rd & rc & cls & d & _ & _ & _ & _ & _ & ->).
    destruct (bot_run_seqs _ _ _ _ _ _ Hrun) as [_ Hw]; simpl; [lia | lia |].
    eapply seqsWithin_increasing. exact Hw.
  - intros clientId timeout r1 r2 r3 tape es H1 H2 H3 Hv Hlen.
    destruct (spawnClient_total clientId timeout r1 r2 r3 tape H1 H2 H3)
      as (sess & Hsp).
    destruct (bot_run_total es sess tape Hv Hlen) as (sess' & acts & tape' & Hr).
    exists sess, sess', acts, tape'. split; assumption.
  - intros es Hlen.
    destruct (App.run es App.init) as [s' acts] eqn:Hrun.
    destruct (app_run_seqs _ _ _ _ Hrun) as [_ Hw];
      [unfold appSequence; simpl; lia | unfold appSequence; simpl; lia |].
    eapply seqsWithin_increasing. exact Hw.
Qed.

Lemma sequence_numbers_strictly_increase_witness :
  transmittedSeqs demoBotActions = [1; 2]
  /\ strictlyIncreasing (transmittedSeqs demoBotActions)
  /\ transmittedSeqs demoAppActions = [1; 2]
  /\ strictlyIncreasing (transmittedSeqs (snd (App.run demoAppEvents App.init))).
Proof.
  split; [reflexivity|]. split.
  - eapply (proj1 sequence_numbers_strictly_increase 1 9%positive demoBotTape
                  _ _ demoBotEvents _ demoBotActions _).
    + vm_compute. reflexivity.
    + vm_compute. reflexivity.
    + vm_compute. discriminate.
  - split; [reflexivity|].
    apply (proj2 (proj2 sequence_numbers_strictly_increase) demoAppEvents).
    vm_compute. discriminate.
Defined.

(** *** C2: the send gate *)

(** The last-sent snapshot never runs ahead of the live input. *)
Lemma app_step_lastSentBehind e s :
  lastSentBehind s -> lastSentBehind (fst (App.step e s)).
Proof.
  unfold lastSentBehind, appSequence. intros Hinv. destruct e; simpl;
    try (destruct s; exact Hinv).
  - unfold App.commit, App.gameLoopCleanup, App.gameLoopEffect.
    destruct s as [? cn ? ? ? ? ? ? ? ? ? ? fr ? ? ec]; simpl in *.
    destruct cn, ec, fr; simpl; exact Hinv.
  - destruct (App.animationFrameIdRef s) eqn:Hf; simpl; [|exact Hinv].
    unfold App.gameLoop. rewrite loop_guard_live.
    destruct (App.live s); simpl.
    + destruct (Qle_bool App.INPUT_SEND_INTERVAL (now - App.lastSendTime s)).
      * rewrite sendInput_spec.
        match goal with |- context [if ?c then _ else _] => destruct c end.
        -- destruct s; simpl. intros l [= <-]. lia.
        -- pose proof (num_incr_bounds (InputState.sequence (App.currentInputRef s))).
           destruct s; simpl in *. rewrite setSequence_sequence.
           intros l Hl. specialize (Hinv l Hl). lia.
      * destruct s; exact Hinv.
    + rewrite Hf. destruct s; exact Hinv.
  - destruct (onSubscriptionApplied_frame rows s) as (m & o & o' & ->).
    destruct s; exact Hinv.
  - unfold App.onInsert. case_match; destruct s; exact Hinv.
  - unfold App.onUpdate. case_match; destruct s; exact Hinv.
  - unfold App.onDelete. case_match; destruct s; exact Hinv.
  - unfold App.handleKeyDown. repeat case_match; try exact Hinv.
    destruct s; simpl in *. rewrite setProp_sequence. exact Hinv.
  - unfold App.handleKeyUp. repeat case_match; try exact Hinv.
    destruct s; simpl in *. rewrite setProp_sequence. exact Hinv.
  - unfold App.handleMouseDown. repeat case_match; try exact Hinv.
    destruct s; simpl in *. rewrite setAttack_sequence. exact Hinv.
  - unfold App.handleMouseUp. repeat case_match; try exact Hinv.
    destruct s; simpl in *. rewrite setAttack_sequence. exact Hinv.
  - unfold App.handleJoinGame. destruct (App.conn s) eqn:Hc; simpl;
      [destruct s; exact Hinv | exact Hinv].
Qed.

Lemma app_run_lastSentBehind es : forall s,
  lastSentBehind s -> lastSentBehind (fst (App.run es s)).
Proof.
  induction es as [|e es IH]; intros s Hinv; [exact Hinv|]. simpl.
  pose proof (app_step_lastSentBehind e s Hinv) as H1.
  destruct (App.step e s) as [s1 acts1]. simpl in H1.
  pose proof (IH s1 H1) as H2.
  destruct (App.run es s1) as [s2 acts2]. exact H2.
Qed.

(** In a run of the interactive client every due frame of a live session
    transmits: the sequence number has just been incremented, so the gate
    always finds a difference. *)
Lemma gameLoop_sends_on_every_due_frame es now h :
  let s := fst (App.run es App.init) in
  Z.of_nat (length es) < TWO_53 ->
  App.live s = true ->
  Qle_bool App.INPUT_SEND_INTERVAL (now - App.lastSendTime s) = true ->
  transmittedSeqs (snd (App.gameLoop now h s)) = [appSequence s + 1].
Proof.
  intros s Hlen Hlive Hdue.
  assert (Hb : lastSentBehind s).
  { apply app_run_lastSentBehind. intros l Hl. discriminate. }
  assert (Hseq : 0 <= appSequence s <= Z.of_nat (length es)).
  { subst s. destruct (App.run es App.init) as [s1 acts1] eqn:Hrun.
    destruct (app_run_seqs _ _ _ _ Hrun) as [Hr _];
      unfold appSequence in *; simpl in *; lia. }
  clearbody s. unfold App.gameLoop. rewrite loop_guard_live, Hlive, Hdue.
  cbn [negb]. rewrite sendInput_spec.
  set (s1 := App.set_currentInputRef _ s).
  assert (Hs1 : appSequence s1 = appSequence s + 1).
  { subst s1. unfold appSequence. destruct s; simpl.
    rewrite setSequence_sequence. unfold appSequence in Hseq. simpl in Hseq.
    apply num_incr_range; lia. }
  assert (Hlv : App.live s1 = true) by (subst s1; destruct s; exact Hlive).
  assert (Hch : App.changed (App.currentInputRef s1)
                            (App.lastSentInputState s1) = true).
  { apply sequenceDiffers_changed. unfold App.sequenceDiffers.
    destruct (App.lastSentInputState s1) as [l|] eqn:Hl; [|reflexivity].
    assert (Hl' : App.lastSentInputState s = Some l)
      by (subst s1; destruct s; exact Hl).
    apply Hb in Hl'. apply negb_true_iff, Z.eqb_neq.
    fold (appSequence s1). lia. }
  rewrite Hlv, Hch. cbn [andb fst snd]. unfold transmittedSeqs.
  rewrite transmitted_app. cbn [transmitted map app]. fold (appSequence s1).
  rewrite Hs1. reflexivity.
Qed.

Lemma inputEqb_refl a : App.inputEqb a a = true.
Proof.
  destruct a. unfold App.inputEqb. simpl.
  rewrite !eqb_reflx, Z.eqb_refl. reflexivity.
Qed.

Lemma extraIn_refl a : App.extraIn a a = true.
Proof.
  unfold App.extraIn. apply bool_decide_eq_true_2.
  intros k v Hk. exact Hk.
Qed.

Lemma changed_same cur : App.changed cur (Some cur) = false.
Proof.
  unfold App.changed. rewrite inputEqb_refl, extraIn_refl. reflexivity.
Qed.

(** [sendInputCall] is the call [gameLoop] makes. *)
Lemma gameLoop_calls now h s :
  App.gameLoop now h s
  = match sendInputCall now s with
    | Some (cur, s1) =>
        let '(s2, acts) := App.sendInput cur s1 in
        (App.set_animationFrameIdRef (Some h) (App.set_lastSendTime now s2),
         (acts ++ [RequestAnimationFrame h])%list)
    | None =>
        if App.live s
        then (App.set_animationFrameIdRef (Some h) s, [RequestAnimationFrame h])
        else match App.animationFrameIdRef s with
             | Some h0 =>
                 (App.set_animationFrameIdRef None s, [CancelAnimationFrame h0])
             | None => (s, [])
             end
    end.
Proof.
  unfold App.gameLoop, sendInputCall. rewrite loop_guard_live.
  destruct (App.live s); cbn [negb]; [|reflexivity].
  destruct (Qle_bool App.INPUT_SEND_INTERVAL (now - App.lastSendTime s));
    [|reflexivity].
  cbv zeta. destruct (App.sendInput _ _); reflexivity.
Qed.



(** *** C3: registration before subscription *)

(** C3. Both [onConnect] handlers, of the interactive client and of a bot
    session, register their table-change callbacks and only then issue the
    subscription: in the actions of either handler every callback
    registration comes strictly before the one [subscribe] call. *)
Theorem callbacks_registered_before_subscription :
  (forall connection id s,
      snd (App.onConnect connection id s)
      = [RegisterCallback OnInsert; RegisterCallback OnUpdate;
         RegisterCallback OnDelete; Subscribe "SELECT * FROM player";
         AddInputListeners; AddDelegatedListeners]
      /\ registrationsPrecedeSubscription (snd (App.onConnect connection id s)))
  /\ (forall connection s,
        snd (Bot.onConnect connection s)
        = [RegisterCallback OnInsert; Subscribe "SELECT * FROM player"]
        /\ registrationsPrecedeSubscription (snd (Bot.onConnect connection s))).
Proof.
  split.
  - intros connection id s.
    assert (Hacts : snd (App.onConnect connection id s)
                    = [RegisterCallback OnInsert; RegisterCallback OnUpdate;
                       RegisterCallback OnDelete;
                       Subscribe "SELECT * FROM player";
                       AddInputListeners; AddDelegatedListeners])
      by (destruct s; reflexivity).
    split; [exact Hacts|]. rewrite Hacts. intros i j cb q Hi Hj.
    destruct i as [|[|[|[|[|[|i]]]]]]; simpl in Hi; try discriminate;
      destruct j as [|[|[|[|[|[|j]]]]]]; simpl in Hj; try discriminate; lia.
  - intros connection s. split; [reflexivity|]. simpl. intros i j cb q Hi Hj.
    destruct i as [|[|i]]; simpl in Hi; try discriminate;
      destruct j as [|[|j]]; simpl in Hj; try discriminate; lia.
Qed.

(** *** C7: the animation label *)

(** C7, as stated, fails for the interactive client: with forward, backward
    and left set the order forward > backward > left > right names forward,
    and [determineAnimation] names left. *)
Lemma animation_label_counterexample :
  Stated.priorityLabel labelInput = "walk-forward"
  /\ App.determineAnimation labelInput = "walk-left".
Proof. split; reflexivity. Qed.

(** C7, amended.  Every label names at most one of the four directions.
    The bot's [animationFromInput] names the first flag set in the order
    forward > backward > left > right.  The interactive client's
    [determineAnimation] gives attack, cast and jump precedence over
    movement; for movement, opposite flags cancel: it names forward or back
    when exactly one of forward and backward is set, otherwise left or right
    when exactly one of left and right is set, otherwise left when all four
    flags are set and forward when only one opposed pair is set.  So forward
    with left or right names forward, and backward with left or right names
    back: no composite direction is produced. *)
Theorem animation_label_direction :
  (forall i,
      Bot.animationFromInput i
      = movementLabel (InputState.sprint i) (priorityDirection i))
  /\ (forall i,
        App.determineAnimation i
        = if InputState.attack i then "attack1"
          else if InputState.castSpell i then "cast"
          else if InputState.jump i then "jump"
          else movementLabel (InputState.sprint i) (axisDirection i)).
Proof.
  split; intros [f b l r sp j a c n].
  - destruct f, b, l, r, sp; reflexivity.
  - destruct a, c, j; try reflexivity; destruct f, b, l, r, sp; reflexivity.
Qed.

(** *** C10: the inputs a bot builds *)

Lemma botInput_oneDirection dir seq r : oneDirectionNoAction (botInput dir seq r).
Proof. destruct dir; repeat split; reflexivity. Qed.

Lemma bot_run_inputs es : forall s tape s' acts tape',
  Bot.run es s tape = Some (s', acts, tape') ->
  Forall oneDirectionNoAction (transmitted acts).
Proof.
  induction es as [|e es IH]; intros s tape s' acts tape' H.
  - apply ret_Some in H. injection H as -> -> ->. constructor.
  - simpl in H. rand_inv H. destruct a as [s1 acts1].
    rand_inv H. destruct a as [s2 acts2]. apply ret_Some in H.
    injection H as -> -> ->. rewrite transmitted_app. apply Forall_app. split.
    + destruct (bot_step_transmits _ _ _ _ _ _ Hm)
        as [[-> _] | (d & r & -> & _)].
      * constructor.
      * repeat constructor; destruct d; reflexivity.
    + eapply IH. exact Hm0.
Qed.

(** C10. [buildInput], given a direction, a sequence number and a random
    draw, returns an input with exactly one of the four movement flags set
    and with jump, attack and castSpell false; and so does every input a bot
    session transmits. *)
Theorem bot_input_one_direction :
  (forall dir seq r tape,
      in_unit r = true ->
      exists input,
        Bot.buildInput dir seq (r :: tape) = Some (input, tape)
        /\ oneDirectionNoAction input
        /\ InputState.sequence input = seq)
  /\ (forall es sess tape sess' acts tape',
        Bot.run es sess tape = Some (sess', acts, tape') ->
        Forall oneDirectionNoAction (transmitted acts)).
Proof.
  split.
  - intros dir seq r tape Hr. exists (botInput dir seq r).
    split; [apply buildInput_cons; exact Hr|].
    split; [apply botInput_oneDirection | reflexivity].
  - intros es sess tape sess' acts tape' H. eapply bot_run_inputs. exact H.
Qed.

Lemma bot_input_one_direction_witness :
  (exists input,
      Bot.buildInput Bot.Left 7 [1 # 4]%Q = Some (input, [])
      /\ oneDirectionNoAction input
      /\ InputState.sequence input = 7)
  /\ Forall oneDirectionNoAction (transmitted demoBotActions).
Proof.
  split.
  - apply (proj1 bot_input_one_direction Bot.Left 7 (1 # 4)%Q []). reflexivity.
  - eapply (proj2 bot_input_one_direction demoBotEvents demoBotStart
                  [1 # 2; 1 # 2]%Q _ demoBotActions _).
    vm_compute. reflexivity.
Defined.

(** *** C4: the backfill merge *)

Lemma backfill_fold_map rows : forall m s,
  fst (fold_left App.backfillRow rows (m, s)) = mergeRows rows m.
Proof.
  induction rows as [|p rows IH]; intros m s; simpl; [reflexivity|].
  destruct (App.isLocal p s); apply IH.
Qed.

Lemma mergeRows_nonempty rows : forall m,
  m <> ∅ \/ rows <> [] -> mergeRows rows m <> ∅.
Proof.
  induction rows as [|p rows IH]; intros m [Hm|Hr]; simpl;
    try assumption; try congruence.
  - apply IH. left. apply insert_non_empty.
  - apply IH. left. apply insert_non_empty.
Qed.

Lemma set_players_conn m s : App.conn (App.set_players m s) = App.conn s.
Proof. destruct s; reflexivity. Qed.

Lemma set_players_players m s : App.players (App.set_players m s) = m.
Proof. destruct s; reflexivity. Qed.

Lemma set_players_twice m1 m2 s :
  App.set_players m2 (App.set_players m1 s) = App.set_players m2 s.
Proof. destruct s; reflexivity. Qed.

Lemma onSubscriptionApplied_nonempty rows s :
  App.players s <> ∅ -> App.onSubscriptionApplied rows s = s.
Proof.
  intros Hne. unfold App.onSubscriptionApplied.
  destruct (Nat.eqb_spec (size (App.players s)) 0) as [Hz|Hnz]; [|reflexivity].
  apply map_size_empty_iff in Hz. contradiction.
Qed.

Lemma onSubscriptionApplied_players rows s :
  App.players s = ∅ -> is_Some (App.conn s) ->
  App.players (App.onSubscriptionApplied rows s) = mergeRows rows ∅.
Proof.
  intros He Hc. unfold App.onSubscriptionApplied.
  rewrite He, map_size_empty, (bool_decide_eq_true_2 _ Hc). simpl.
  pose proof (backfill_fold_map rows ∅ s) as Hm.
  destruct (fold_left App.backfillRow rows (∅, s)) as [m s1]. simpl in Hm.
  rewrite set_players_players. exact Hm.
Qed.

Lemma onSubscriptionApplied_idempotent rows s :
  App.onSubscriptionApplied rows (App.onSubscriptionApplied rows s)
  = App.onSubscriptionApplied rows s.
Proof.
  destruct ((size (App.players s) =? 0)%nat
            && bool_decide (is_Some (App.conn s))) eqn:Hg.
  2:{ assert (H : App.onSubscriptionApplied rows s = s)
        by (unfold App.onSubscriptionApplied; rewrite Hg; reflexivity).
      rewrite H. exact H. }
  apply andb_true_iff in Hg as [Hsz Hcn].
  apply Nat.eqb_eq, map_size_empty_iff in Hsz.
  apply bool_decide_eq_true_1 in Hcn.
  destruct rows as [|p rows].
  - assert (H : App.onSubscriptionApplied [] s = App.set_players ∅ s).
    { unfold App.onSubscriptionApplied.
      rewrite Hsz, map_size_empty, (bool_decide_eq_true_2 _ Hcn).
      reflexivity. }
    rewrite H. unfold App.onSubscriptionApplied.
    rewrite set_players_players, set_players_conn, map_size_empty,
      (bool_decide_eq_true_2 _ Hcn).
    simpl. apply set_players_twice.
  - apply onSubscriptionApplied_nonempty.
    rewrite (onSubscriptionApplied_players _ _ Hsz Hcn).
    apply mergeRows_nonempty. right. discriminate.
Qed.

Lemma onInsert_nonempty p s : App.players (App.onInsert p s) <> ∅.
Proof.
  unfold App.onInsert.
  assert (H : App.players (App.onInsert p s)
              = <[PlayerData.identity p := p]> (App.players s)).
  { unfold App.onInsert. case_match; destruct s; reflexivity. }
  unfold App.onInsert in H. rewrite H. apply insert_non_empty.
Qed.

(** C4. The backfill merge of [onSubscriptionApplied] is idempotent: run a
    second time on the same rows it returns the store the first run
    returned.  On a live session with an empty map it fills the map with
    the rows, keyed by identity; on a store whose map is not empty, in
    particular one that has already received an insert notification, it
    changes nothing, so no row is duplicated or overwritten. *)
Theorem backfill_merge_idempotent :
  (forall rows s,
      App.onSubscriptionApplied rows (App.onSubscriptionApplied rows s)
      = App.onSubscriptionApplied rows s)
  /\ (forall rows s,
        App.players s = ∅ -> is_Some (App.conn s) ->
        App.players (App.onSubscriptionApplied rows s) = mergeRows rows ∅)
  /\ (forall rows s,
        App.players s <> ∅ -> App.onSubscriptionApplied rows s = s)
  /\ (forall rows p s,
        App.onSubscriptionApplied rows (App.onInsert p s) = App.onInsert p s).
Proof.
  split; [exact onSubscriptionApplied_idempotent|].
  split; [exact onSubscriptionApplied_players|].
  split; [exact onSubscriptionApplied_nonempty|].
  intros rows p s. apply onSubscriptionApplied_nonempty, onInsert_nonempty.
Qed.

Lemma backfill_merge_idempotent_witness :
  (App.players connectedState = ∅
   /\ is_Some (App.conn connectedState)
   /\ App.players (App.onSubscriptionApplied [rowAda; rowBob] connectedState)
      = mergeRows [rowAda; rowBob] ∅)
  /\ (App.players (App.onInsert rowBob connectedState) <> ∅
      /\ App.onSubscriptionApplied [rowAda] (App.onInsert rowBob connectedState)
         = App.onInsert rowBob connectedState).
Proof.
  split.
  - split; [reflexivity|]. split; [eexists; reflexivity|].
    apply (proj1 (proj2 backfill_merge_idempotent)).
    + reflexivity.
    + eexists. reflexivity.
  - split; [vm_compute; discriminate|].
    apply (proj1 (proj2 (proj2 backfill_merge_idempotent))).
    vm_compute. discriminate.
Defined.

(** *** C5: disconnection *)

Lemma gameLoop_not_live now h s :
  App.live s = false ->
  App.gameLoop now h s
  = (App.set_animationFrameIdRef None s,
     match App.animationFrameIdRef s with
     | Some h0 => [CancelAnimationFrame h0]
     | None => []
     end).
Proof.
  intros Hl. unfold App.gameLoop. rewrite loop_guard_live, Hl. simpl.
  destruct (App.animationFrameIdRef s) eqn:Hf; [reflexivity|].
  f_equal. destruct s; simpl in *. subst. reflexivity.
Qed.

Lemma tickClient_guard st tape :
  Bot.conn st = None \/ Bot.registered st = false ->
  Bot.tickClient st tape = Some (st, [], tape).
Proof.
  intros H. unfold Bot.tickClient.
  destruct (Bot.conn st) as [c|], (Bot.registered st), H;
    try discriminate; reflexivity.
Qed.

Lemma app_step_frameArmed e s :
  frameArmedByEffect s -> frameArmedByEffect (fst (App.step e s)).
Proof.
  unfold frameArmedByEffect. intros Hinv. destruct e; simpl;
    try (destruct s; exact Hinv).
  - unfold App.commit, App.gameLoopCleanup, App.gameLoopEffect.
    destruct s as [? cn ? ? ? ? ? ? ? ? ? ? fr ? ? ec]; simpl in *.
    destruct cn, ec, fr; simpl; intros [x Hx]; try discriminate; eauto.
  - destruct (App.animationFrameIdRef s) eqn:Hf; simpl; [|rewrite Hf; exact Hinv].
    unfold App.gameLoop. rewrite loop_guard_live.
    destruct (App.live s); simpl.
    + intros _.
      assert (He : App.effectConnected s = true) by (apply Hinv; eauto).
      destruct (Qle_bool App.INPUT_SEND_INTERVAL (now - App.lastSendTime s)).
      * rewrite sendInput_spec.
        match goal with |- context [if ?c then _ else _] => destruct c end;
          destruct s; exact He.
      * destruct s; exact He.
    + rewrite Hf. simpl. intros [x Hx]. destruct s; discriminate.
  - destruct (onSubscriptionApplied_frame rows s) as (m & o & o' & ->).
    destruct s; exact Hinv.
  - unfold App.onInsert. case_match; destruct s; exact Hinv.
  - unfold App.onUpdate. case_match; destruct s; exact Hinv.
  - unfold App.onDelete. case_match; destruct s; exact Hinv.
  - unfold App.handleKeyDown. repeat case_match; try exact Hinv;
      destruct s; exact Hinv.
  - unfold App.handleKeyUp. repeat case_match; try exact Hinv;
      destruct s; exact Hinv.
  - unfold App.handleMouseDown. repeat case_match; try exact Hinv;
      destruct s; exact Hinv.
  - unfold App.handleMouseUp. repeat case_match; try exact Hinv;
      destruct s; exact Hinv.
  - unfold App.handleJoinGame. destruct (App.conn s) eqn:Hc; simpl;
      [destruct s; exact Hinv | exact Hinv].
Qed.

Lemma app_run_frameArmed es : forall s,
  frameArmedByEffect s -> frameArmedByEffect (fst (App.run es s)).
Proof.
  induction es as [|e es IH]; intros s Hinv; [exact Hinv|]. simpl.
  pose proof (app_step_frameArmed e s Hinv) as H1.
  destruct (App.step e s) as [s1 acts1]. simpl in H1.
  pose proof (IH s1 H1) as H2.
  destruct (App.run es s1) as [s2 acts2]. exact H2.
Qed.

(** Without a connection nothing is transmitted, and only [onConnect]
    brings a connection. *)
Lemma app_step_dead e s :
  App.conn s = None -> isConnect e = false ->
  App.conn (fst (App.step e s)) = None /\ transmitted (snd (App.step e s)) = [].
Proof.
  intros Hc He.
  assert (Hl : App.live s = false) by (unfold App.live; rewrite Hc; reflexivity).
  destruct e; try discriminate; simpl.
  - destruct s; auto.
  - unfold App.commit, App.gameLoopCleanup, App.gameLoopEffect.
    destruct s as [? cn ? ? ? ? ? ? ? ? ? ? fr ? ? ec]; simpl in *.
    destruct cn, ec, fr; simpl; auto.
  - destruct (App.animationFrameIdRef s) eqn:Hf; simpl; [|auto].
    rewrite (gameLoop_not_live _ _ _ Hl), Hf. destruct s; auto.
  - destruct (onSubscriptionApplied_frame rows s) as (m & o & o' & ->).
    destruct s; auto.
  - unfold App.onInsert. case_match; destruct s; auto.
  - unfold App.onUpdate. case_match; destruct s; auto.
  - unfold App.onDelete. case_match; destruct s; auto.
  - unfold App.handleKeyDown. repeat case_match; auto; destruct s; auto.
  - unfold App.handleKeyUp. repeat case_match; auto; destruct s; auto.
  - unfold App.handleMouseDown. repeat case_match; auto; destruct s; auto.
  - unfold App.handleMouseUp. repeat case_match; auto; destruct s; auto.
  - destruct s; auto.
  - unfold App.handleJoinGame. rewrite Hc. auto.
Qed.

Lemma app_run_dead es : forall s,
  App.conn s = None -> forallb (fun e => negb (isConnect e)) es = true ->
  transmitted (snd (App.run es s)) = [].
Proof.
  induction es as [|e es IH]; intros s Hc Hes; [reflexivity|].
  simpl in Hes. apply andb_true_iff in Hes as [He Hes].
  apply negb_true_iff in He.
  destruct (app_step_dead e s Hc He) as [Hc1 Ht1]. simpl.
  destruct (App.step e s) as [s1 acts1]. simpl in Hc1, Ht1.
  pose proof (IH s1 Hc1 Hes) as Ht2.
  destruct (App.run es s1) as [s2 acts2]. simpl in *.
  rewrite transmitted_app, Ht1, Ht2. reflexivity.
Qed.

Lemma onDisconnect_cleared reason s : cleared (App.onDisconnect reason s).
Proof. destruct s; repeat split; reflexivity. Qed.

Lemma onDisconnect_frame reason s :
  App.animationFrameIdRef (App.onDisconnect reason s) = App.animationFrameIdRef s
  /\ App.effectConnected (App.onDisconnect reason s) = App.effectConnected s.
Proof. destruct s; split; reflexivity. Qed.

Lemma commit_disconnected h s :
  App.connected s = false ->
  App.commit h s
  = if App.effectConnected s
    then (App.set_effectConnected false
            (App.set_lastSendTime 0 (App.set_animationFrameIdRef None s)),
          match App.animationFrameIdRef s with
          | Some h0 => [CancelAnimationFrame h0]
          | None => []
          end)
    else (s, []).
Proof.
  intros Hc. unfold App.commit, App.gameLoopCleanup, App.gameLoopEffect.
  destruct s as [? cn ? ? ? ? ? ? ? ? ? ? fr ? ? ec]; simpl in *. subst cn.
  destruct ec, fr; reflexivity.
Qed.

(** C5. When the interactive client's [onDisconnect] runs, in any state a
    run can reach, the player map becomes empty, the local-player record
    and the identity become null, the connected flag becomes false and the
    connection is dropped; the frame still requested is cancelled by
    whichever runs next, the frame callback (whose guard now fails) or the
    clean-up of the game-loop effect that the change of [connected]
    triggers, and neither transmits nor requests a frame; nothing is
    transmitted until a new connection is made.  A bot's [onDisconnect],
    and the clean-up loop of [main], clear the interval and its handle, and
    no tick fires on the session afterwards. *)
Theorem disconnect_clears_state_and_timer :
  (forall es reason,
      let s := fst (App.run es App.init) in
      let s' := App.onDisconnect reason s in
      cleared s'
      /\ (forall now h, tickCancelled s (App.step (App.Frame now h) s'))
      /\ (forall h, tickCancelled s (App.step (App.Commit h) s'))
      /\ (forall es',
            forallb (fun e => negb (isConnect e)) es' = true ->
            transmitted (snd (App.run es' s')) = []))
  /\ (forall sess,
        Bot.tickHandle (Bot.state (fst (Bot.onDisconnect sess))) = None
        /\ snd (Bot.onDisconnect sess)
           = match Bot.tickHandle (Bot.state sess) with
             | Some h => [ClearInterval h]
             | None => []
             end
        /\ Bot.stopBot sess = Bot.onDisconnect sess
        /\ (forall tape,
              Bot.step Bot.Tick (fst (Bot.onDisconnect sess)) tape
              = Some (fst (Bot.onDisconnect sess), [], tape))).
Proof.
  split.
  - intros es reason s s'.
    assert (Hinv : frameArmedByEffect s).
    { apply app_run_frameArmed. intros [x Hx]. discriminate. }
    clearbody s.
    pose proof (onDisconnect_cleared reason s) as Hcl. fold s' in Hcl.
    destruct (onDisconnect_frame reason s) as [Hfr Hec].
    fold s' in Hfr, Hec. clearbody s'.
    destruct Hcl as (Hp & Hlp & Hlr & Hi & Hir & Hcn & Hcr & Hc).
    assert (Hl : App.live s' = false)
      by (unfold App.live; rewrite Hc; reflexivity).
    split; [repeat split; assumption|]. split; [|split].
    + intros now h. unfold tickCancelled. simpl. rewrite Hfr.
      destruct (App.animationFrameIdRef s) eqn:Hf.
      * rewrite (gameLoop_not_live _ _ _ Hl), Hfr. simpl.
        split; [destruct s'; reflexivity | reflexivity].
      * simpl. auto.
    + intros h. unfold tickCancelled. simpl.
      rewrite (commit_disconnected _ _ Hcn), Hec.
      destruct (App.effectConnected s) eqn:He; simpl.
      * rewrite Hfr. split; [destruct s'; reflexivity | reflexivity].
      * rewrite Hfr. destruct (App.animationFrameIdRef s) eqn:Hf; [|auto].
        unfold frameArmedByEffect in Hinv. rewrite Hf, He in Hinv.
        assert (false = true) by (apply Hinv; eauto). discriminate.
    + intros es' Hes. apply app_run_dead; assumption.
  - intros sess. unfold Bot.stopBot, Bot.onDisconnect.
    destruct sess as [st u c t]. destruct st as [i cn rg sq th d cd rot].
    simpl. destruct th; simpl; repeat split; reflexivity.
Qed.

Lemma disconnect_clears_state_and_timer_witness :
  forallb (fun e => negb (isConnect e))
          [App.Frame 60 2%positive; App.KeyDown "KeyW" false;
           App.Commit 3%positive; App.Frame 120 4%positive] = true
  /\ transmitted
       (snd (App.run [App.Frame 60 2%positive; App.KeyDown "KeyW" false;
                      App.Commit 3%positive; App.Frame 120 4%positive]
                     (App.onDisconnect None armedState))) = [].
Proof.
  split; [reflexivity|].
  apply (proj2 (proj2 (proj2 (proj1 disconnect_clears_state_and_timer
           [App.Connect 1%positive "c0ffee00c0ffee00"; App.Commit 1%positive]
           None)))).
  reflexivity.
Defined.

(** *** C6: the guard of the tick *)

(** C6, as stated, fails for the interactive client: connected but not
    registered (the join dialog is still open, no own row has arrived) its
    game loop is armed, and a due frame increments the sequence number and
    transmits. *)
Lemma tick_guard_counterexample :
  Stated.connectedRegistered armedState = false
  /\ App.showJoinDialog armedState = true
  /\ App.localPlayerRef armedState = None
  /\ appSequence armedState = 0
  /\ transmittedSeqs (snd (App.step (App.Frame 60 2%positive) armedState)) = [1]
  /\ appSequence (fst (App.step (App.Frame 60 2%positive) armedState)) = 1.
Proof. repeat split; reflexivity. Qed.

(** C6, amended.  A bot tick that finds the connection absent or the
    session not registered draws no random number, transmits nothing and
    leaves the whole session state, sequence number, direction, countdown
    and rotation included, as it was.  A frame of the interactive client
    that finds the connection or the identity absent or the connected flag
    false transmits nothing, requests no further frame, and changes nothing
    but the frame handle, which it cancels and clears; the input with its
    sequence number, the last-sent snapshot and the rotation are untouched.
    The interactive client's guard does not look at registration. *)
Theorem tick_noop_when_guard_fails :
  (forall state tape,
      Bot.conn state = None \/ Bot.registered state = false ->
      Bot.tickClient state tape = Some (state, [], tape))
  /\ (forall now h s,
        App.live s = false ->
        fst (App.gameLoop now h s) = App.set_animationFrameIdRef None s
        /\ snd (App.gameLoop now h s)
           = match App.animationFrameIdRef s with
             | Some h0 => [CancelAnimationFrame h0]
             | None => []
             end
        /\ transmitted (snd (App.gameLoop now h s)) = []
        /\ App.currentInputRef (fst (App.gameLoop now h s)) = App.currentInputRef s
        /\ App.lastSentInputState (fst (App.gameLoop now h s))
           = App.lastSentInputState s
        /\ App.playerRotationRef (fst (App.gameLoop now h s))
           = App.playerRotationRef s).
Proof.
  split; [exact tickClient_guard|].
  intros now h s Hl. rewrite (gameLoop_not_live _ _ _ Hl). simpl.
  repeat split; try (destruct s; reflexivity).
  destruct (App.animationFrameIdRef s); reflexivity.
Qed.

Lemma tick_noop_when_guard_fails_witness :
  (Bot.conn (Bot.state demoBotStart) = None
   /\ Bot.tickClient (Bot.state demoBotStart) [1 # 2]%Q
      = Some (Bot.state demoBotStart, [], [1 # 2]%Q))
  /\ (App.live (App.onDisconnect None armedState) = false
      /\ fst (App.gameLoop 60 2%positive (App.onDisconnect None armedState))
         = App.set_animationFrameIdRef None (App.onDisconnect None armedState)).
Proof.
  split.
  - split; [reflexivity|].
    apply (proj1 tick_noop_when_guard_fails). left. reflexivity.
  - split; [reflexivity|].
    apply (proj2 tick_noop_when_guard_fails 60%Q 2%positive). reflexivity.
Defined.

(** *** C8: how long a bot holds a direction, and where it turns *)

Lemma floor_unique (x : Q) (z : Z) :
  (inject_Z z <= x)%Q -> (x < inject_Z (z + 1))%Q -> floor x = z.
Proof.
  intros Hle Hlt. unfold floor.
  pose proof (Qfloor_resp_le _ _ Hle) as H1. rewrite Qfloor_Z in H1.
  pose proof (Qfloor_le x) as H2.
  assert (H3 : (inject_Z (Qfloor x) < inject_Z (z + 1))%Q)
    by (eapply Qle_lt_trans; eassumption).
  rewrite <- Zlt_Qlt in H3. lia.
Qed.

Lemma initialCountdown_range r :
  in_unit r = true -> 3 <= Bot.initialCountdown r <= 12.
Proof.
  intros Hr. unfold Bot.initialCountdown.
  pose proof (floor_scale_range r 10 ltac:(lia) Hr) as H.
  change (inject_Z 10) with 10%Q in H. lia.
Qed.

Lemma redrawCountdown_range r :
  in_unit r = true -> 5 <= Bot.redrawCountdown r <= 24.
Proof.
  intros Hr. unfold Bot.redrawCountdown.
  pose proof (floor_scale_range r 20 ltac:(lia) Hr) as H.
  change (inject_Z 20) with 20%Q in H. lia.
Qed.

(** The jitter [(Math.random() - 0.5) * 0.5], both operations rounded, lies
    in [-0.25, 0.25). *)
Lemma jitter_range r :
  in_unit r = true -> (- (1 # 4) <= Bot.jitter r /\ Bot.jitter r < 1 # 4)%Q.
Proof.
  intros [[H0 H1] Hd]%in_unit_spec.
  pose proof (double_below_one r Hd H1) as Hr.
  change (Double.pow2 (-53)) with (1 # 9007199254740992)%Q in Hr.
  unfold Bot.jitter, Double.mul, Double.sub.
  assert (Hlo : (- (1 # 2) <= Double.round (r - (1 # 2)))%Q).
  { change (- (1 # 2))%Q with (Double.round (- (1 # 2))).
    apply round_mono. lra. }
  assert (Hhi : (Double.round (r - (1 # 2))
                 <= 4503599627370495 # 9007199254740992)%Q).
  { change (4503599627370495 # 9007199254740992)%Q
      with (Double.round (4503599627370495 # 9007199254740992)).
    apply round_mono. lra. }
  split.
  - change (- (1 # 4))%Q with (Double.round (- (1 # 4))).
    apply round_mono. lra.
  - apply Qle_lt_trans with (Double.round (4503599627370495 # 18014398509481984)).
    + apply round_mono. lra.
    + reflexivity.
Qed.

(** The facing angle [rotMap[d] + jitter], rounded, stays within 0.25 of
    the angle of the direction: both bounds are doubles. *)
Lemma facing_range d j :
  (- (1 # 4) <= j)%Q -> (j <= 1 # 4)%Q ->
  (Bot.rotMap d - (1 # 4) <= Double.add (Bot.rotMap d) j
   /\ Double.add (Bot.rotMap d) j <= Bot.rotMap d + (1 # 4))%Q.
Proof.
  intros Hlo Hhi. unfold Double.add. split.
  - apply Qle_trans with (Double.round (Bot.rotMap d - (1 # 4))).
    + destruct d; apply Qle_bool_iff; vm_compute; reflexivity.
    + apply round_mono. lra.
  - apply Qle_trans with (Double.round (Bot.rotMap d + (1 # 4))).
    + apply round_mono. lra.
    + destruct d; apply Qle_bool_iff; vm_compute; reflexivity.
Qed.

(** Multiplying a double in [0,1) by 4 is exact. *)
Lemma mul_4_exact r : in_unit r = true -> (Double.mul r 4 == r * 4)%Q.
Proof.
  intros [[H0 H1] Hd]%in_unit_spec. unfold Double.mul.
  destruct (Qlt_le_dec 0 r) as [Hp|Hz].
  - destruct (double_decomp r Hp Hd) as (M & HM & Heq).
    assert (Heq4 : (r * 4 == inject_Z M * Double.pow2 (Double.ulp_exp r + 2))%Q).
    { rewrite pow2_add. change (Double.pow2 2) with 4%Q.
      rewrite Qmult_assoc, <- Heq. reflexivity. }
    rewrite (round_comp _ _ Heq4), round_exact.
    + symmetry. exact Heq4.
    + lia.
    + pose proof (ulp_exp_ge r). lia.
  - rewrite (round_zero (r * 4)); lra.
Qed.

(** Each direction is chosen on one quarter of the unit interval. *)
Lemma direction_quarter r d :
  in_unit r = true ->
  Bot.DIRECTIONS !! Z.to_nat (floor (Double.mul r 4)) = Some d
  <-> (inject_Z (dirIndex d) / 4 <= r /\ r < inject_Z (dirIndex d + 1) / 4)%Q.
Proof.
  intros Hr.
  assert (Hfl4 : floor (Double.mul r 4) = floor (r * 4)).
  { unfold floor. apply Qfloor_comp, mul_4_exact, Hr. }
  split.
  - intros Hd.
    pose proof (floor_scale_range r 4 ltac:(lia) Hr) as Hfl.
    change (inject_Z 4) with 4%Q in Hfl. rewrite Hfl4 in Hfl, Hd.
    pose proof (Qfloor_le (r * 4)) as Hlo.
    pose proof (Qlt_floor (r * 4)) as Hhi.
    fold (floor (r * 4)) in Hlo, Hhi.
    assert (Hv : floor (r * 4) = dirIndex d).
    { assert (Hc : floor (r * 4) = 0 \/ floor (r * 4) = 1
                   \/ floor (r * 4) = 2 \/ floor (r * 4) = 3) by lia.
      destruct Hc as [Hc|[Hc|[Hc|Hc]]]; rewrite Hc in Hd; simpl in Hd;
        injection Hd as <-; exact Hc. }
    rewrite Hv in Hlo, Hhi.
    clear Hd Hfl Hv Hfl4.
    destruct d; cbv [dirIndex inject_Z Z.add Pos.add Pos.succ] in *;
      unfold Qdiv; change (/ 4)%Q with (1 # 4)%Q; split; lra.
  - intros [Hlo Hhi]. rewrite Hfl4.
    assert (Hv : floor (r * 4) = dirIndex d).
    { unfold Qdiv in Hlo, Hhi. change (/ 4)%Q with (1 # 4)%Q in Hlo, Hhi.
      apply floor_unique;
        destruct d; cbv [dirIndex inject_Z Z.add Pos.add Pos.succ] in *; lra. }
    rewrite Hv. destruct d; reflexivity.
Qed.

Lemma directionOf_botInput d seq r : directionOf (botInput d seq r) = Some d.
Proof. destruct d; reflexivity. Qed.

(** A tick above countdown 1 holds: one draw, the direction transmitted. *)
Lemma tickClient_holds st r tape :
  is_Some (Bot.conn st) -> Bot.registered st = true ->
  1 < Bot.dirChangeCountdown st -> in_unit r = true ->
  Bot.tickClient st (r :: tape)
  = Some (Bot.set_sequence (num_incr (Bot.sequence st))
            (Bot.set_dirChangeCountdown (Bot.dirChangeCountdown st - 1) st),
          [UpdatePlayerInput
             (botInput (Bot.direction st) (num_incr (Bot.sequence st)) r)
             (Vector3.mk 0 0 0) (Vector3.mk 0 (Bot.rotation st) 0)
             (Bot.animationFromInput
                (botInput (Bot.direction st) (num_incr (Bot.sequence st)) r))],
          tape).
Proof.
  intros Hc Hreg Hcd Hr. unfold Bot.tickClient.
  rewrite (bool_decide_eq_true_2 _ Hc), Hreg. cbn [negb orb].
  unfold mbind at 1, rand_bind at 1.
  destruct (Z.leb_spec
              (Bot.dirChangeCountdown
                 (Bot.set_dirChangeCountdown (Bot.dirChangeCountdown st - 1) st))
              0) as [Hle|Hgt]; [simpl in Hle; lia|].
  unfold mret at 1, rand_ret at 1. unfold mbind, rand_bind.
  rewrite (buildInput_cons _ _ _ _ Hr). reflexivity.
Qed.

(** A tick at countdown 1 or below switches: four draws, the new direction
    transmitted on that very tick. *)
Lemma tickClient_switches st rd rc rj rs tape :
  is_Some (Bot.conn st) -> Bot.registered st = true ->
  Bot.dirChangeCountdown st <= 1 ->
  in_unit rd = true -> in_unit rc = true ->
  in_unit rj = true -> in_unit rs = true ->
  exists d,
    Bot.DIRECTIONS !! Z.to_nat (floor (Double.mul rd 4)) = Some d
    /\ Bot.tickClient st (rd :: rc :: rj :: rs :: tape)
       = Some (Bot.set_sequence (num_incr (Bot.sequence st))
                 (Bot.set_rotation (Double.add (Bot.rotMap d) (Bot.jitter rj))
                    (Bot.set_dirChangeCountdown (Bot.redrawCountdown rc)
                       (Bot.set_direction d
                          (Bot.set_dirChangeCountdown
                             (Bot.dirChangeCountdown st - 1) st)))),
               [UpdatePlayerInput
                  (botInput d (num_incr (Bot.sequence st)) rs)
                  (Vector3.mk 0 0 0)
                  (Vector3.mk 0 (Double.add (Bot.rotMap d) (Bot.jitter rj)) 0)
                  (Bot.animationFromInput
                     (botInput d (num_incr (Bot.sequence st)) rs))],
               tape).
Proof.
  intros Hc Hreg Hcd Hrd Hrc Hrj Hrs.
  destruct (switchDirection_cons
              (Bot.set_dirChangeCountdown (Bot.dirChangeCountdown st - 1) st)
              rd rc rj (rs :: tape) Hrd Hrc Hrj) as (d & Hd & Hsw).
  exists d. split; [exact Hd|]. unfold Bot.tickClient.
  rewrite (bool_decide_eq_true_2 _ Hc), Hreg. cbn [negb orb].
  unfold mbind at 1, rand_bind at 1.
  destruct (Z.leb_spec
              (Bot.dirChangeCountdown
                 (Bot.set_dirChangeCountdown (Bot.dirChangeCountdown st - 1) st))
              0) as [Hle|Hgt]; [|simpl in Hgt; lia].
  rewrite Hsw. unfold mbind, rand_bind.
  rewrite (buildInput_cons _ _ _ _ Hrs). reflexivity.
Qed.

(** Counting down: [n] ticks below the countdown transmit the direction
    held, [n] times, and change neither direction nor rotation. *)
Lemma bot_run_holds n : forall sess tape,
  ticking sess ->
  Z.of_nat n < Bot.dirChangeCountdown (Bot.state sess) ->
  validTape tape -> (n <= length tape)%nat ->
  exists sess' acts,
    Bot.run (replicate n Bot.Tick) sess tape = Some (sess', acts, drop n tape)
    /\ ticking sess'
    /\ Bot.direction (Bot.state sess') = Bot.direction (Bot.state sess)
    /\ Bot.rotation (Bot.state sess') = Bot.rotation (Bot.state sess)
    /\ Bot.dirChangeCountdown (Bot.state sess')
       = Bot.dirChangeCountdown (Bot.state sess) - Z.of_nat n
    /\ directionsSent acts
       = replicate n (Some (Bot.direction (Bot.state sess))).
Proof.
  induction n as [|n IH]; intros sess tape Hlive Hcd Hv Hlen.
  - exists sess, []. simpl. rewrite drop_0, Z.sub_0_r.
    split; [reflexivity|]. split; [exact Hlive|]. auto.
  - destruct tape as [|r tape]; [simpl in Hlen; lia|].
    apply Forall_cons in Hv as [Hr Hv]. simpl in Hlen.
    destruct Hlive as (Hc & Hreg & Hth).
    pose proof (tickClient_holds (Bot.state sess) r tape Hc Hreg ltac:(lia) Hr)
      as Ht.
    set (st1 := Bot.set_sequence (num_incr (Bot.sequence (Bot.state sess)))
                  (Bot.set_dirChangeCountdown
                     (Bot.dirChangeCountdown (Bot.state sess) - 1)
                     (Bot.state sess))) in *.
    destruct (IH (Bot.set_state st1 sess) tape)
      as (sess' & acts & Hr' & Hl' & Hd & Hrot & Hcd' & Hn);
      try assumption; try (subst st1; simpl; lia).
    { subst st1. repeat split; simpl; assumption. }
    eexists sess', (_ :: acts).
    split; [|split; [|split; [|split; [|split]]]].
    + simpl. destruct Hth as [h Hh]. rewrite Hh.
      unfold mbind, rand_bind. rewrite Ht. cbn [mbind rand_bind].
      unfold mret, rand_ret. fold st1.
      unfold mbind, rand_bind in Hr'. rewrite Hr'. reflexivity.
    + exact Hl'.
    + rewrite Hd. reflexivity.
    + rewrite Hrot. reflexivity.
    + rewrite Hcd'. subst st1. simpl. lia.
    + unfold directionsSent in *. cbn [app transmitted map replicate].
      rewrite Hn, directionOf_botInput. reflexivity.
Qed.

(** A session that connects and whose subscription is applied: the
    events that follow find it ticking. *)
Lemma bot_run_connect_applied c h es sess tape :
  Bot.run (Bot.Connect c :: Bot.Applied h :: es) sess tape
  = match Bot.run es
            (Bot.set_state
               (Bot.set_tickHandle (Some h)
                  (Bot.set_registered true
                     (Bot.set_conn (Some c) (Bot.state sess)))) sess) tape with
    | Some (s', acts, t) =>
        Some (s', RegisterCallback OnInsert :: Subscribe "SELECT * FROM player"
                  :: RegisterPlayer (Bot.username sess) (Bot.characterClass sess)
                  :: SetInterval h Bot.INPUT_TICK_INTERVAL_MS
                  :: ClearTimeout (Bot.timeout sess) :: ResolveSpawn :: acts, t)
    | None => None
    end.
Proof.
  cbn [Bot.run Bot.step]. unfold Bot.onConnect.
  unfold mbind at 1, rand_bind at 1. unfold mret at 1, rand_ret at 1.
  unfold mbind at 1, rand_bind at 1. unfold mbind at 1, rand_bind at 1.
  cbn [Bot.state Bot.set_state Bot.conn Bot.set_conn]. unfold Bot.onApplied.
  unfold mret at 1, rand_ret at 1.
  unfold mbind at 1, rand_bind at 1.
  match goal with
  | |- context [Bot.run es ?s1 tape] =>
      change s1 with
        (Bot.set_state
           (Bot.set_tickHandle (Some h)
              (Bot.set_registered true
                 (Bot.set_conn (Some c) (Bot.state sess)))) sess)
  end.
  destruct (Bot.run es _ tape) as [[[s' acts] t]|]; reflexivity.
Qed.

(** The tick that switches and the ticks that count the new countdown
    down: the new direction is transmitted on as many ticks as the
    countdown drawn, and the next tick switches again. *)
Lemma bot_run_switch_and_hold sess rd rc rj rs tape :
  ticking sess -> Bot.dirChangeCountdown (Bot.state sess) <= 1 ->
  in_unit rd = true -> in_unit rc = true ->
  in_unit rj = true -> in_unit rs = true ->
  validTape tape -> (23 <= length tape)%nat ->
  exists d sess' acts,
    let c := Bot.redrawCountdown rc in
    Bot.DIRECTIONS !! Z.to_nat (floor (Double.mul rd 4)) = Some d
    /\ Bot.run (replicate (Z.to_nat c) Bot.Tick) sess
               (rd :: rc :: rj :: rs :: tape)
       = Some (sess', acts, drop (Z.to_nat (c - 1)) tape)
    /\ directionsSent acts = replicate (Z.to_nat c) (Some d)
    /\ Bot.direction (Bot.state sess') = d
    /\ Bot.rotation (Bot.state sess') = Double.add (Bot.rotMap d) (Bot.jitter rj)
    /\ Bot.dirChangeCountdown (Bot.state sess') = 1.
Proof.
  intros (Hc & Hreg & Hth) Hcd Hrd Hrc Hrj Hrs Hv Hlen.
  destruct (tickClient_switches (Bot.state sess) rd rc rj rs tape
              Hc Hreg Hcd Hrd Hrc Hrj Hrs) as (d & Hd & Ht).
  pose proof (redrawCountdown_range rc Hrc) as Hrange.
  set (c := Bot.redrawCountdown rc) in *.
  set (st1 := Bot.set_sequence (num_incr (Bot.sequence (Bot.state sess))) _) in Ht.
  destruct (bot_run_holds (Z.to_nat (c - 1)) (Bot.set_state st1 sess) tape)
    as (sess' & acts & Hrun & _ & Hdir & Hrot & Hcd' & Hsent).
  { subst st1. repeat split; simpl; assumption. }
  { subst st1. simpl. fold c. lia. }
  { exact Hv. }
  { lia. }
  exists d, sess'. eexists (_ :: acts). cbv zeta.
  split; [exact Hd|].
  replace (Z.to_nat c) with (S (Z.to_nat (c - 1))) by lia.
  split; [|split; [|split; [|split]]].
  - simpl. destruct Hth as [h Hh]. rewrite Hh.
    unfold mbind, rand_bind. rewrite Ht. cbn [mbind rand_bind].
    unfold mret, rand_ret.
    unfold mbind, rand_bind in Hrun. rewrite Hrun. reflexivity.
  - unfold directionsSent in *. cbn [app transmitted map replicate].
    rewrite Hsent, directionOf_botInput. subst st1. reflexivity.
  - rewrite Hdir. subst st1. reflexivity.
  - rewrite Hrot. subst st1. reflexivity.
  - rewrite Hcd'. subst st1. simpl. fold c. lia.
Qed.

(** C8, as stated, fails at both ends.  A bot whose redraw draws 31/32
    (countdown 5 + floor(19.375) = 24) transmits the new direction,
    backward, on 24 ticks in a row before it turns left; and a bot spawned
    with the countdown 3 transmits its first direction, forward, on 2 ticks
    only before it turns backward. *)
Lemma hold_duration_counterexample :
  (validTape holdTape
   /\ option_map (fun out => directionsSent (snd (fst out)))
                 (Bot.run (replicate 25 Bot.Tick) holdSession holdTape)
      = Some (replicate 24 (Some Bot.Backward) ++ [Some Bot.Left])
   /\ ~ Stated.holdRange 24)
  /\ (validTape (shortHoldSpawnTape ++ shortHoldTape)
      /\ (exists sess,
            Bot.spawnClient 1 9%positive shortHoldSpawnTape = Some (sess, [])
            /\ Bot.dirChangeCountdown (Bot.state sess) = 3
            /\ option_map (fun out => directionsSent (snd (fst out)))
                          (Bot.run shortHoldEvents sess shortHoldTape)
               = Some [Some Bot.Forward; Some Bot.Forward; Some Bot.Backward])
      /\ ~ Stated.holdRange 2).
Proof.
  split; [split; [|split] | split; [|split]].
  - apply validTape_forallb. vm_compute. reflexivity.
  - vm_compute. reflexivity.
  - unfold Stated.holdRange. lia.
  - apply validTape_forallb. vm_compute. reflexivity.
  - eexists. split; [vm_compute; reflexivity|].
    split; vm_compute; reflexivity.
  - unfold Stated.holdRange. lia.
Qed.

(** C8, amended.  The countdown drawn when a session is spawned lies in 3
    to 12, and the direction drawn at spawn is transmitted on the first
    countdown - 1 ticks, 2 to 11 of them, the next tick being the first
    switch.  A switching tick draws the new direction as
    DIRECTIONS[floor(4 r)], each of forward, backward, left and right on one
    quarter of the unit interval, re-draws the countdown as
    5 + floor(20 r), in 5 to 24, and sets the rotation to the angle of that
    direction plus a jitter, within 0.25 rad of that angle, bounds included.
    The new direction is transmitted on as many ticks as the countdown
    drawn, the switching tick being the first of them, and the tick after
    them switches again. *)
Theorem hold_duration_and_direction_switch :
  (forall clientId timeout tape0 sess tape1 c h tape,
      Bot.spawnClient clientId timeout tape0 = Some (sess, tape1) ->
      validTape tape -> (11 <= length tape)%nat ->
      let c0 := Bot.dirChangeCountdown (Bot.state sess) in
      3 <= c0 <= 12
      /\ exists sess' acts,
           Bot.run ([Bot.Connect c; Bot.Applied h]
                    ++ replicate (Z.to_nat (c0 - 1)) Bot.Tick) sess tape
           = Some (sess', acts, drop (Z.to_nat (c0 - 1)) tape)
           /\ directionsSent acts
              = replicate (Z.to_nat (c0 - 1))
                          (Some (Bot.direction (Bot.state sess)))
           /\ Bot.rotation (Bot.state sess') = 0%Q
           /\ Bot.dirChangeCountdown (Bot.state sess') = 1)
  /\ (forall sess rd rc rj rs tape,
        ticking sess -> Bot.dirChangeCountdown (Bot.state sess) <= 1 ->
        validTape (rd :: rc :: rj :: rs :: tape) -> (23 <= length tape)%nat ->
        exists d sess' acts,
          let c := Bot.redrawCountdown rc in
          5 <= c <= 24
          /\ (inject_Z (dirIndex d) / 4 <= rd
              /\ rd < inject_Z (dirIndex d + 1) / 4)%Q
          /\ Bot.run (replicate (Z.to_nat c) Bot.Tick) sess
                     (rd :: rc :: rj :: rs :: tape)
             = Some (sess', acts, drop (Z.to_nat (c - 1)) tape)
          /\ directionsSent acts = replicate (Z.to_nat c) (Some d)
          /\ Bot.direction (Bot.state sess') = d
          /\ (Bot.rotMap d - (1 # 4) <= Bot.rotation (Bot.state sess')
              /\ Bot.rotation (Bot.state sess') <= Bot.rotMap d + (1 # 4))%Q
          /\ Bot.dirChangeCountdown (Bot.state sess') = 1)
  /\ (forall r d,
        in_unit r = true ->
        Bot.DIRECTIONS !! Z.to_nat (floor (Double.mul r 4)) = Some d
        <-> (inject_Z (dirIndex d) / 4 <= r
             /\ r < inject_Z (dirIndex d + 1) / 4)%Q).
Proof.
  split; [|split].
  - intros clientId timeout tape0 sess tape1 c h tape Hsp Hv Hlen c0.
    apply spawnClient_Some in Hsp
      as (rk & rd & rc & cls & d & _ & _ & _ & Hrc & _ & ->).
    pose proof (initialCountdown_range rc Hrc) as Hrange.
    subst c0. cbn [Bot.state Bot.dirChangeCountdown Bot.direction] in *.
    split; [exact Hrange|].
    set (sess1 := Bot.mkSession
                    (Bot.mkClientState clientId (Some c) true 0 (Some h) d
                                       (Bot.initialCountdown rc) 0)
                    (lit "Bot_" ++ toString clientId) cls timeout).
    destruct (bot_run_holds (Z.to_nat (Bot.initialCountdown rc - 1)) sess1 tape)
      as (sess' & acts & Hrun & _ & Hdir & Hrot & Hcd & Hsent).
    { subst sess1. repeat split; simpl; eauto. }
    { subst sess1. simpl. lia. }
    { exact Hv. }
    { lia. }
    exists sess'. eexists.
    split; [|split; [|split]].
    + cbn [app]. rewrite bot_run_connect_applied.
      change (Bot.set_state _ _) with sess1. rewrite Hrun. reflexivity.
    + unfold directionsSent in *. simpl. exact Hsent.
    + rewrite Hrot. reflexivity.
    + rewrite Hcd. subst sess1. simpl. lia.
  - intros sess rd rc rj rs tape Hlive Hcd Hv Hlen.
    apply Forall_cons in Hv as [Hrd Hv]. apply Forall_cons in Hv as [Hrc Hv].
    apply Forall_cons in Hv as [Hrj Hv]. apply Forall_cons in Hv as [Hrs Hv].
    destruct (bot_run_switch_and_hold sess rd rc rj rs tape
                Hlive Hcd Hrd Hrc Hrj Hrs Hv Hlen)
      as (d & sess' & acts & Hd & Hrun & Hsent & Hdir & Hrot & Hcd').
    exists d, sess', acts. cbv zeta.
    split; [apply redrawCountdown_range, Hrc|].
    split; [apply direction_quarter; assumption|].
    split; [exact Hrun|]. split; [exact Hsent|]. split; [exact Hdir|].
    split; [|exact Hcd'].
    rewrite Hrot. destruct (jitter_range rj Hrj) as [Hjl Hjh].
    apply facing_range; lra.
  - intros r d Hr. apply direction_quarter, Hr.
Qed.

Lemma hold_duration_and_direction_switch_witness :
  ticking holdSession
  /\ Bot.dirChangeCountdown (Bot.state holdSession) <= 1
  /\ exists d sess' acts,
       Bot.run (replicate 24 Bot.Tick) holdSession holdTape
       = Some (sess', acts, [1 # 2; 0; 1 # 2; 1 # 2]%Q)
       /\ directionsSent acts = replicate 24 (Some d)
       /\ Bot.direction (Bot.state sess') = d
       /\ Bot.dirChangeCountdown (Bot.state sess') = 1.
Proof.
  split; [repeat split; simpl; eauto|]. split; [simpl; lia|].
  destruct (proj1 (proj2 hold_duration_and_direction_switch)
              holdSession (1 # 4)%Q (31 # 32)%Q (1 # 2)%Q (1 # 2)%Q
              (replicate 23 (1 # 2)%Q ++ [1 # 2; 0; 1 # 2; 1 # 2]%Q))
    as (d & sess' & acts & _ & _ & Hrun & Hsent & Hdir & _ & Hcd).
  - repeat split; simpl; eauto.
  - simpl. lia.
  - apply validTape_forallb. vm_compute. reflexivity.
  - simpl. lia.
  - exists d, sess', acts. repeat split; assumption.
Defined.

(** *** C9: the name the join dialog submits *)

Lemma truthy_nonempty (s : jsstring) : truthy s = true <-> s <> [].
Proof. destruct s; simpl; split; congruence. Qed.

(** C9. [handleSubmit] always calls [onJoin] with a non-empty username: the
    trimmed text of the input field when that is not empty, in which case
    no random number is drawn, and otherwise ["Player"] followed by the
    decimal digits of the floor of the product 1000 r as the doubles
    compute it, a number in 0 to 999, for the draw [r]. *)
Theorem join_username_nonempty :
  (forall username characterClass tape,
      trim username <> [] ->
      JoinGameDialog.handleSubmit username characterClass tape
      = Some ((trim username, characterClass), tape))
  /\ (forall username characterClass r tape,
        trim username = [] -> in_unit r = true ->
        JoinGameDialog.handleSubmit username characterClass (r :: tape)
        = Some ((lit "Player" ++ toString (floor (Double.mul r 1000)), characterClass),
                tape)
        /\ 0 <= floor (Double.mul r 1000) <= 999)
  /\ (forall username characterClass tape name cls tape',
        JoinGameDialog.handleSubmit username characterClass tape
        = Some ((name, cls), tape') ->
        name <> [] /\ cls = characterClass).
Proof.
  split; [|split].
  - intros username characterClass tape Hne.
    unfold JoinGameDialog.handleSubmit.
    rewrite (proj2 (truthy_nonempty _) Hne). reflexivity.
  - intros username characterClass r tape He Hr. split.
    + unfold JoinGameDialog.handleSubmit. rewrite He. cbn [truthy].
      unfold mbind, rand_bind. rewrite (random_cons _ _ Hr). reflexivity.
    + pose proof (floor_scale_range r 1000 ltac:(lia) Hr) as H.
      change (inject_Z 1000) with 1000%Q in H. lia.
  - intros username characterClass tape name cls tape' H.
    unfold JoinGameDialog.handleSubmit in H.
    destruct (truthy (trim username)) eqn:Ht.
    + injection H as <- <- <-. split; [|reflexivity].
      apply truthy_nonempty, Ht.
    + rand_inv H. rand_inv Hm. apply ret_Some in Hm. injection Hm as -> ->.
      apply ret_Some in H. injection H as -> -> ->.
      split; [discriminate | reflexivity].
Qed.

Lemma join_username_nonempty_witness :
  (trim (lit "  Ada ") <> []
   /\ JoinGameDialog.handleSubmit (lit "  Ada ") "Wizard" []
      = Some ((lit "Ada", "Wizard"%string), []))
  /\ (trim (lit "   ") = [] /\ in_unit (7692148163548807 # 18014398509481984) = true
      /\ JoinGameDialog.handleSubmit (lit "   ") "Paladin" [7692148163548807 # 18014398509481984]%Q
         = Some ((lit "Player427", "Paladin"%string), [])).
Proof.
  split.
  - split; [vm_compute; discriminate|].
    apply (proj1 join_username_nonempty (lit "  Ada ") "Wizard"%string []).
    vm_compute. discriminate.
  - split; [reflexivity|]. split; [reflexivity|].
    apply (proj1 (proj2 join_username_nonempty) (lit "   ") "Paladin"%string
                 (7692148163548807 # 18014398509481984)%Q []); reflexivity.
Defined.

(** ** Further properties of the code *)

(** *** [randomItem] *)

Lemma drawFor_spec (i n : Z) :
  0 <= i < n -> n < 2 ^ 32 ->
  in_unit (drawFor i n) = true
  /\ floor (Double.mul (drawFor i n) (inject_Z n)) = i.
Proof.
  intros Hi Hn. unfold drawFor.
  set (m := (i * 2 ^ 53 + n - 1) / n).
  assert (Hm1 : n * m <= i * 2 ^ 53 + n - 1) by (apply Z.mul_div_le; lia).
  assert (Hm2 : i * 2 ^ 53 + n - 1 < n * Z.succ m)
    by (apply Z.mul_succ_div_gt; lia).
  assert (Hm0 : 0 <= m) by (apply Z.div_pos; lia).
  assert (Hm53 : m < 2 ^ 53) by nia.
  assert (Heq : (m # 9007199254740992 == inject_Z m * Double.pow2 (-53))%Q).
  { change (Double.pow2 (-53)) with (1 # 9007199254740992)%Q.
    unfold Qeq. simpl. lia. }
  assert (Hd : Double.is_double (m # 9007199254740992) = true).
  { apply is_double_spec. rewrite (round_comp _ _ Heq), round_exact by lia.
    symmetry. exact Heq. }
  assert (H0 : (0 <= m # 9007199254740992)%Q) by (unfold Qle; simpl; lia).
  assert (H1 : (m # 9007199254740992 < 1)%Q) by (unfold Qlt; simpl; lia).
  split; [apply in_unit_spec; auto|].
  assert (Hlo : (inject_Z i <= (m # 9007199254740992) * inject_Z n)%Q).
  { unfold Qle. simpl. nia. }
  assert (Hhi : ((m # 9007199254740992) * inject_Z n
                 <= inject_Z (2 * i + 1) * Double.pow2 (-1))%Q).
  { change (Double.pow2 (-1)) with (1 # 2)%Q. unfold Qle. simpl. nia. }
  unfold Double.mul. apply floor_unique.
  - rewrite <- (round_exact_Z i) by lia. apply round_mono, Hlo.
  - eapply Qle_lt_trans; [apply round_mono, Hhi|].
    rewrite round_exact by lia.
    change (Double.pow2 (-1)) with (1 # 2)%Q. unfold Qlt. simpl. lia.
Qed.

(** Every result of [randomItem] is an element of the array.  On an array
    that is not empty it returns one for every draw [Math.random] may make;
    on the empty array it yields [undefined].  Every element can be
    returned: the draw [drawFor i n], the least multiple of 2^-53 that is at
    least i/n, selects the element at index i.  Arrays have fewer than 2^32
    elements. *)
Theorem randomItem_draws_members :
  (forall (T : Type) (arr : list T) tape v tape',
      Bot.randomItem arr tape = Some (v, tape') -> In v arr)
  /\ (forall (T : Type) (arr : list T) r tape,
        arr <> [] -> Z.of_nat (length arr) < 2 ^ 32 -> in_unit r = true ->
        exists v, Bot.randomItem arr (r :: tape) = Some (v, tape) /\ In v arr)
  /\ (forall (T : Type) tape, Bot.randomItem (@nil T) tape = None)
  /\ (forall (T : Type) (arr : list T) (i : nat) v tape,
        arr !! i = Some v -> Z.of_nat (length arr) < 2 ^ 32 ->
        let r := drawFor (Z.of_nat i) (Z.of_nat (length arr)) in
        in_unit r = true
        /\ Bot.randomItem arr (r :: tape) = Some (v, tape)).
Proof.
  split; [|split; [|split]].
  - intros T arr tape v tape' H.
    apply randomItem_Some in H as (r & _ & _ & _ & Hv).
    apply list_elem_of_In. eapply list_elem_of_lookup_2. exact Hv.
  - intros T arr r tape Hne Hlen Hr.
    destruct (randomItem_cons arr r tape Hne ltac:(lia) Hr) as (v & Hv & Hl).
    exists v. split; [exact Hv|].
    apply list_elem_of_In. eapply list_elem_of_lookup_2. exact Hl.
  - intros T tape. unfold Bot.randomItem, mbind, rand_bind.
    destruct (random tape) as [[r tape']|]; [|reflexivity].
    unfold index. destruct (_ <? 0); reflexivity.
  - intros T arr i v tape Hv Hlen r.
    pose proof (lookup_lt_Some _ _ _ Hv) as Hlt.
    destruct (drawFor_spec (Z.of_nat i) (Z.of_nat (length arr)))
      as [Hr Hfl]; [lia | lia |].
    fold r in Hr, Hfl. split; [exact Hr|].
    unfold Bot.randomItem, mbind, rand_bind. rewrite (random_cons _ _ Hr).
    rewrite Hfl. unfold index.
    destruct (Z.ltb_spec (Z.of_nat i) 0); [lia|].
    rewrite Nat2Z.id, Hv. reflexivity.
Qed.

Lemma randomItem_draws_members_witness :
  (in_unit (1 # 2) = true
   /\ exists v, Bot.randomItem Bot.DIRECTIONS [1 # 2]%Q = Some (v, [])
                /\ In v Bot.DIRECTIONS)
  /\ Bot.randomItem Bot.CHARACTER_CLASSES [drawFor 1 2]
     = Some ("Paladin"%string, []).
Proof.
  split.
  - split; [reflexivity|].
    apply (proj1 (proj2 randomItem_draws_members) _ Bot.DIRECTIONS (1 # 2)%Q []).
    + discriminate.
    + simpl. lia.
    + reflexivity.
  - apply (proj2 (proj2 (proj2 randomItem_draws_members))
             _ Bot.CHARACTER_CLASSES 1%nat "Paladin"%string []).
    + reflexivity.
    + simpl. lia.
Defined.

(** *** Order of registration and transmission *)

Lemma enabledBefore_app enables seen a1 a2 :
  enabledBefore enables seen (a1 ++ a2)
  = enabledBefore enables seen a1
    && enabledBefore enables (seen || existsb enables a1) a2.
Proof.
  revert seen. induction a1 as [|a a1 IH]; intros seen; simpl.
  - rewrite orb_false_r. reflexivity.
  - rewrite IH, orb_assoc, andb_assoc. reflexivity.
Qed.

Lemma enabledBefore_seen enables acts :
  enabledBefore enables true acts = true.
Proof.
  induction acts as [|a acts IH]; [reflexivity|]. simpl.
  rewrite orb_true_r. exact IH.
Qed.

Lemma bot_step_registered e s tape s' acts tape' :
  Bot.step e s tape = Some (s', acts, tape') ->
  enabledBefore isRegisterPlayer (Bot.registered (Bot.state s)) acts = true
  /\ Bot.registered (Bot.state s')
     = Bot.registered (Bot.state s) || existsb isRegisterPlayer acts.
Proof.
  destruct e; simpl; intros H.
  - apply ret_Some in H. injection H as -> ->. simpl.
    rewrite orb_false_r. auto.
  - destruct (Bot.conn (Bot.state s)); apply ret_Some in H;
      injection H as -> ->; simpl; rewrite ?orb_false_r, ?orb_true_r; auto.
  - destruct (Bot.conn (Bot.state s)); apply ret_Some in H;
      injection H as -> ->; simpl; rewrite ?orb_false_r; auto.
  - destruct (Bot.tickHandle (Bot.state s)).
    2:{ apply ret_Some in H. injection H as -> ->. simpl.
        rewrite orb_false_r. auto. }
    rand_inv H. destruct a as [st acts0]. apply ret_Some in H.
    injection H as -> -> ->.
    apply tickClient_Some in Hm
      as [(_ & -> & -> & _)
         | (_ & Hreg & st1 & tape1 & r & Hdir & _ & _ & -> & ->)].
    + simpl. rewrite orb_false_r. auto.
    + simpl. rewrite Hreg. simpl. split; [reflexivity|].
      destruct Hdir as [(_ & -> & _) | (_ & Hsw)]; [exact Hreg|].
      apply switchDirection_Some in Hsw
        as (rd & rc & rj & d & _ & _ & _ & _ & _ & ->). exact Hreg.
  - apply ret_Some in H. unfold Bot.onDisconnect in H.
    destruct (Bot.tickHandle (Bot.state s)); injection H as -> ->; simpl;
      rewrite orb_false_r; auto.
  - apply ret_Some in H. unfold Bot.stopBot in H.
    destruct (Bot.tickHandle (Bot.state s)); injection H as -> ->; simpl;
      rewrite orb_false_r; auto.
Qed.

Lemma bot_run_registered es : forall s tape s' acts tape',
  Bot.run es s tape = Some (s', acts, tape') ->
  enabledBefore isRegisterPlayer (Bot.registered (Bot.state s)) acts = true
  /\ Bot.registered (Bot.state s')
     = Bot.registered (Bot.state s) || existsb isRegisterPlayer acts.
Proof.
  induction es as [|e es IH]; intros s tape s' acts tape' H.
  - apply ret_Some in H. injection H as -> -> ->. simpl.
    rewrite orb_false_r. auto.
  - simpl in H. rand_inv H. destruct a as [s1 acts1].
    rand_inv H. destruct a as [s2 acts2]. apply ret_Some in H.
    injection H as -> -> ->.
    destruct (bot_step_registered _ _ _ _ _ _ Hm) as [H1 R1].
    destruct (IH _ _ _ _ _ Hm0) as [H2 R2].
    rewrite enabledBefore_app, existsb_app, H1, <- R1, H2, R2, R1.
    rewrite orb_assoc. auto.
Qed.

(** A bot never sends input before it has called [registerPlayer]: in the
    actions of every bot session each [updatePlayerInput] call comes after
    a [registerPlayer] call, and the [registered] flag is set exactly when
    such a call has been made. *)
Theorem bot_registers_before_transmitting :
  forall clientId timeout tape0 sess tape1 es sess' acts tape2,
    Bot.spawnClient clientId timeout tape0 = Some (sess, tape1) ->
    Bot.run es sess tape1 = Some (sess', acts, tape2) ->
    enabledBefore isRegisterPlayer false acts = true
    /\ Bot.registered (Bot.state sess') = existsb isRegisterPlayer acts.
Proof.
  intros clientId timeout tape0 sess tape1 es sess' acts tape2 Hsp Hrun.
  apply spawnClient_Some in Hsp
    as (rk & rd & rc & cls & d & _ & _ & _ & _ & _ & ->).
  apply bot_run_registered in Hrun. exact Hrun.
Qed.

Lemma bot_registers_before_transmitting_witness :
  enabledBefore isRegisterPlayer false demoBotActions = true.
Proof.
  eapply proj1.
  eapply (bot_registers_before_transmitting 1 9%positive demoBotTape
            demoBotStart [1 # 2; 1 # 2]%Q demoBotEvents _ demoBotActions _).
  - vm_compute. reflexivity.
  - vm_compute. reflexivity.
Defined.

(** *** Invariants of a bot session *)

Section BotInvariant.

Variable P : Bot.ClientState -> Prop.

Hypothesis P_conn : forall c st, P st -> P (Bot.set_conn c st).
Hypothesis P_registered : forall b st, P st -> P (Bot.set_registered b st).
Hypothesis P_tickHandle : forall h st, P st -> P (Bot.set_tickHandle h st).
Hypothesis P_tick : forall st tape st' acts tape',
  Bot.tickClient st tape = Some (st', acts, tape') -> P st -> P st'.

Lemma bot_step_preserves e s tape s' acts tape' :
  Bot.step e s tape = Some (s', acts, tape') ->
  P (Bot.state s) -> P (Bot.state s').
Proof.
  destruct e; simpl; intros H Hp.
  - apply ret_Some in H. injection H as -> ->. simpl. apply P_conn, Hp.
  - destruct (Bot.conn (Bot.state s)); apply ret_Some in H;
      injection H as -> ->; simpl; [|exact Hp].
    apply P_tickHandle, P_registered, Hp.
  - destruct (Bot.conn (Bot.state s)); apply ret_Some in H;
      injection H as -> ->; exact Hp.
  - destruct (Bot.tickHandle (Bot.state s)).
    2:{ apply ret_Some in H. injection H as -> ->. exact Hp. }
    rand_inv H. destruct a as [st acts0]. apply ret_Some in H.
    injection H as -> -> ->. simpl. eapply P_tick; eassumption.
  - apply ret_Some in H. unfold Bot.onDisconnect in H.
    destruct (Bot.tickHandle (Bot.state s)); injection H as -> ->;
      simpl; [apply P_tickHandle|]; exact Hp.
  - apply ret_Some in H. unfold Bot.stopBot in H.
    destruct (Bot.tickHandle (Bot.state s)); injection H as -> ->;
      simpl; [apply P_tickHandle|]; exact Hp.
Qed.

Lemma bot_run_preserves es : forall s tape s' acts tape',
  Bot.run es s tape = Some (s', acts, tape') ->
  P (Bot.state s) -> P (Bot.state s').
Proof.
  induction es as [|e es IH]; intros s tape s' acts tape' H Hp.
  - apply ret_Some in H. injection H as -> -> ->. exact Hp.
  - simpl in H. rand_inv H. destruct a as [s1 acts1].
    rand_inv H. destruct a as [s2 acts2]. apply ret_Some in H.
    injection H as -> -> ->.
    eapply IH; [exact Hm0|]. eapply bot_step_preserves; eassumption.
Qed.

End BotInvariant.

Lemma tickClient_countdown st tape st' acts tape' :
  Bot.tickClient st tape = Some (st', acts, tape') ->
  1 <= Bot.dirChangeCountdown st <= 24 ->
  1 <= Bot.dirChangeCountdown st' <= 24.
Proof.
  intros H Hcd.
  apply tickClient_Some in H
    as [(_ & -> & _) | (_ & _ & st1 & tape1 & r & Hdir & _ & _ & -> & _)];
    [exact Hcd|].
  destruct Hdir as [(Hpos & -> & _) | (_ & Hsw)]; simpl; [lia|].
  apply switchDirection_Some in Hsw
    as (rd & rc & rj & d & _ & _ & Hrc & _ & _ & ->). simpl.
  pose proof (redrawCountdown_range rc Hrc). lia.
Qed.

Lemma switchDirection_faces st tape st1 tape1 :
  Bot.switchDirection st tape = Some (st1, tape1) -> facesDirection st1.
Proof.
  intros Hsw. apply switchDirection_Some in Hsw
    as (rd & rc & rj & d & _ & _ & _ & Hrj & _ & ->).
  unfold facesDirection. simpl.
  destruct (jitter_range rj Hrj) as [Hlo Hhi]. apply facing_range; lra.
Qed.

Lemma tickClient_phase d0 c0 n st tape st' acts tape' :
  Bot.tickClient st tape = Some (st', acts, tape') ->
  botPhase d0 c0 n st ->
  botPhase d0 c0 (n + Z.of_nat (length (transmitted acts))) st'.
Proof.
  intros H Hp.
  apply tickClient_Some in H
    as [(_ & -> & -> & _) | (_ & _ & st1 & tape1 & r & Hdir & _ & _ & -> & ->)].
  { simpl. rewrite Z.add_0_r. exact Hp. }
  cbn [transmitted length]. change (Z.of_nat 1) with 1.
  destruct Hdir as [(Hpos & -> & _) | (Hle & Hsw)].
  - destruct Hp as [(Hn & Hd & Hr & Hc) | (Hn & Hf)].
    + left. simpl. repeat split; try assumption; lia.
    + right. split; [lia | exact Hf].
  - right. split.
    + destruct Hp as [(Hn & Hd & Hr & Hc) | (Hn & Hf)]; lia.
    + apply switchDirection_faces in Hsw. exact Hsw.
Qed.

Lemma bot_step_phase d0 c0 n e s tape s' acts tape' :
  Bot.step e s tape = Some (s', acts, tape') ->
  botPhase d0 c0 n (Bot.state s) ->
  botPhase d0 c0 (n + Z.of_nat (length (transmitted acts))) (Bot.state s').
Proof.
  destruct e; simpl; intros H Hp.
  - apply ret_Some in H. injection H as -> ->. simpl.
    rewrite Z.add_0_r. exact Hp.
  - destruct (Bot.conn (Bot.state s)); apply ret_Some in H;
      injection H as -> ->; simpl; rewrite Z.add_0_r; exact Hp.
  - destruct (Bot.conn (Bot.state s)); apply ret_Some in H;
      injection H as -> ->; simpl; rewrite Z.add_0_r; exact Hp.
  - destruct (Bot.tickHandle (Bot.state s)).
    2:{ apply ret_Some in H. injection H as -> ->. simpl.
        rewrite Z.add_0_r. exact Hp. }
    rand_inv H. destruct a as [st acts0]. apply ret_Some in H.
    injection H as -> -> ->. simpl. eapply tickClient_phase; eassumption.
  - apply ret_Some in H. unfold Bot.onDisconnect in H.
    destruct (Bot.tickHandle (Bot.state s)); injection H as -> ->;
      simpl; rewrite Z.add_0_r; exact Hp.
  - apply ret_Some in H. unfold Bot.stopBot in H.
    destruct (Bot.tickHandle (Bot.state s)); injection H as -> ->;
      simpl; rewrite Z.add_0_r; exact Hp.
Qed.

Lemma bot_run_phase d0 c0 es : forall n s tape s' acts tape',
  Bot.run es s tape = Some (s', acts, tape') ->
  botPhase d0 c0 n (Bot.state s) ->
  botPhase d0 c0 (n + Z.of_nat (length (transmitted acts))) (Bot.state s').
Proof.
  induction es as [|e es IH]; intros n s tape s' acts tape' H Hp.
  - apply ret_Some in H. injection H as -> -> ->. simpl.
    rewrite Z.add_0_r. exact Hp.
  - simpl in H. rand_inv H. destruct a as [s1 acts1].
    rand_inv H. destruct a as [s2 acts2]. apply ret_Some in H.
    injection H as -> -> ->.
    rewrite transmitted_app, length_app, Nat2Z.inj_add, Z.add_assoc.
    eapply IH; [exact Hm0|]. eapply bot_step_phase; eassumption.
Qed.

(** Throughout a bot session the countdown stays between 1 and 24, so a
    bot re-draws its direction at the latest on every 24th tick.  With c0
    the countdown and d0 the direction drawn at spawn, and n the number of
    inputs transmitted so far: as long as n < c0 the bot walks in d0 with
    rotation 0, whatever d0 is, and its countdown is c0 - n; from the
    c0-th transmission on, which is its first switch, its rotation is
    within 0.25 rad of the angle of the direction it walks in, bounds
    included. *)
Theorem bot_countdown_and_facing_invariant :
  forall clientId timeout tape0 sess tape1 es sess' acts tape2,
    Bot.spawnClient clientId timeout tape0 = Some (sess, tape1) ->
    Bot.run es sess tape1 = Some (sess', acts, tape2) ->
    let c0 := Bot.dirChangeCountdown (Bot.state sess) in
    let n := Z.of_nat (length (transmitted acts)) in
    1 <= Bot.dirChangeCountdown (Bot.state sess') <= 24
    /\ (n < c0 ->
        Bot.direction (Bot.state sess') = Bot.direction (Bot.state sess)
        /\ Bot.rotation (Bot.state sess') = 0%Q
        /\ Bot.dirChangeCountdown (Bot.state sess') = c0 - n)
    /\ (c0 <= n -> facesDirection (Bot.state sess')).
Proof.
  intros clientId timeout tape0 sess tape1 es sess' acts tape2 Hsp Hrun c0 n.
  assert (Hph : botPhase (Bot.direction (Bot.state sess)) c0 n (Bot.state sess')).
  { change n with (0 + n). eapply bot_run_phase; [exact Hrun|].
    apply spawnClient_Some in Hsp
      as (rk & rd & rc & cls & d & _ & _ & _ & Hrc & _ & ->).
    left. subst c0. simpl. pose proof (initialCountdown_range rc Hrc).
    repeat split; lia. }
  split; [|split].
  - apply spawnClient_Some in Hsp
      as (rk & rd & rc & cls & d & _ & _ & _ & Hrc & _ & ->).
    eapply (bot_run_preserves
              (fun st => 1 <= Bot.dirChangeCountdown st <= 24)); eauto.
    + intros; eapply tickClient_countdown; eassumption.
    + simpl. pose proof (initialCountdown_range rc Hrc). lia.
  - intros Hn. destruct Hph as [(_ & Hd & Hr & Hc) | (Hge & _)]; [auto | lia].
  - intros Hn. destruct Hph as [(Hlt & _) | (_ & Hf)]; [lia | exact Hf].
Qed.

Lemma bot_countdown_and_facing_invariant_witness :
  Bot.run shortHoldEvents demoBotStart shortHoldTape
  = Some (shortHoldEnd, shortHoldActions, [])
  /\ Bot.direction (Bot.state shortHoldEnd) = Bot.Backward
  /\ facesDirection (Bot.state shortHoldEnd).
Proof.
  split; [vm_compute; reflexivity|].
  split; [reflexivity|].
  refine (proj2 (proj2 (bot_countdown_and_facing_invariant 1 9%positive
                          (shortHoldSpawnTape ++ shortHoldTape) demoBotStart
                          shortHoldTape shortHoldEvents shortHoldEnd
                          shortHoldActions [] _ _)) _).
  - vm_compute. reflexivity.
  - vm_compute. reflexivity.
  - simpl. lia.
Defined.

(** *** What a bot reports *)

Lemma botInput_label_not_idle d seq r :
  Bot.animationFromInput (botInput d seq r) <> "idle".
Proof.
  unfold Bot.animationFromInput, botInput.
  destruct d; cbn; destruct (lt r lit_0_3); cbn; discriminate.
Qed.

Lemma bot_step_reports e s tape s' acts tape' :
  Bot.step e s tape = Some (s', acts, tape') -> Forall botReport acts.
Proof.
  destruct e; simpl; intros H.
  - apply ret_Some in H. injection H as -> ->. repeat constructor.
  - destruct (Bot.conn (Bot.state s)); apply ret_Some in H;
      injection H as -> ->; repeat constructor.
  - destruct (Bot.conn (Bot.state s)); apply ret_Some in H;
      injection H as -> ->; repeat constructor.
  - destruct (Bot.tickHandle (Bot.state s)).
    2:{ apply ret_Some in H. injection H as -> ->. constructor. }
    rand_inv H. destruct a as [st acts0]. apply ret_Some in H.
    injection H as -> -> ->.
    apply tickClient_Some in Hm
      as [(_ & -> & -> & _)
         | (_ & _ & st1 & tape1 & r & _ & _ & _ & -> & ->)];
      [constructor|].
    constructor; [|constructor]. simpl.
    repeat split; try reflexivity. apply botInput_label_not_idle.
  - apply ret_Some in H. unfold Bot.onDisconnect in H.
    destruct (Bot.tickHandle (Bot.state s)); injection H as -> ->;
      repeat constructor.
  - apply ret_Some in H. unfold Bot.stopBot in H.
    destruct (Bot.tickHandle (Bot.state s)); injection H as -> ->;
      repeat constructor.
Qed.

(** Whatever a bot session transmits, the position it reports is the
    origin, the rotation it reports is a pure yaw, and the animation label
    is the one [animationFromInput] derives from the transmitted input,
    which is always a walk or a run and never idle. *)
Theorem bot_reports_origin_and_moving_label :
  forall es sess tape sess' acts tape',
    Bot.run es sess tape = Some (sess', acts, tape') ->
    Forall botReport acts.
Proof.
  induction es as [|e es IH]; intros s tape s' acts tape' H.
  - apply ret_Some in H. injection H as -> -> ->. constructor.
  - simpl in H. rand_inv H. destruct a as [s1 acts1].
    rand_inv H. destruct a as [s2 acts2]. apply ret_Some in H.
    injection H as -> -> ->. apply Forall_app. split.
    + eapply bot_step_reports. exact Hm.
    + eapply IH. exact Hm0.
Qed.

Lemma bot_reports_origin_and_moving_label_witness :
  Forall botReport demoBotActions.
Proof.
  eapply (bot_reports_origin_and_moving_label demoBotEvents demoBotStart
            [1 # 2; 1 # 2]%Q _ demoBotActions _).
  vm_compute. reflexivity.
Defined.

(** *** Sequence numbers are consecutive *)

Lemma seqZ_snoc_step (m k : Z) :
  0 <= k -> seqZ m (k + 1) = seqZ m k ++ [m + k].
Proof.
  intros Hk. rewrite seqZ_app by lia. f_equal.
Qed.

Lemma bot_run_consecutive es : forall s tape s' acts tape',
  Bot.run es s tape = Some (s', acts, tape') ->
  0 <= Bot.sequence (Bot.state s) ->
  Bot.sequence (Bot.state s) + Z.of_nat (length es) <= TWO_53 ->
  transmittedSeqs acts
  = seqZ (Bot.sequence (Bot.state s) + 1)
         (Bot.sequence (Bot.state s') - Bot.sequence (Bot.state s)).
Proof.
  induction es as [|e es IH]; intros s tape s' acts tape' H H0 Hb.
  - apply ret_Some in H. injection H as -> -> ->. simpl.
    rewrite Z.sub_diag. reflexivity.
  - simpl in H. rand_inv H. destruct a as [s1 acts1].
    rand_inv H. destruct a as [s2 acts2]. apply ret_Some in H.
    injection H as -> -> ->.
    rewrite length_cons, Nat2Z.inj_succ in Hb.
    destruct (bot_run_seqs _ _ _ _ _ _ Hm0) as [Hr2 _].
    { destruct (bot_step_transmits _ _ _ _ _ _ Hm)
        as [[_ ->] | (d & r & _ & ->)];
        [lia | pose proof (num_incr_bounds (Bot.sequence (Bot.state s))); lia]. }
    { destruct (bot_step_transmits _ _ _ _ _ _ Hm)
        as [[_ ->] | (d & r & _ & ->)];
        [lia | pose proof (num_incr_bounds (Bot.sequence (Bot.state s))); lia]. }
    rewrite transmittedSeqs_app.
    destruct (bot_step_transmits _ _ _ _ _ _ Hm)
      as [[Ht Hq] | (d & r & Ht & Hq)].
    + rewrite (IH _ _ _ _ _ Hm0) by (rewrite ?Hq; lia).
      unfold transmittedSeqs. rewrite Ht, Hq. reflexivity.
    + rewrite num_incr_range in Hq by lia.
      rewrite (IH _ _ _ _ _ Hm0) by (rewrite ?Hq; lia).
      unfold transmittedSeqs at 1. rewrite Ht. simpl.
      rewrite num_incr_range by lia. rewrite Hq in *.
      rewrite (seqZ_cons (Bot.sequence (Bot.state s) + 1)) by lia.
      f_equal. f_equal; lia.
Qed.

Lemma gameLoop_due_sends now h s :
  lastSentBehind s -> 0 <= appSequence s < TWO_53 ->
  App.live s = true ->
  Qle_bool App.INPUT_SEND_INTERVAL (now - App.lastSendTime s) = true ->
  transmittedSeqs (snd (App.gameLoop now h s)) = [appSequence s + 1]
  /\ appSequence (fst (App.gameLoop now h s)) = appSequence s + 1.
Proof.
  intros Hb Hseq Hlive Hdue.
  unfold App.gameLoop. rewrite loop_guard_live, Hlive, Hdue.
  cbn [negb]. rewrite sendInput_spec.
  set (s1 := App.set_currentInputRef _ s).
  assert (Hs1 : appSequence s1 = appSequence s + 1).
  { subst s1. unfold appSequence. destruct s; simpl.
    rewrite setSequence_sequence. unfold appSequence in Hseq. simpl in Hseq.
    apply num_incr_range; lia. }
  assert (Hlv : App.live s1 = true) by (subst s1; destruct s; exact Hlive).
  assert (Hch : App.changed (App.currentInputRef s1)
                            (App.lastSentInputState s1) = true).
  { apply sequenceDiffers_changed. unfold App.sequenceDiffers.
    destruct (App.lastSentInputState s1) as [l|] eqn:Hl; [|reflexivity].
    assert (Hl' : App.lastSentInputState s = Some l)
      by (subst s1; destruct s; exact Hl).
    apply Hb in Hl'. apply negb_true_iff, Z.eqb_neq.
    fold (appSequence s1). lia. }
  rewrite Hlv, Hch. cbn [andb fst snd]. unfold transmittedSeqs.
  rewrite transmitted_app. cbn [transmitted map app]. fold (appSequence s1).
  rewrite Hs1. split; [reflexivity|].
  rewrite <- Hs1. clearbody s1. destruct s1; reflexivity.
Qed.

Lemma app_step_consecutive e s :
  lastSentBehind s -> 0 <= appSequence s < TWO_53 ->
  (transmitted (snd (App.step e s)) = []
   /\ appSequence (fst (App.step e s)) = appSequence s)
  \/ (transmittedSeqs (snd (App.step e s)) = [appSequence s + 1]
      /\ appSequence (fst (App.step e s)) = appSequence s + 1).
Proof.
  intros Hb Hseq.
  destruct (App.step e s) as [s' acts] eqn:Hstep.
  destruct e; simpl in Hstep.
  - injection Hstep as <- <-. left.
    unfold App.onConnect, App.registerTableCallbacks, App.subscribeToTables.
    destruct s; auto.
  - injection Hstep as <- <-. left. destruct s; auto.
  - left. unfold App.commit, App.gameLoopCleanup, App.gameLoopEffect in Hstep.
    destruct s as [? cn ? ? ? ? ? ? ? ? ? ? fr ? ? ec]; simpl in Hstep.
    destruct cn, ec, fr; simpl in Hstep; injection Hstep as <- <-; auto.
  - destruct (App.animationFrameIdRef s) eqn:Hf.
    2:{ injection Hstep as <- <-. left. auto. }
    destruct (App.live s) eqn:Hlive.
    + destruct (Qle_bool App.INPUT_SEND_INTERVAL (now - App.lastSendTime s))
        eqn:Hdue.
      * right. pose proof (gameLoop_due_sends now h s Hb Hseq Hlive Hdue) as H.
        rewrite Hstep in H. exact H.
      * left. unfold App.gameLoop in Hstep.
        rewrite loop_guard_live, Hlive, Hdue in Hstep. simpl in Hstep.
        injection Hstep as <- <-. destruct s; auto.
    + left. rewrite (gameLoop_not_live _ _ _ Hlive) in Hstep.
      injection Hstep as <- <-. rewrite Hf. destruct s; auto.
  - injection Hstep as <- <-. left. split; [reflexivity|].
    destruct (onSubscriptionApplied_frame rows s) as (m & o & o' & ->).
    destruct s; reflexivity.
  - injection Hstep as <- <-. left. split; [reflexivity|].
    unfold App.onInsert. case_match; destruct s; reflexivity.
  - injection Hstep as <- <-. left. split; [reflexivity|].
    unfold App.onUpdate. case_match; destruct s; reflexivity.
  - injection Hstep as <- <-. left. split; [reflexivity|].
    unfold App.onDelete. case_match; destruct s; reflexivity.
  - injection Hstep as <- <-. left. split; [reflexivity|].
    unfold App.handleKeyDown. repeat case_match; try reflexivity.
    unfold appSequence. destruct s; simpl. apply setProp_sequence.
  - injection Hstep as <- <-. left. split; [reflexivity|].
    unfold App.handleKeyUp. repeat case_match; try reflexivity.
    unfold appSequence. destruct s; simpl. apply setProp_sequence.
  - injection Hstep as <- <-. left. split; [reflexivity|].
    unfold App.handleMouseDown. repeat case_match; try reflexivity.
    unfold appSequence. destruct s; simpl. apply setAttack_sequence.
  - injection Hstep as <- <-. left. split; [reflexivity|].
    unfold App.handleMouseUp. repeat case_match; try reflexivity.
    unfold appSequence. destruct s; simpl. apply setAttack_sequence.
  - injection Hstep as <- <-. left. destruct s; auto.
  - unfold App.handleJoinGame in Hstep. destruct (App.conn s);
      injection Hstep as <- <-; left; destruct s; auto.
Qed.

Lemma app_run_consecutive es : forall s,
  lastSentBehind s -> 0 <= appSequence s ->
  appSequence s + Z.of_nat (length es) <= TWO_53 ->
  transmittedSeqs (snd (App.run es s))
  = seqZ (appSequence s + 1) (appSequence (fst (App.run es s)) - appSequence s)
  /\ appSequence s <= appSequence (fst (App.run es s))
     <= appSequence s + Z.of_nat (length es).
Proof.
  induction es as [|e es IH]; intros s Hb H0 Hlen.
  - simpl. rewrite Z.sub_diag. split; [reflexivity | lia].
  - rewrite length_cons, Nat2Z.inj_succ in Hlen |- *. simpl.
    pose proof (app_step_lastSentBehind e s Hb) as Hb1.
    pose proof (app_step_consecutive e s Hb ltac:(lia)) as Hstep.
    destruct (App.step e s) as [s1 acts1]. simpl in Hb1, Hstep.
    specialize (IH s1 Hb1).
    destruct (App.run es s1) as [s2 acts2]. simpl in IH |- *.
    rewrite transmittedSeqs_app.
    destruct Hstep as [[Ht Hq] | [Ht Hq]].
    + destruct IH as [IH1 IH2]; [lia | lia |].
      rewrite IH1. unfold transmittedSeqs. rewrite Ht, Hq in *.
      split; [reflexivity | lia].
    + destruct IH as [IH1 IH2]; [lia | lia |].
      rewrite IH1, Ht, Hq in *. split; [|lia]. simpl.
      rewrite (seqZ_cons (appSequence s + 1)) by lia.
      f_equal. f_equal; lia.
Qed.

(** The sequence numbers a session transmits are 1, 2, 3, ... without gap
    or repetition, and the counter of the session equals the number of
    inputs transmitted so far; for a bot session and for the interactive
    client alike, within the first 2^53 events. *)
Theorem sequence_numbers_are_consecutive :
  (forall clientId timeout tape0 sess tape1 es sess' acts tape2,
      Bot.spawnClient clientId timeout tape0 = Some (sess, tape1) ->
      Bot.run es sess tape1 = Some (sess', acts, tape2) ->
      Z.of_nat (length es) <= TWO_53 ->
      transmittedSeqs acts = seqZ 1 (Bot.sequence (Bot.state sess'))
      /\ Bot.sequence (Bot.state sess') = Z.of_nat (length (transmitted acts)))
  /\ (forall es,
        Z.of_nat (length es) <= TWO_53 ->
        transmittedSeqs (snd (App.run es App.init))
        = seqZ 1 (appSequence (fst (App.run es App.init)))
        /\ appSequence (fst (App.run es App.init))
           = Z.of_nat (length (transmitted (snd (App.run es App.init))))).
Proof.
  split.
  - intros clientId timeout tape0 sess tape1 es sess' acts tape2 Hsp Hrun Hlen.
    apply spawnClient_Some in Hsp
      as (rk & rd & rc & cls & d & _ & _ & _ & _ & _ & ->).
    pose proof (bot_run_consecutive _ _ _ _ _ _ Hrun) as Hc.
    destruct (bot_run_seqs _ _ _ _ _ _ Hrun) as [Hr _]; simpl; [lia | lia |].
    simpl in Hc, Hr. rewrite Z.sub_0_r in Hc.
    assert (Hseqs : transmittedSeqs acts = seqZ 1 (Bot.sequence (Bot.state sess')))
      by (apply Hc; lia).
    split; [exact Hseqs|].
    apply (f_equal length) in Hseqs. unfold transmittedSeqs in Hseqs.
    rewrite length_map, length_seqZ in Hseqs. lia.
  - intros es Hlen.
    destruct (app_run_consecutive es App.init) as [Hc Hr].
    { intros l Hl. discriminate. }
    { unfold appSequence. simpl. lia. }
    { unfold appSequence. simpl. lia. }
    unfold appSequence at 1 3 in Hc. simpl in Hc. rewrite Z.sub_0_r in Hc.
    split; [exact Hc|].
    apply (f_equal length) in Hc. unfold transmittedSeqs in Hc.
    rewrite length_map, length_seqZ in Hc.
    unfold appSequence at 1 in Hr. simpl in Hr. lia.
Qed.

Lemma sequence_numbers_are_consecutive_witness :
  transmittedSeqs (snd (App.run demoAppEvents App.init))
  = seqZ 1 (appSequence (fst (App.run demoAppEvents App.init))).
Proof.
  apply (proj2 sequence_numbers_are_consecutive demoAppEvents).
  vm_compute. discriminate.
Defined.

(** *** Holding a direction *)

(** A registered, ticking bot whose countdown is c keeps its direction and
    rotation through the next n ticks for every n below c: each of those
    ticks lowers the countdown by one, transmits one input and draws a
    single random number (for sprint). *)
Theorem bot_holds_direction_while_counting_down :
  forall n sess tape,
    is_Some (Bot.conn (Bot.state sess)) ->
    Bot.registered (Bot.state sess) = true ->
    is_Some (Bot.tickHandle (Bot.state sess)) ->
    Z.of_nat n < Bot.dirChangeCountdown (Bot.state sess) ->
    validTape tape -> (n <= length tape)%nat ->
    exists sess' acts,
      Bot.run (replicate n Bot.Tick) sess tape = Some (sess', acts, drop n tape)
      /\ Bot.direction (Bot.state sess') = Bot.direction (Bot.state sess)
      /\ Bot.rotation (Bot.state sess') = Bot.rotation (Bot.state sess)
      /\ Bot.dirChangeCountdown (Bot.state sess')
         = Bot.dirChangeCountdown (Bot.state sess) - Z.of_nat n
      /\ length (transmitted acts) = n.
Proof.
  intros n sess tape Hc Hreg Hth Hcd Hv Hlen.
  destruct (bot_run_holds n sess tape) as (sess' & acts & Hrun & _ & Hd & Hr & Hc' & Hs);
    [repeat split; assumption | assumption | assumption | assumption |].
  exists sess', acts. repeat split; try assumption.
  unfold directionsSent in Hs.
  rewrite <- (length_map directionOf), Hs, length_replicate. reflexivity.
Qed.

Lemma bot_holds_direction_while_counting_down_witness :
  exists sess' acts,
    Bot.run (replicate 2 Bot.Tick) holdingSession [1 # 2; 1 # 2]%Q
    = Some (sess', acts, drop 2 [1 # 2; 1 # 2]%Q)
    /\ Bot.direction (Bot.state sess') = Bot.direction (Bot.state holdingSession)
    /\ Bot.rotation (Bot.state sess') = Bot.rotation (Bot.state holdingSession)
    /\ Bot.dirChangeCountdown (Bot.state sess')
       = Bot.dirChangeCountdown (Bot.state holdingSession) - Z.of_nat 2
    /\ length (transmitted acts) = 2%nat.
Proof.
  apply (bot_holds_direction_while_counting_down 2 holdingSession
           [1 # 2; 1 # 2]%Q).
  - eexists. reflexivity.
  - reflexivity.
  - eexists. reflexivity.
  - vm_compute. reflexivity.
  - repeat constructor.
  - simpl. lia.
Defined.

(** *** The steps of the interactive client, case by case *)

(** What a frame does: nothing but cancel itself when the session is not
    live; only re-arm when no send is due; otherwise stamp the sequence
    number, send when the gate finds a change, note the time, and re-arm. *)
Lemma gameLoop_cases now h s :
  App.gameLoop now h s
  = if negb (App.live s)
    then (App.set_animationFrameIdRef None s,
          match App.animationFrameIdRef s with
          | Some h0 => [CancelAnimationFrame h0]
          | None => []
          end)
    else if negb (Qle_bool App.INPUT_SEND_INTERVAL (now - App.lastSendTime s))
    then (App.set_animationFrameIdRef (Some h) s, [RequestAnimationFrame h])
    else if App.changed (App.currentInputRef (stamped s))
                        (App.lastSentInputState s)
    then (App.set_animationFrameIdRef (Some h)
            (App.set_lastSendTime now
               (App.set_lastSentInputState
                  (Some (App.currentInputRef (stamped s))) (stamped s))),
          [sendAction (stamped s); RequestAnimationFrame h])
    else (App.set_animationFrameIdRef (Some h)
            (App.set_lastSendTime now (stamped s)),
          [RequestAnimationFrame h]).
Proof.
  destruct (App.live s) eqn:Hlive; cbn [negb].
  2:{ apply gameLoop_not_live, Hlive. }
  unfold App.gameLoop. rewrite loop_guard_live, Hlive. cbn [negb].
  destruct (Qle_bool App.INPUT_SEND_INTERVAL (now - App.lastSendTime s));
    cbn [negb]; [|reflexivity].
  fold (stamped s). rewrite sendInput_spec.
  replace (App.live (stamped s)) with true
    by (unfold stamped; destruct s; symmetry; exact Hlive).
  replace (App.lastSentInputState (stamped s)) with (App.lastSentInputState s)
    by (unfold stamped; destruct s; reflexivity).
  cbn [andb].
  destruct (App.changed (App.currentInputRef (stamped s))
                        (App.lastSentInputState s)); reflexivity.
Qed.

Lemma stamped_frame s :
  App.lastSentInputState (stamped s) = App.lastSentInputState s
  /\ App.lastSendTime (stamped s) = App.lastSendTime s
  /\ App.conn (stamped s) = App.conn s
  /\ App.currentInputRef (stamped s)
     = App.setSequence (num_incr (appSequence s)) (App.currentInputRef s).
Proof. unfold stamped, appSequence. destruct s; repeat split; reflexivity. Qed.

(** Every event other than a frame transmits nothing, leaves the last-sent
    snapshot alone, and edits the live input at most by one flag. *)
Lemma app_step_quiet e s :
  isFrame e = false ->
  transmitted (snd (App.step e s)) = []
  /\ App.lastSentInputState (fst (App.step e s)) = App.lastSentInputState s
  /\ (isCommit e = false ->
      App.lastSendTime (fst (App.step e s)) = App.lastSendTime s)
  /\ inputEdit (App.currentInputRef s) (App.currentInputRef (fst (App.step e s))).
Proof.
  intros He. unfold inputEdit. destruct e; try discriminate; simpl.
  - unfold App.onConnect, App.registerTableCallbacks, App.subscribeToTables.
    destruct s; simpl; auto.
  - destruct s; simpl; auto.
  - unfold App.commit, App.gameLoopCleanup, App.gameLoopEffect.
    destruct s as [? cn ? ? ? ? ? ? ? ? ? ? fr ? ? ec]; simpl.
    destruct cn, ec, fr; simpl; repeat split; auto; discriminate.
  - destruct (onSubscriptionApplied_frame rows s) as (m & o & o' & ->).
    destruct s; simpl; auto.
  - unfold App.onInsert. case_match; destruct s; simpl; auto.
  - unfold App.onUpdate. case_match; destruct s; simpl; auto.
  - unfold App.onDelete. case_match; destruct s; simpl; auto.
  - unfold App.handleKeyDown. repeat case_match; auto.
    destruct s; simpl. repeat split; eauto.
  - unfold App.handleKeyUp. repeat case_match; auto.
    destruct s; simpl. repeat split; eauto.
  - unfold App.handleMouseDown. repeat case_match; auto.
    destruct s; simpl. repeat split; eauto.
  - unfold App.handleMouseUp. repeat case_match; auto.
    destruct s; simpl. repeat split; eauto.
  - destruct s; simpl; auto.
  - unfold App.handleJoinGame. destruct (App.conn s); destruct s; simpl; auto.
Qed.

(** *** The last-sent snapshot *)

Lemma app_step_lastSent e s :
  (transmitted (snd (App.step e s)) = []
   /\ App.lastSentInputState (fst (App.step e s)) = App.lastSentInputState s)
  \/ (exists i,
        transmitted (snd (App.step e s)) = [i]
        /\ App.lastSentInputState (fst (App.step e s)) = Some i).
Proof.
  destruct (isFrame e) eqn:He.
  2:{ left. destruct (app_step_quiet e s He) as (Ht & Hl & _). auto. }
  destruct e; try discriminate. simpl.
  destruct (App.animationFrameIdRef s) eqn:Hf; [|left; auto].
  rewrite gameLoop_cases.
  destruct (App.live s); cbn [negb].
  2:{ left. rewrite Hf. destruct s; auto. }
  destruct (Qle_bool App.INPUT_SEND_INTERVAL (now - App.lastSendTime s));
    cbn [negb]; [|left; destruct s; auto].
  destruct (App.changed _ _).
  - right. eexists. split; [reflexivity|]. unfold stamped. destruct s; reflexivity.
  - left. unfold stamped. destruct s; auto.
Qed.

Lemma app_run_lastSent es : forall s,
  App.lastSentInputState (fst (App.run es s))
  = match last (transmitted (snd (App.run es s))) with
    | Some i => Some i
    | None => App.lastSentInputState s
    end.
Proof.
  induction es as [|e es IH]; intros s; [reflexivity|]. simpl.
  pose proof (app_step_lastSent e s) as Hstep.
  destruct (App.step e s) as [s1 acts1]. simpl in Hstep.
  specialize (IH s1). destruct (App.run es s1) as [s2 acts2]. simpl in IH |- *.
  rewrite IH, transmitted_app.
  destruct Hstep as [[-> ->] | (i & -> & ->)]; [reflexivity|].
  simpl. destruct (transmitted acts2) as [|j l]; [reflexivity|].
  simpl. destruct (last (j :: l)) eqn:Hl; [reflexivity|].
  apply last_None in Hl. discriminate.
Qed.

(** In every run of the interactive client the last-sent snapshot is the
    input most recently handed to [updatePlayerInput], and is empty as long
    as nothing has been transmitted; and a second [sendInput] with the
    input just offered never transmits. *)
Theorem last_sent_is_last_transmitted :
  (forall es,
      App.lastSentInputState (fst (App.run es App.init))
      = last (transmitted (snd (App.run es App.init))))
  /\ (forall cur s,
        snd (App.sendInput cur (fst (App.sendInput cur s))) = []).
Proof.
  split.
  - intros es. rewrite app_run_lastSent.
    destruct (last _); reflexivity.
  - intros cur s. rewrite (sendInput_spec cur s).
    destruct (App.live s && App.changed cur (App.lastSentInputState s)) eqn:Hg;
      cbn [fst]; rewrite sendInput_spec.
    + apply andb_true_iff in Hg as [Hl _].
      replace (App.live (App.set_lastSentInputState (Some cur) s)) with true
        by (destruct s; symmetry; exact Hl).
      replace (App.lastSentInputState (App.set_lastSentInputState (Some cur) s))
        with (Some cur) by (destruct s; reflexivity).
      rewrite changed_same. reflexivity.
    + rewrite Hg. reflexivity.
Qed.

(** *** What the interactive client reports *)

Lemma determineAnimation_not_cast i :
  InputState.castSpell i = false -> App.determineAnimation i <> "cast".
Proof.
  destruct i as [f b l r sp j a c n e]. simpl. intros ->.
  destruct a, j; try discriminate; destruct f, b, l, r, sp; discriminate.
Qed.

Lemma inputEdit_castSpell i i' :
  inputEdit i i' -> InputState.castSpell i' = InputState.castSpell i.
Proof.
  intros [-> | [(a & b & ->) | [(b & ->) | (n & ->)]]];
    destruct i; try (destruct a as [[]|name]); reflexivity.
Qed.

Lemma silent_appReport acts :
  transmitted acts = [] -> Forall appReport acts.
Proof.
  induction acts as [|a acts IH]; [constructor|].
  destruct a; simpl; intros H; try discriminate;
    (constructor; [exact I | apply IH, H]).
Qed.

Lemma app_step_castSpell e s :
  InputState.castSpell (App.currentInputRef s) = false ->
  InputState.castSpell (App.currentInputRef (fst (App.step e s))) = false
  /\ Forall appReport (snd (App.step e s)).
Proof.
  intros Hc. destruct (isFrame e) eqn:He.
  2:{ destruct (app_step_quiet e s He) as (Ht & _ & _ & Hed).
      split; [rewrite (inputEdit_castSpell _ _ Hed); exact Hc|].
      apply silent_appReport, Ht. }
  destruct e; try discriminate. simpl.
  destruct (App.animationFrameIdRef s) eqn:Hf; [|split; [exact Hc|constructor]].
  rewrite gameLoop_cases.
  assert (Hst : InputState.castSpell (App.currentInputRef (stamped s)) = false).
  { destruct (stamped_frame s) as (_ & _ & _ & ->).
    destruct (App.currentInputRef s); exact Hc. }
  destruct (App.live s); cbn [negb].
  2:{ rewrite Hf. split; [destruct s; exact Hc | repeat constructor]. }
  destruct (Qle_bool App.INPUT_SEND_INTERVAL (now - App.lastSendTime s));
    cbn [negb]; [|split; [destruct s; exact Hc | repeat constructor]].
  destruct (App.changed _ _); cbn [fst snd].
  - split.
    + clear - Hst. destruct (stamped s); exact Hst.
    + constructor; [|repeat constructor]. unfold sendAction, appReport.
      split; [exact Hst|]. split; [reflexivity|].
      apply determineAnimation_not_cast, Hst.
  - split; [|repeat constructor].
    clear - Hst. destruct (stamped s); exact Hst.
Qed.

(** The interactive client never casts: no handler sets [castSpell], so in
    every run every transmitted input has it off, and the label sent along,
    which is always the one [determineAnimation] derives from that input,
    is never the cast label. *)
Theorem interactive_client_never_casts :
  forall es,
    InputState.castSpell (App.currentInputRef (fst (App.run es App.init))) = false
    /\ Forall appReport (snd (App.run es App.init)).
Proof.
  intros es.
  assert (H : forall s,
             InputState.castSpell (App.currentInputRef s) = false ->
             InputState.castSpell (App.currentInputRef (fst (App.run es s)))
             = false
             /\ Forall appReport (snd (App.run es s))).
  { induction es as [|e es IH]; intros s Hc; [split; [exact Hc|constructor]|].
    simpl. destruct (app_step_castSpell e s Hc) as [Hc1 Ha1].
    destruct (App.step e s) as [s1 acts1]. simpl in Hc1, Ha1.
    destruct (IH s1 Hc1) as [Hc2 Ha2].
    destruct (App.run es s1) as [s2 acts2]. simpl in *.
    split; [exact Hc2 | apply Forall_app; auto]. }
  apply H. reflexivity.
Qed.

(** *** The pace of the game loop *)

Lemma app_step_rendered e s :
  isConnect e = false -> isDisconnect e = false -> rendered s ->
  rendered (fst (App.step e s))
  /\ (isFrame e = false ->
      App.lastSendTime (fst (App.step e s)) = App.lastSendTime s).
Proof.
  unfold rendered. intros Hc Hd Hr.
  destruct e; try discriminate; simpl.
  - unfold App.commit. rewrite Hr, eqb_reflx. auto.
  - split; [|discriminate].
    destruct (App.animationFrameIdRef s) eqn:Hf; [|exact Hr].
    rewrite gameLoop_cases.
    destruct (App.live s); cbn [negb]; [|destruct s; exact Hr].
    destruct (Qle_bool _ _); cbn [negb]; [|destruct s; exact Hr].
    destruct (App.changed _ _); unfold stamped; destruct s; exact Hr.
  - destruct (onSubscriptionApplied_frame rows s) as (m & o & o' & ->).
    destruct s; auto.
  - unfold App.onInsert. case_match; destruct s; auto.
  - unfold App.onUpdate. case_match; destruct s; auto.
  - unfold App.onDelete. case_match; destruct s; auto.
  - unfold App.handleKeyDown. repeat case_match; auto; destruct s; auto.
  - unfold App.handleKeyUp. repeat case_match; auto; destruct s; auto.
  - unfold App.handleMouseDown. repeat case_match; auto; destruct s; auto.
  - unfold App.handleMouseUp. repeat case_match; auto; destruct s; auto.
  - destruct s; auto.
  - unfold App.handleJoinGame. destruct (App.conn s); destruct s; auto.
Qed.

Lemma frame_pace now h s :
  (transmitted (snd (App.step (App.Frame now h) s)) = []
   /\ (App.lastSendTime s
       <= App.lastSendTime (fst (App.step (App.Frame now h) s)))%Q)
  \/ (transmitted (snd (App.step (App.Frame now h) s)) <> []
      /\ (App.lastSendTime s + App.INPUT_SEND_INTERVAL <= now)%Q
      /\ App.lastSendTime (fst (App.step (App.Frame now h) s)) = now).
Proof.
  simpl. destruct (App.animationFrameIdRef s) eqn:Hf;
    [|left; split; [reflexivity | apply Qle_refl]].
  rewrite gameLoop_cases.
  destruct (App.live s); cbn [negb].
  2:{ left. rewrite Hf. split; [reflexivity|]. destruct s; apply Qle_refl. }
  destruct (Qle_bool App.INPUT_SEND_INTERVAL (now - App.lastSendTime s)) eqn:Hdue;
    cbn [negb].
  2:{ left. split; [reflexivity|]. destruct s; apply Qle_refl. }
  apply Qle_bool_iff in Hdue. unfold App.INPUT_SEND_INTERVAL in *.
  destruct (App.changed _ _); cbn [fst snd].
  - right. split; [discriminate|]. split; [lra|].
    unfold stamped. destruct s; reflexivity.
  - left. split; [reflexivity|].
    assert (Hls : App.lastSendTime
                    (App.set_animationFrameIdRef (Some h)
                       (App.set_lastSendTime now (stamped s))) = now)
      by (unfold stamped; destruct s; reflexivity).
    rewrite Hls. lra.
Qed.

Lemma spacedFrom_earlier t t' l :
  (t' <= t)%Q -> spacedFrom t l -> spacedFrom t' l.
Proof.
  destruct l as [|x l]; [auto|]. simpl. intros Hle [Hx Hl].
  split; [lra | exact Hl].
Qed.

Lemma app_run_paced es : forall s,
  forallb (fun e => negb (isConnect e) && negb (isDisconnect e)) es = true ->
  rendered s ->
  spacedFrom (App.lastSendTime s) (sendTimes es s).
Proof.
  induction es as [|e es IH]; intros s Hes Hr; [exact I|].
  simpl in Hes. apply andb_true_iff in Hes as [He Hes].
  apply andb_true_iff in He as [Hc Hd].
  apply negb_true_iff in Hc, Hd.
  destruct (app_step_rendered e s Hc Hd Hr) as [Hr1 Ht1].
  simpl. destruct (App.step e s) as [s1 acts1] eqn:Hstep.
  simpl in Hr1, Ht1. specialize (IH s1 Hes Hr1).
  destruct (isFrame e) eqn:Hf.
  - destruct e; try discriminate.
    pose proof (frame_pace now h s) as Hp. rewrite Hstep in Hp. simpl in Hp.
    destruct Hp as [[Ht Hle] | (Ht & Hle & Hnow)].
    + rewrite Ht. eapply spacedFrom_earlier; eassumption.
    + destruct (transmitted acts1); [congruence|].
      simpl. rewrite Hnow in IH. split; assumption.
  - rewrite <- (Ht1 eq_refl).
    destruct e; try discriminate; exact IH.
Qed.

(** Within one connection the interactive client never sends faster than
    every 50 ms: with frame times taken as exact numbers, in a run without
    connect or disconnect, started once the game-loop effect has run, every
    transmitting frame comes at least [INPUT_SEND_INTERVAL] after the
    previous one, whatever the frame rate and whatever else happens in
    between. *)
Theorem sends_are_at_least_an_interval_apart :
  forall es s,
    forallb (fun e => negb (isConnect e) && negb (isDisconnect e)) es = true ->
    rendered s ->
    spacedFrom (App.lastSendTime s) (sendTimes es s).
Proof. exact app_run_paced. Qed.

Lemma sends_are_at_least_an_interval_apart_witness :
  sendTimes pacedEvents armedState = [60; 110; 161]%Q
  /\ spacedFrom (App.lastSendTime armedState) (sendTimes pacedEvents armedState).
Proof.
  split; [reflexivity|].
  apply (sends_are_at_least_an_interval_apart pacedEvents armedState);
    reflexivity.
Defined.

(** *** No transmission before the subscription *)

Lemma silent_enabledBefore enables seen acts :
  transmitted acts = [] -> enabledBefore enables seen acts = true.
Proof.
  revert seen. induction acts as [|a acts IH]; intros seen; [reflexivity|].
  destruct a; simpl; intros H; try discriminate; apply IH, H.
Qed.

Lemma app_step_conn_kept e s :
  isConnect e = false ->
  is_Some (App.conn (fst (App.step e s))) -> is_Some (App.conn s).
Proof.
  intros He. destruct e; try discriminate; simpl.
  - destruct s; simpl. intros [x Hx]. discriminate.
  - unfold App.commit, App.gameLoopCleanup, App.gameLoopEffect.
    destruct s as [? cn ? ? ? ? ? ? ? ? ? ? fr ? ? ec]; simpl.
    destruct cn, ec, fr; simpl; auto.
  - destruct (App.animationFrameIdRef s) eqn:Hf; [|auto].
    rewrite gameLoop_cases.
    destruct (App.live s); cbn [negb]; [|destruct s; auto].
    destruct (Qle_bool _ _); cbn [negb]; [|destruct s; auto].
    destruct (App.changed _ _); unfold stamped; destruct s; auto.
  - destruct (onSubscriptionApplied_frame rows s) as (m & o & o' & ->).
    destruct s; auto.
  - unfold App.onInsert. case_match; destruct s; auto.
  - unfold App.onUpdate. case_match; destruct s; auto.
  - unfold App.onDelete. case_match; destruct s; auto.
  - unfold App.handleKeyDown. repeat case_match; auto; destruct s; auto.
  - unfold App.handleKeyUp. repeat case_match; auto; destruct s; auto.
  - unfold App.handleMouseDown. repeat case_match; auto; destruct s; auto.
  - unfold App.handleMouseUp. repeat case_match; auto; destruct s; auto.
  - destruct s; auto.
  - unfold App.handleJoinGame. destruct (App.conn s) eqn:Hc; simpl.
    + intros _. eauto.
    + rewrite Hc. auto.
Qed.

Lemma app_step_subscribed e s seen :
  (is_Some (App.conn s) -> seen = true) ->
  enabledBefore isSubscribe seen (snd (App.step e s)) = true
  /\ (is_Some (App.conn (fst (App.step e s))) ->
      seen || existsb isSubscribe (snd (App.step e s)) = true).
Proof.
  intros Hseen. split.
  - destruct seen; [apply enabledBefore_seen|].
    apply silent_enabledBefore.
    destruct (isFrame e) eqn:Hf; [|apply app_step_quiet, Hf].
    destruct (App.conn s) eqn:Hc.
    { assert (false = true) by (apply Hseen; eauto). discriminate. }
    apply app_step_dead; [exact Hc|]. destruct e; try discriminate. reflexivity.
  - destruct (isConnect e) eqn:He.
    + destruct e; try discriminate. intros _. simpl.
      unfold App.onConnect, App.registerTableCallbacks, App.subscribeToTables.
      destruct s; simpl. apply orb_true_r.
    + intros Hc. apply app_step_conn_kept in Hc; [|exact He].
      rewrite (Hseen Hc). reflexivity.
Qed.

Lemma app_run_subscribed es : forall s seen,
  (is_Some (App.conn s) -> seen = true) ->
  enabledBefore isSubscribe seen (snd (App.run es s)) = true.
Proof.
  induction es as [|e es IH]; intros s seen Hseen; [reflexivity|]. simpl.
  destruct (app_step_subscribed e s seen Hseen) as [H1 Hc1].
  destruct (App.step e s) as [s1 acts1]. simpl in H1, Hc1.
  specialize (IH s1 (seen || existsb isSubscribe acts1) Hc1).
  destruct (App.run es s1) as [s2 acts2]. simpl in *.
  rewrite enabledBefore_app, H1, IH. reflexivity.
Qed.

(** The interactive client never sends input before it has subscribed: in
    the actions of every run each [updatePlayerInput] call comes after a
    [subscribe] call. *)
Theorem interactive_client_subscribes_before_transmitting :
  forall es, enabledBefore isSubscribe false (snd (App.run es App.init)) = true.
Proof.
  intros es. apply app_run_subscribed. intros [x Hx]. discriminate.
Qed.

(** *** The player map under the table callbacks *)

Lemma onInsert_players p s :
  App.players (App.onInsert p s) = <[PlayerData.identity p := p]> (App.players s).
Proof. unfold App.onInsert. case_match; destruct s; reflexivity. Qed.

Lemma onUpdate_players o n s :
  App.players (App.onUpdate o n s) = <[PlayerData.identity n := n]> (App.players s).
Proof. unfold App.onUpdate. case_match; destruct s; reflexivity. Qed.

Lemma onDelete_players p s :
  App.players (App.onDelete p s) = delete (PlayerData.identity p) (App.players s).
Proof. unfold App.onDelete. case_match; destruct s; reflexivity. Qed.

(** The table callbacks keep, per identity, the row written last: an insert
    or update stores the row under its identity, replacing wholesale what
    was there and touching no other identity; an update ignores the old row
    it is told about; a delete removes the identity and nothing else; and
    deleting a row that was just inserted leaves the map as it was without
    that identity. *)
Theorem table_callbacks_keep_latest_row :
  (forall p s k,
      App.players (App.onInsert p s) !! k
      = if decide (PlayerData.identity p = k) then Some p else App.players s !! k)
  /\ (forall o n s, App.players (App.onUpdate o n s) = App.players (App.onInsert n s))
  /\ (forall p s k,
        App.players (App.onDelete p s) !! k
        = if decide (PlayerData.identity p = k) then None else App.players s !! k)
  /\ (forall p o n s,
        PlayerData.identity n = PlayerData.identity p ->
        App.players (App.onUpdate o n (App.onInsert p s))
        = App.players (App.onInsert n s))
  /\ (forall p s,
        App.players (App.onDelete p (App.onInsert p s))
        = delete (PlayerData.identity p) (App.players s)).
Proof.
  split; [|split; [|split; [|split]]].
  - intros p s k. rewrite onInsert_players. apply lookup_insert.
  - intros o n s. rewrite onUpdate_players, onInsert_players. reflexivity.
  - intros p s k. rewrite onDelete_players. apply lookup_delete.
  - intros p o n s Hid.
    rewrite onUpdate_players, !onInsert_players, Hid. apply insert_insert_eq.
  - intros p s. rewrite onDelete_players, onInsert_players.
    apply delete_insert_eq.
Qed.

Lemma table_callbacks_keep_latest_row_witness :
  PlayerData.identity rowAda = PlayerData.identity rowAda
  /\ App.players (App.onUpdate rowBob rowAda (App.onInsert rowAda connectedState))
     = App.players (App.onInsert rowAda connectedState).
Proof.
  split; [reflexivity|].
  apply (proj1 (proj2 (proj2 (proj2 table_callbacks_keep_latest_row)))).
  reflexivity.
Defined.

(** *** The guard of the loop and of the gate *)

Lemma isLocal_spec p s :
  App.isLocal p s = true <-> App.identityRef s = Some (PlayerData.identity p).
Proof.
  unfold App.isLocal. destruct (App.identityRef s) as [id|].
  - rewrite String.eqb_eq. split; congruence.
  - split; discriminate.
Qed.

Lemma guardRefsAgree_frame s s' :
  App.conn s' = App.conn s -> App.identityRef s' = App.identityRef s ->
  App.connectedRef s' = App.connectedRef s ->
  guardRefsAgree s -> guardRefsAgree s'.
Proof. unfold guardRefsAgree. intros -> -> ->. auto. Qed.

Lemma app_step_guardRefs e s :
  guardRefsAgree s -> guardRefsAgree (fst (App.step e s)).
Proof.
  intros Hg. destruct e; simpl.
  - unfold guardRefsAgree. destruct s; simpl. split; split; eauto.
  - unfold guardRefsAgree. destruct s; simpl.
    split; split; try discriminate; intros [x Hx]; discriminate.
  - unfold App.commit, App.gameLoopCleanup, App.gameLoopEffect.
    destruct s as [? cn ? ? ? ? ? ? ? ? ? ? fr ? ? ec]; simpl in *.
    destruct cn, ec, fr; simpl; exact Hg.
  - destruct (App.animationFrameIdRef s) eqn:Hf; [|exact Hg].
    rewrite gameLoop_cases.
    destruct (App.live s); cbn [negb]; [|destruct s; exact Hg].
    destruct (Qle_bool _ _); cbn [negb]; [|destruct s; exact Hg].
    destruct (App.changed _ _); unfold stamped; destruct s; exact Hg.
  - destruct (onSubscriptionApplied_frame rows s) as (m & o & o' & ->).
    destruct s; exact Hg.
  - unfold App.onInsert. case_match; destruct s; exact Hg.
  - unfold App.onUpdate. case_match; destruct s; exact Hg.
  - unfold App.onDelete. case_match; destruct s; exact Hg.
  - unfold App.handleKeyDown. repeat case_match; try exact Hg;
      destruct s; exact Hg.
  - unfold App.handleKeyUp. repeat case_match; try exact Hg;
      destruct s; exact Hg.
  - unfold App.handleMouseDown. repeat case_match; try exact Hg;
      destruct s; exact Hg.
  - unfold App.handleMouseUp. repeat case_match; try exact Hg;
      destruct s; exact Hg.
  - destruct s; exact Hg.
  - unfold App.handleJoinGame. destruct (App.conn s) eqn:Hcn; [|exact Hg].
    eapply guardRefsAgree_frame; [| | |exact Hg]; destruct s; reflexivity.
Qed.

Lemma app_run_guardRefs es : forall s,
  guardRefsAgree s -> guardRefsAgree (fst (App.run es s)).
Proof.
  induction es as [|e es IH]; intros s Hm; [exact Hm|]. simpl.
  pose proof (app_step_guardRefs e s Hm) as H1.
  destruct (App.step e s) as [s1 acts1]. simpl in H1.
  specialize (IH s1 H1). destruct (App.run es s1) as [s2 acts2]. exact IH.
Qed.

(** In every run of the interactive client the module variable [conn] and
    the refs [identityRef] and [connectedRef] are set together and cleared
    together: only [onConnect] and [onDisconnect] write them, and each
    writes all three at once.  So the three tests of the guard of
    [gameLoop] and of [sendInput] pass or fail as one, and the guard passes
    exactly while there is a connection. *)
Theorem guard_refs_set_and_cleared_together :
  forall es,
    let s := fst (App.run es App.init) in
    guardRefsAgree s
    /\ App.live s = bool_decide (is_Some (App.conn s))
    /\ App.live s = bool_decide (is_Some (App.identityRef s))
    /\ App.live s = App.connectedRef s.
Proof.
  intros es s.
  assert (Hg : guardRefsAgree s).
  { apply app_run_guardRefs. unfold guardRefsAgree. simpl.
    split; split; try discriminate; intros [x Hx]; discriminate. }
  split; [exact Hg|]. clearbody s. destruct Hg as [Hci Hcc].
  unfold App.live.
  destruct (bool_decide (is_Some (App.conn s))) eqn:Hc.
  - apply bool_decide_eq_true in Hc.
    rewrite (bool_decide_eq_true_2 _ (proj1 Hci Hc)), (proj2 Hcc Hc). auto.
  - apply bool_decide_eq_false in Hc.
    assert (Hi : ~ is_Some (App.identityRef s)) by (rewrite <- Hci; exact Hc).
    rewrite (bool_decide_eq_false_2 _ Hi).
    destruct (App.connectedRef s) eqn:Hr; [|auto].
    exfalso. apply Hc, Hcc. reflexivity.
Qed.

(** *** The local player is a row of the session's own identity *)

Lemma aliasOwn_frame s s' :
  App.localPlayerRef s' = App.localPlayerRef s ->
  App.identityRef s' = App.identityRef s ->
  aliasOwn s = true -> aliasOwn s' = true.
Proof. unfold aliasOwn, App.isLocal. intros -> ->. auto. Qed.

Lemma aliasOwn_set p s :
  App.isLocal p s = true ->
  aliasOwn (App.set_localPlayerRef (Some p) (App.set_localPlayer (Some p) s))
  = true.
Proof. intros H. destruct s; exact H. Qed.

Lemma backfill_fold_aliasOwn rows : forall m s,
  aliasOwn s = true ->
  aliasOwn (snd (fold_left App.backfillRow rows (m, s))) = true.
Proof.
  induction rows as [|q rows IH]; intros m s Ha; [exact Ha|].
  simpl. destruct (App.isLocal q s) eqn:Hq; apply IH; [|exact Ha].
  apply aliasOwn_set, Hq.
Qed.

Lemma app_step_aliasOwn e s :
  aliasOwn s = true ->
  (isConnect e = true -> App.localPlayerRef s = None) ->
  aliasOwn (fst (App.step e s)) = true.
Proof.
  intros Ha Hfresh. destruct e; simpl.
  - unfold aliasOwn. destruct s; simpl in *. rewrite (Hfresh eq_refl).
    reflexivity.
  - destruct s; reflexivity.
  - unfold App.commit, App.gameLoopCleanup, App.gameLoopEffect.
    destruct s as [? cn ? ? ? ? ? ? ? ? ? ? fr ? ? ec]; simpl in *.
    destruct cn, ec, fr; simpl; exact Ha.
  - destruct (App.animationFrameIdRef s) eqn:Hf; [|exact Ha].
    rewrite gameLoop_cases.
    destruct (App.live s); cbn [negb]; [|destruct s; exact Ha].
    destruct (Qle_bool _ _); cbn [negb]; [|destruct s; exact Ha].
    destruct (App.changed _ _); unfold stamped; destruct s; exact Ha.
  - unfold App.onSubscriptionApplied.
    destruct ((size (App.players s) =? 0)%nat
              && bool_decide (is_Some (App.conn s))); [|exact Ha].
    pose proof (backfill_fold_aliasOwn rows ∅ s Ha) as Hfold.
    destruct (fold_left App.backfillRow rows (∅, s)) as [m s1].
    simpl in Hfold. destruct s1; exact Hfold.
  - unfold App.onInsert.
    destruct (App.isLocal player _) eqn:Hloc; [|destruct s; exact Ha].
    destruct s; exact Hloc.
  - unfold App.onUpdate.
    destruct (App.isLocal newPlayer _) eqn:Hloc; [|destruct s; exact Ha].
    destruct s; exact Hloc.
  - unfold App.onDelete.
    destruct (App.isLocal player _) eqn:Hloc; destruct s; [reflexivity | exact Ha].
  - unfold App.handleKeyDown. repeat case_match; try exact Ha;
      destruct s; exact Ha.
  - unfold App.handleKeyUp. repeat case_match; try exact Ha;
      destruct s; exact Ha.
  - unfold App.handleMouseDown. repeat case_match; try exact Ha;
      destruct s; exact Ha.
  - unfold App.handleMouseUp. repeat case_match; try exact Ha;
      destruct s; exact Ha.
  - destruct s; exact Ha.
  - unfold App.handleJoinGame. destruct (App.conn s); [|exact Ha].
    destruct s; exact Ha.
Qed.

(** The interactive client never takes another player's row for its own.
    Whatever the state, each handler, and the updater of the backfill,
    keeps the local-player ref unset or on a row of the session's own
    identity: a table callback or the backfill sets it only to a row whose
    identity is the session's, and [onDisconnect] clears it together with
    the identity; [onConnect], which installs a new identity, is assumed to
    find the ref unset, as it is at the start and after a disconnect.  So
    the position [sendInput] reports is that of a row of the session's own
    identity, or the origin while there is none. *)
Theorem local_player_is_own_row :
  (forall e s,
      aliasOwn s = true ->
      (isConnect e = true -> App.localPlayerRef s = None) ->
      aliasOwn (fst (App.step e s)) = true)
  /\ (forall reason s, App.localPlayerRef (App.onDisconnect reason s) = None)
  /\ (forall cur s,
        aliasOwn s = true ->
        Forall (reportsOwnPosition s) (snd (App.sendInput cur s))).
Proof.
  split; [exact app_step_aliasOwn|]. split.
  - intros reason s. destruct s; reflexivity.
  - intros cur s Ha. rewrite sendInput_spec.
    destruct (App.live s && App.changed cur (App.lastSentInputState s));
      [|constructor].
    repeat constructor. unfold reportsOwnPosition, currentPosition.
    unfold aliasOwn in Ha.
    destruct (App.localPlayerRef s) as [p|]; [split; [exact Ha | reflexivity]|].
    reflexivity.
Qed.

Lemma local_player_is_own_row_witness :
  App.localPlayerRef (fst (App.step (App.Update rowAda rowAdaMoved) connectedState))
  = Some rowAdaMoved
  /\ aliasOwn (fst (App.step (App.Update rowAda rowAdaMoved) connectedState))
     = true.
Proof.
  split; [reflexivity|].
  apply (proj1 local_player_is_own_row (App.Update rowAda rowAdaMoved)
               connectedState).
  - reflexivity.
  - simpl. discriminate.
Defined.

(** *** Key and mouse-button handling *)

Lemma set_currentInputRef_eta s :
  App.set_currentInputRef (App.currentInputRef s) s = s.
Proof. destruct s; reflexivity. Qed.

Lemma set_currentInputRef_twice i j s :
  App.set_currentInputRef j (App.set_currentInputRef i s)
  = App.set_currentInputRef j s.
Proof. destruct s; reflexivity. Qed.

Lemma currentInputRef_set i s :
  App.currentInputRef (App.set_currentInputRef i s) = i.
Proof. destruct s; reflexivity. Qed.

Lemma getKey_setKey k k' b i :
  App.getKey k' (App.setKey k b i)
  = if InputKey_eqb k k' then b else App.getKey k' i.
Proof. destruct i, k, k'; reflexivity. Qed.

Lemma setKey_same k i : App.setKey k (App.getKey k i) i = i.
Proof. destruct i, k; reflexivity. Qed.

Lemma setKey_twice k b b' i :
  App.setKey k b' (App.setKey k b i) = App.setKey k b' i.
Proof. destruct i, k; reflexivity. Qed.

Lemma setExtra_same i : App.setExtra (InputState.extra i) i = i.
Proof. destruct i; reflexivity. Qed.

Lemma setProp_true_same a i :
  App.getProp a i = true -> App.setProp a true i = i.
Proof.
  destruct a as [k|name]; simpl.
  - intros <-. apply setKey_same.
  - destruct (InputState.extra i !! name) as [b|] eqn:He; [|discriminate].
    intros ->. rewrite (insert_id _ _ _ He). apply setExtra_same.
Qed.

Lemma handleKeyDown_spec code s :
  App.handleKeyDown code false s
  = match App.keyMap code with
    | Some a => App.set_currentInputRef (App.setProp a true (App.currentInputRef s)) s
    | None => s
    end.
Proof.
  unfold App.handleKeyDown. destruct (App.keyMap code) as [a|]; [|reflexivity].
  destruct (App.getProp a (App.currentInputRef s)) eqn:Hk; simpl; [|reflexivity].
  rewrite (setProp_true_same _ _ Hk), set_currentInputRef_eta. reflexivity.
Qed.

Lemma handleKeyUp_flag code k s :
  App.keyMap code = Some (App.Flag k) ->
  App.handleKeyUp code s
  = App.set_currentInputRef (App.setKey k false (App.currentInputRef s)) s.
Proof.
  intros Hk. unfold App.handleKeyUp. rewrite Hk. simpl.
  destruct (App.getKey k (App.currentInputRef s)) eqn:Hg; [reflexivity|].
  rewrite <- Hg, setKey_same, set_currentInputRef_eta. reflexivity.
Qed.

Lemma getKey_setExtra k e i : App.getKey k (App.setExtra e i) = App.getKey k i.
Proof. destruct i, k; reflexivity. Qed.

Lemma extra_setKey k b i :
  InputState.extra (App.setKey k b i) = InputState.extra i.
Proof. destruct i, k; reflexivity. Qed.

Lemma extra_setExtra e i : InputState.extra (App.setExtra e i) = e.
Proof. destruct i; reflexivity. Qed.

Lemma keyMap_inherited code :
  In code App.objectPrototype -> App.keyMap code = Some (App.Inherited code).
Proof.
  intros Hin. simpl in Hin.
  repeat (destruct Hin as [<-|Hin]; [reflexivity|]). destruct Hin.
Qed.

(** Key handling.  A key-down with the repeat flag, and any event whose
    code [keyMap] does not know, change nothing.  On a code the literal
    lists, a key-down sets exactly its flag and a key-up clears exactly it:
    every other flag and every further property stay as they are.  A code
    that is the name of a member of [Object.prototype] ("constructor",
    "toString", ...) is known to [keyMap] too: its key-down leaves every
    flag alone and adds a property set to true to the input object, which
    a key-up then sets to false without removing it.  No key event touches
    the attack flag, the castSpell flag or the sequence number.  Pressing
    twice is pressing once; and on the codes the literal lists, releasing
    after a press leaves the state a release alone would leave. *)
Theorem key_events_flip_one_property :
  (forall code s, App.handleKeyDown code true s = s)
  /\ (forall code repeat s,
        App.keyMap code = None ->
        App.handleKeyDown code repeat s = s /\ App.handleKeyUp code s = s)
  /\ (forall code k s k',
        App.keyMap code = Some (App.Flag k) ->
        let down := App.currentInputRef (App.handleKeyDown code false s) in
        let up := App.currentInputRef (App.handleKeyUp code s) in
        App.getKey k' down
        = (if InputKey_eqb k k' then true
           else App.getKey k' (App.currentInputRef s))
        /\ App.getKey k' up
           = (if InputKey_eqb k k' then false
              else App.getKey k' (App.currentInputRef s))
        /\ InputState.extra down = InputState.extra (App.currentInputRef s)
        /\ InputState.extra up = InputState.extra (App.currentInputRef s))
  /\ (forall code name s k',
        App.keyMap code = Some (App.Inherited name) ->
        let down := App.currentInputRef (App.handleKeyDown code false s) in
        let up := App.currentInputRef (App.handleKeyUp code s) in
        let both := App.currentInputRef
                      (App.handleKeyUp code (App.handleKeyDown code false s)) in
        App.getKey k' down = App.getKey k' (App.currentInputRef s)
        /\ App.getKey k' up = App.getKey k' (App.currentInputRef s)
        /\ InputState.extra down
           = <[name := true]> (InputState.extra (App.currentInputRef s))
        /\ InputState.extra both
           = <[name := false]> (InputState.extra (App.currentInputRef s)))
  /\ (forall code, In code App.objectPrototype ->
                   App.keyMap code = Some (App.Inherited code))
  /\ (forall code repeat s,
        let kept (i : InputState.t) :=
          (InputState.attack i, InputState.castSpell i, InputState.sequence i) in
        kept (App.currentInputRef (App.handleKeyDown code repeat s))
        = kept (App.currentInputRef s)
        /\ kept (App.currentInputRef (App.handleKeyUp code s))
           = kept (App.currentInputRef s))
  /\ (forall code s,
        App.handleKeyDown code false (App.handleKeyDown code false s)
        = App.handleKeyDown code false s)
  /\ (forall code repeat s,
        (forall name, App.keyMap code <> Some (App.Inherited name)) ->
        App.handleKeyUp code (App.handleKeyDown code repeat s)
        = App.handleKeyUp code s).
Proof.
  split; [reflexivity|].
  split; [|split; [|split; [|split; [|split; [|split]]]]].
  - intros code repeat s Hk. unfold App.handleKeyDown, App.handleKeyUp.
    rewrite Hk. destruct repeat; auto.
  - intros code k s k' Hk. cbv zeta.
    rewrite handleKeyDown_spec, (handleKeyUp_flag _ _ _ Hk), Hk,
      !currentInputRef_set.
    cbn [App.setProp]. rewrite !getKey_setKey, !extra_setKey. auto.
  - intros code name s k' Hk. cbv zeta.
    assert (Hup : forall s0, App.getKey k' (App.currentInputRef (App.handleKeyUp code s0))
                             = App.getKey k' (App.currentInputRef s0)).
    { intros s0. unfold App.handleKeyUp. rewrite Hk.
      destruct (App.getProp _ _); [|reflexivity].
      rewrite currentInputRef_set. apply getKey_setExtra. }
    rewrite Hup, handleKeyDown_spec, Hk, currentInputRef_set.
    cbn [App.setProp]. rewrite getKey_setExtra, extra_setExtra.
    split; [reflexivity|]. split; [reflexivity|]. split; [reflexivity|].
    unfold App.handleKeyUp. rewrite Hk, currentInputRef_set.
    cbn [App.getProp]. rewrite extra_setExtra, lookup_insert_eq.
    rewrite currentInputRef_set. cbn [App.setProp].
    rewrite !extra_setExtra, insert_insert_eq. reflexivity.
  - exact keyMap_inherited.
  - intros code repeat s kept. subst kept. cbv beta.
    assert (Hset : forall a b i,
               (InputState.attack (App.setProp a b i),
                InputState.castSpell (App.setProp a b i),
                InputState.sequence (App.setProp a b i))
               = (InputState.attack i, InputState.castSpell i,
                  InputState.sequence i)).
    { intros a b i. destruct i, a as [[]|name]; reflexivity. }
    split.
    + destruct repeat; [reflexivity|]. rewrite handleKeyDown_spec.
      destruct (App.keyMap code) as [a|]; [|reflexivity].
      rewrite currentInputRef_set. apply Hset.
    + unfold App.handleKeyUp. destruct (App.keyMap code) as [a|]; [|reflexivity].
      destruct (App.getProp _ _); [|reflexivity].
      rewrite currentInputRef_set. apply Hset.
  - intros code s. rewrite !handleKeyDown_spec.
    destruct (App.keyMap code) as [a|]; [|reflexivity].
    rewrite currentInputRef_set, set_currentInputRef_twice. f_equal.
    destruct a as [k|name]; cbn [App.setProp].
    + apply setKey_twice.
    + rewrite extra_setExtra, insert_insert_eq.
      destruct (App.currentInputRef s); reflexivity.
  - intros code repeat s Hni. destruct repeat; [reflexivity|].
    destruct (App.keyMap code) as [[k|name]|] eqn:Hk.
    + rewrite !(handleKeyUp_flag _ _ _ Hk), handleKeyDown_spec, Hk.
      rewrite currentInputRef_set, set_currentInputRef_twice. cbn [App.setProp].
      rewrite setKey_twice. reflexivity.
    + exfalso. exact (Hni name eq_refl).
    + rewrite handleKeyDown_spec, Hk. reflexivity.
Qed.

Lemma key_events_flip_one_property_witness :
  (App.keyMap "Escape" = None
   /\ App.handleKeyDown "Escape" false armedState = armedState)
  /\ (App.keyMap "ShiftLeft" = Some (App.Flag App.KSprint)
      /\ App.getKey App.KSprint
           (App.currentInputRef (App.handleKeyDown "ShiftLeft" false armedState))
         = true)
  /\ (App.keyMap "constructor" = Some (App.Inherited "constructor")
      /\ InputState.extra
           (App.currentInputRef (App.handleKeyDown "constructor" false armedState))
         = <[ "constructor"%string := true ]>
             (InputState.extra (App.currentInputRef armedState))).
Proof.
  split; [|split].
  - split; [reflexivity|].
    exact (proj1 (proj1 (proj2 key_events_flip_one_property) "Escape"%string
                        false armedState eq_refl)).
  - split; [reflexivity|].
    exact (proj1 (proj1 (proj2 (proj2 key_events_flip_one_property))
                        "ShiftLeft"%string App.KSprint armedState App.KSprint
                        eq_refl)).
  - split; [reflexivity|].
    exact (proj1 (proj2 (proj2
             (proj1 (proj2 (proj2 (proj2 key_events_flip_one_property)))
                    "constructor"%string "constructor"%string armedState
                    App.KSprint eq_refl)))).
Defined.

(** The primary mouse button drives the attack flag and nothing else;
    other buttons are ignored; releasing after a press leaves the state a
    release alone would leave. *)
Theorem mouse_button_drives_attack :
  (forall button s,
      button <> 0 ->
      App.handleMouseDown button s = s /\ App.handleMouseUp button s = s)
  /\ (forall s,
        App.handleMouseDown 0 s
        = App.set_currentInputRef (App.setAttack true (App.currentInputRef s)) s
        /\ App.handleMouseUp 0 s
           = App.set_currentInputRef
               (App.setAttack false (App.currentInputRef s)) s)
  /\ (forall s, App.handleMouseUp 0 (App.handleMouseDown 0 s)
                = App.handleMouseUp 0 s)
  /\ (forall b i k,
        App.getKey k (App.setAttack b i) = App.getKey k i
        /\ InputState.attack (App.setAttack b i) = b
        /\ InputState.castSpell (App.setAttack b i) = InputState.castSpell i
        /\ InputState.sequence (App.setAttack b i) = InputState.sequence i).
Proof.
  assert (Hdown : forall s,
             App.handleMouseDown 0 s
             = App.set_currentInputRef
                 (App.setAttack true (App.currentInputRef s)) s).
  { intros s. unfold App.handleMouseDown. simpl.
    destruct (InputState.attack (App.currentInputRef s)) eqn:Ha; simpl;
      [|reflexivity].
    destruct s as [? ? ? ? ? ? ? ? ? ? i ? ? ? ? ?]; simpl in *.
    destruct i; simpl in *; subst; reflexivity. }
  assert (Hup : forall s,
             App.handleMouseUp 0 s
             = App.set_currentInputRef
                 (App.setAttack false (App.currentInputRef s)) s).
  { intros s. unfold App.handleMouseUp. simpl.
    destruct (InputState.attack (App.currentInputRef s)) eqn:Ha; simpl;
      [reflexivity|].
    destruct s as [? ? ? ? ? ? ? ? ? ? i ? ? ? ? ?]; simpl in *.
    destruct i; simpl in *; subst; reflexivity. }
  split; [|split; [|split]].
  - intros button s Hb. unfold App.handleMouseDown, App.handleMouseUp.
    destruct (Z.eqb_spec button 0); [contradiction | auto].
  - intros s. auto.
  - intros s. rewrite !Hup, Hdown, currentInputRef_set,
      set_currentInputRef_twice.
    destruct (App.currentInputRef s); reflexivity.
  - intros b i k. destruct i, k; auto.
Qed.

Lemma mouse_button_drives_attack_witness :
  2 <> 0 /\ App.handleMouseDown 2 armedState = armedState.
Proof.
  split; [lia|].
  exact (proj1 (proj1 mouse_button_drives_attack 2 armedState ltac:(lia))).
Defined.

(** *** The two label functions *)

(** The interactive client's [determineAnimation] and the bot driver's
    [animationFromInput] give the same label exactly on the inputs without
    an action flag in which no opposed pair is resolved differently; in
    particular on every input a bot builds. *)
Theorem label_functions_agree :
  (forall i,
      App.determineAnimation i = Bot.animationFromInput i
      <-> labelsAgree i = true)
  /\ (forall dir seq tape input tape',
        Bot.buildInput dir seq tape = Some (input, tape') ->
        App.determineAnimation input = Bot.animationFromInput input).
Proof.
  assert (H : forall i,
             App.determineAnimation i = Bot.animationFromInput i
             <-> labelsAgree i = true).
  { intros i. rewrite <- String.eqb_eq.
    assert (He : String.eqb (App.determineAnimation i) (Bot.animationFromInput i)
                 = labelsAgree i).
    { destruct i as [f b l r sp j a c n e].
      destruct a, c, j, f, b, l, r, sp; vm_compute; reflexivity. }
    rewrite He. reflexivity. }
  split; [exact H|].
  intros dir seq tape input tape' Hb.
  apply buildInput_Some in Hb as (r & _ & _ & ->).
  apply H. destruct dir; reflexivity.
Qed.

Lemma label_functions_agree_witness :
  Bot.buildInput Bot.Backward 3 [1 # 8]%Q
  = Some (botInput Bot.Backward 3 (1 # 8), [])
  /\ App.determineAnimation (botInput Bot.Backward 3 (1 # 8))
     = Bot.animationFromInput (botInput Bot.Backward 3 (1 # 8)).
Proof.
  split; [reflexivity|].
  apply (proj2 label_functions_agree Bot.Backward 3 [1 # 8]%Q _ []).
  reflexivity.
Defined.

(** *** The submitted name *)

Lemma trimStart_length s : (length (trimStart s) <= length s)%nat.
Proof.
  induction s as [|c s IH]; simpl; [lia|].
  destruct (is_whitespace c); simpl; lia.
Qed.

Lemma trimStart_head s c t :
  trimStart s = c :: t -> is_whitespace c = false.
Proof.
  induction s as [|d s IH]; simpl; [discriminate|].
  destruct (is_whitespace d) eqn:Hd; [exact IH|]. intros [= <- <-]. exact Hd.
Qed.

(** [trimStart] keeps everything from the first character that is not
    white space. *)
Lemma trimStart_keeps pre c t :
  is_whitespace c = false ->
  exists u, trimStart (pre ++ c :: t) = u ++ c :: t.
Proof.
  intros Hc. induction pre as [|d pre IH]; simpl.
  - rewrite Hc. exists []. reflexivity.
  - destruct (is_whitespace d); [exact IH|].
    exists (d :: pre). reflexivity.
Qed.

Lemma last_snoc_default {A : Type} (l : list A) (x d : A) :
  List.last (l ++ [x]) d = x.
Proof. apply last_last. Qed.

Lemma trim_edgeFree s : edgeFree (trim s) = true.
Proof.
  unfold trim, trimEnd.
  destruct (trimStart s) as [|c t] eqn:Hs; [reflexivity|].
  pose proof (trimStart_head _ _ _ Hs) as Hc.
  destruct (trimStart_keeps (rev t) c [] Hc) as (u & Hu).
  change (rev (c :: t)) with (rev t ++ [c]). rewrite Hu.
  rewrite rev_app_distr. simpl.
  unfold edgeFree. rewrite Hc. simpl.
  destruct (rev u) as [|e w] eqn:Hw.
  - simpl. rewrite Hc. reflexivity.
  - assert (He : exists v x, u = x :: v).
    { destruct u as [|x v]; [discriminate|]. eauto. }
    destruct He as (v & x & ->).
    pose proof (trimStart_head _ _ _ Hu) as Hx.
    simpl in Hw. rewrite <- Hw.
    change (c :: rev v ++ [x]) with ((c :: rev v) ++ [x]).
    rewrite last_snoc_default, Hx. reflexivity.
Qed.

Lemma trim_length s : (length (trim s) <= length s)%nat.
Proof.
  unfold trim, trimEnd. rewrite length_rev.
  pose proof (trimStart_length (rev (trimStart s))) as H1.
  rewrite length_rev in H1. pose proof (trimStart_length s). lia.
Qed.

Lemma generated_name_shape n :
  0 <= n <= 999 ->
  edgeFree (lit "Player" ++ toString n) = true
  /\ (length (lit "Player" ++ toString n) <= 9)%nat.
Proof.
  intros Hn.
  assert (Hall : forallb (fun k => edgeFree (lit "Player" ++ toString k)
                                   && (length (lit "Player" ++ toString k) <=? 9)%nat)
                         (seqZ 0 1000) = true) by (vm_compute; reflexivity).
  rewrite forallb_forall in Hall.
  specialize (Hall n). apply andb_true_iff in Hall.
  - destruct Hall as [He Hl]. apply Nat.leb_le in Hl. auto.
  - apply list_elem_of_In, elem_of_seqZ. lia.
Qed.

Lemma handleSubmit_Some username characterClass tape name cls tape' :
  JoinGameDialog.handleSubmit username characterClass tape
  = Some ((name, cls), tape') ->
  cls = characterClass
  /\ ((trim username <> [] /\ name = trim username /\ tape' = tape)
      \/ (trim username = []
          /\ exists r, tape = r :: tape' /\ in_unit r = true
                       /\ name = (lit "Player" ++ toString (floor (Double.mul r 1000)))%list)).
Proof.
  unfold JoinGameDialog.handleSubmit. intros H.
  destruct (truthy (trim username)) eqn:Ht.
  - unfold mbind, rand_bind, mret, rand_ret in H.
    apply (inj Some) in H.
    pose proof (f_equal (fun x => fst (fst x)) H) as Hn.
    pose proof (f_equal (fun x => snd (fst x)) H) as Hc.
    pose proof (f_equal snd H) as Htp. cbn [fst snd] in Hn, Hc, Htp.
    split; [auto|]. left.
    split; [apply truthy_nonempty, Ht | auto].
  - unfold mbind, rand_bind, random in H.
    destruct tape as [|r tape]; [discriminate|].
    destruct (in_unit r) eqn:Hr; [|discriminate].
    unfold mret, rand_ret in H. apply (inj Some) in H.
    pose proof (f_equal (fun x => fst (fst x)) H) as Hn.
    pose proof (f_equal (fun x => snd (fst x)) H) as Hc.
    pose proof (f_equal snd H) as Htp. cbn [fst snd] in Hn, Hc, Htp.
    split; [auto|]. right. split.
    + destruct (trim username); [reflexivity | discriminate].
    + exists r. subst tape'. auto.
Qed.

Lemma handleSubmit_total username characterClass r tape :
  in_unit r = true ->
  exists name tape',
    JoinGameDialog.handleSubmit username characterClass (r :: tape)
    = Some ((name, characterClass), tape').
Proof.
  intros Hr. unfold JoinGameDialog.handleSubmit.
  destruct (truthy (trim username)).
  - eexists _, _. reflexivity.
  - unfold mbind, rand_bind. rewrite (random_cons _ _ Hr).
    eexists _, _. reflexivity.
Qed.

(** The name [handleSubmit] passes on never starts or ends with white
    space, and is at most as long as the text typed or nine characters,
    whichever is larger. *)
Theorem submitted_name_is_trimmed :
  forall username characterClass tape name cls tape',
    JoinGameDialog.handleSubmit username characterClass tape
    = Some ((name, cls), tape') ->
    edgeFree name = true
    /\ (length name <= Nat.max (length username) 9)%nat.
Proof.
  intros username characterClass tape name cls tape' H.
  apply handleSubmit_Some in H
    as [_ [(_ & -> & _) | (_ & r & _ & Hr & ->)]].
  - split; [apply trim_edgeFree|].
    pose proof (trim_length username). lia.
  - pose proof (floor_scale_range r 1000 ltac:(lia) Hr) as Hfl.
    change (inject_Z 1000) with 1000%Q in Hfl.
    destruct (generated_name_shape (floor (Double.mul r 1000))) as [He Hl]; [lia|].
    split; [exact He | lia].
Qed.

Lemma submitted_name_is_trimmed_witness :
  JoinGameDialog.handleSubmit (lit "  Ada ") "Wizard" []
  = Some ((lit "Ada", "Wizard"%string), [])
  /\ edgeFree (lit "Ada") = true
  /\ (length (lit "Ada") <= Nat.max (length (lit "  Ada ")) 9)%nat.
Proof.
  split; [reflexivity|].
  exact (submitted_name_is_trimmed (lit "  Ada ") "Wizard"%string []
           (lit "Ada") "Wizard"%string [] eq_refl).
Defined.

(** Submitting the join dialog on a connected session calls
    [registerPlayer] exactly once, with a non-empty name free of white space
    at both ends and the class chosen, and closes the dialog; without a
    connection it does nothing at all. *)
Theorem join_registers_once_when_connected :
  (forall username characterClass s r tape,
      is_Some (App.conn s) -> in_unit r = true ->
      exists name tape',
        submitJoin username characterClass s (r :: tape)
        = Some ((App.set_showJoinDialog false s,
                 [RegisterPlayer name characterClass]), tape')
        /\ name <> [] /\ edgeFree name = true)
  /\ (forall username characterClass s tape out tape',
        App.conn s = None ->
        submitJoin username characterClass s tape = Some (out, tape') ->
        out = (s, [])).
Proof.
  split.
  - intros username characterClass s r tape [c Hc] Hr.
    destruct (handleSubmit_total username characterClass r tape Hr)
      as (name & tape' & Hsub).
    exists name, tape'. split; [|split].
    + unfold submitJoin, mbind, rand_bind. rewrite Hsub.
      unfold App.handleJoinGame. rewrite Hc. reflexivity.
    + apply handleSubmit_Some in Hsub
        as [_ [(Hne & -> & _) | (_ & r0 & _ & _ & ->)]];
        [exact Hne | discriminate].
    + apply handleSubmit_Some in Hsub
        as [_ [(_ & -> & _) | (_ & r0 & _ & Hr0 & ->)]].
      * apply trim_edgeFree.
      * pose proof (floor_scale_range r0 1000 ltac:(lia) Hr0) as Hfl.
        change (inject_Z 1000) with 1000%Q in Hfl.
        apply generated_name_shape. lia.
  - intros username characterClass s tape out tape' Hc H.
    unfold submitJoin in H. rand_inv H. destruct a as [name cls].
    apply ret_Some in H. injection H as -> ->.
    unfold App.handleJoinGame. rewrite Hc. reflexivity.
Qed.

Lemma join_registers_once_when_connected_witness :
  is_Some (App.conn armedState) /\ in_unit (1 # 2) = true
  /\ exists name tape',
      submitJoin (lit " Ada ") "Paladin" armedState [1 # 2]%Q
      = Some ((App.set_showJoinDialog false armedState,
               [RegisterPlayer name "Paladin"]), tape')
      /\ name <> [] /\ edgeFree name = true.
Proof.
  split; [eexists; reflexivity|]. split; [reflexivity|].
  exact (proj1 join_registers_once_when_connected (lit " Ada ")
           "Paladin"%string armedState (1 # 2)%Q []
           (ex_intro _ 1%positive eq_refl) eq_refl).
Defined.

(** *** Pointer look *)

Lemma clamp_range v :
  (- Pointer.PITCH_LIMIT
   <= Pointer.max (- Pointer.PITCH_LIMIT) (Pointer.min Pointer.PITCH_LIMIT v)
   /\ Pointer.max (- Pointer.PITCH_LIMIT) (Pointer.min Pointer.PITCH_LIMIT v)
      <= Pointer.PITCH_LIMIT)%Q.
Proof.
  unfold Pointer.max, Pointer.min.
  destruct (Qle_bool Pointer.PITCH_LIMIT v) eqn:H1.
  - destruct (Qle_bool (- Pointer.PITCH_LIMIT) Pointer.PITCH_LIMIT) eqn:H2;
      unfold Pointer.PITCH_LIMIT; split; lra.
  - destruct (Qle_bool (- Pointer.PITCH_LIMIT) v) eqn:H2.
    + apply Qle_bool_iff in H2. split; [exact H2|].
      apply Qlt_le_weak, Qnot_le_lt. intros H. apply Qle_bool_iff in H.
      congruence.
    + unfold Pointer.PITCH_LIMIT; split; lra.
Qed.

(** Looking around with the pointer: whatever the movement and whatever
    the rounding of the arithmetic, the pitch written by [handleMouseMove]
    stays within [Math.PI / 2.5] of level, which is short of straight up or
    down; roll, input flags, sequence number and everything else but the
    rotation are untouched; and without pointer lock the handler does
    nothing. *)
Theorem pointer_look_keeps_pitch_in_range :
  forall (num_sub num_mul : Q -> Q -> Q) locked movementX movementY s,
    let s' := Pointer.handleMouseMove num_sub num_mul locked movementX
                                      movementY s in
    (locked = false -> s' = s)
    /\ (locked = true ->
        (- Pointer.PITCH_LIMIT <= Vector3.x (App.playerRotationRef s')
         /\ Vector3.x (App.playerRotationRef s') <= Pointer.PITCH_LIMIT)%Q)
    /\ Vector3.z (App.playerRotationRef s') = Vector3.z (App.playerRotationRef s)
    /\ s' = App.set_playerRotationRef (App.playerRotationRef s') s
    /\ (Pointer.PITCH_LIMIT < PI / 2)%Q.
Proof.
  intros num_sub num_mul locked movementX movementY s s'. subst s'.
  unfold Pointer.handleMouseMove. destruct locked.
  - split; [discriminate|]. split; [|split; [|split]].
    + intros _. destruct s; simpl. apply clamp_range.
    + destruct s; reflexivity.
    + destruct s; reflexivity.
    + reflexivity.
  - split; [reflexivity|]. split; [discriminate|].
    split; [reflexivity|]. split; [destruct s; reflexivity | reflexivity].
Qed.

Lemma pointer_look_keeps_pitch_in_range_witness :
  (- Pointer.PITCH_LIMIT
   <= Vector3.x (App.playerRotationRef
                   (Pointer.handleMouseMove Qminus Qmult true 0 (-100000)
                                            armedState))
   /\ Vector3.x (App.playerRotationRef
                   (Pointer.handleMouseMove Qminus Qmult true 0 (-100000)
                                            armedState))
      <= Pointer.PITCH_LIMIT)%Q.
Proof.
  exact (proj1 (proj2 (pointer_look_keeps_pitch_in_range Qminus Qmult true 0
                         (-100000) armedState)) eq_refl).
Defined.

(** *** Shutting the bots down *)

Lemma stopBot_spec c :
  Bot.stopBot c
  = (Bot.set_state (Bot.set_tickHandle None (Bot.state c)) c,
     match Bot.tickHandle (Bot.state c) with
     | Some h => [ClearInterval h]
     | None => []
     end).
Proof.
  unfold Bot.stopBot. destruct c as [st u cl t].
  destruct st as [i cn rg sq th d cd rot]. simpl. destruct th; reflexivity.
Qed.

Lemma stopAll_spec clients :
  Main.stopAll clients
  = (map (fun c => Bot.set_state (Bot.set_tickHandle None (Bot.state c)) c)
         clients,
     map ClearInterval (armedHandles clients)).
Proof.
  induction clients as [|c clients IH]; [reflexivity|].
  simpl. rewrite stopBot_spec, IH. unfold armedHandles. simpl.
  destruct (Bot.tickHandle (Bot.state c)); reflexivity.
Qed.

(** The clean-up loop of [main] clears the interval of every client that
    has one, once each and in order, leaves no client with a tick handle
    and nothing else of any client changed, and run a second time clears
    nothing. *)
Theorem shutdown_clears_every_interval :
  forall clients,
    snd (Main.stopAll clients) = map ClearInterval (armedHandles clients)
    /\ Forall (fun c => Bot.tickHandle (Bot.state c) = None)
              (fst (Main.stopAll clients))
    /\ fst (Main.stopAll clients)
       = map (fun c => Bot.set_state (Bot.set_tickHandle None (Bot.state c)) c)
             clients
    /\ Main.stopAll (fst (Main.stopAll clients))
       = (fst (Main.stopAll clients), []).
Proof.
  intros clients. rewrite !stopAll_spec. cbn [fst snd].
  split; [reflexivity|]. split; [|split; [reflexivity|]].
  - apply Forall_map. apply Forall_forall. intros c _. reflexivity.
  - f_equal.
    + rewrite map_map. apply map_ext. intros c. destruct c as [st u cl t].
      destruct st; reflexivity.
    + unfold armedHandles. induction clients as [|c clients IH];
        [reflexivity|]. simpl. exact IH.
Qed.

(** *** The backfill finds the local player *)

Lemma mergeRows_lookup rows : forall m (k : Identity),
  mergeRows rows m !! k
  = match mergeRows rows ∅ !! k with
    | Some p => Some p
    | None => m !! k
    end.
Proof.
  induction rows as [|q rows IH]; intros m k.
  - simpl. rewrite lookup_empty. reflexivity.
  - simpl. rewrite (IH (<[PlayerData.identity q := q]> m)),
      (IH (<[PlayerData.identity q := q]> ∅)).
    destruct (mergeRows rows ∅ !! k); [reflexivity|].
    rewrite !lookup_insert. case_decide; [reflexivity|].
    rewrite lookup_empty. reflexivity.
Qed.

Lemma backfill_fold_local rows (id : Identity) : forall m s,
  App.identityRef s = Some id ->
  let out := snd (fold_left App.backfillRow rows (m, s)) in
  App.localPlayerRef out
  = match mergeRows rows ∅ !! id with
    | Some p => Some p
    | None => App.localPlayerRef s
    end
  /\ App.localPlayer out
     = match mergeRows rows ∅ !! id with
       | Some p => Some p
       | None => App.localPlayer s
       end.
Proof.
  induction rows as [|q rows IH]; intros m s Hid.
  - simpl. rewrite lookup_empty. auto.
  - change (mergeRows (q :: rows) ∅)
      with (mergeRows rows (<[PlayerData.identity q := q]> ∅)).
    rewrite (mergeRows_lookup rows (<[PlayerData.identity q := q]> ∅)).
    cbn [fold_left]. unfold App.backfillRow at 2 4.
    destruct (App.isLocal q s) eqn:Hq.
    + apply isLocal_spec in Hq.
      assert (Heq : PlayerData.identity q = id) by congruence.
      destruct (IH (<[PlayerData.identity q := q]> m)
                   (App.set_localPlayerRef (Some q)
                      (App.set_localPlayer (Some q) s))) as [H1 H2];
        [destruct s; exact Hid|].
      cbv zeta in H1, H2. rewrite H1, H2.
      destruct (mergeRows rows ∅ !! id); [auto|].
      rewrite Heq, lookup_insert_eq. destruct s; auto.
    + destruct (IH (<[PlayerData.identity q := q]> m) s Hid) as [H1 H2].
      cbv zeta in H1, H2. rewrite H1, H2.
      destruct (mergeRows rows ∅ !! id); [auto|].
      rewrite lookup_insert_ne, lookup_empty; [auto|].
      intros Heq. rewrite <- Heq in Hid. apply isLocal_spec in Hid. congruence.
Qed.

(** When the backfill fills the empty map of a live session, it also finds
    the local player: if the rows hold one for the session's own identity,
    the local-player state and ref become that row, the one the map now
    stores; if they hold none, the alias is left as it was. *)
Theorem backfill_finds_local_player :
  forall rows s id,
    App.players s = ∅ -> is_Some (App.conn s) ->
    App.identityRef s = Some id ->
    App.localPlayerRef (App.onSubscriptionApplied rows s)
    = match App.players (App.onSubscriptionApplied rows s) !! id with
      | Some p => Some p
      | None => App.localPlayerRef s
      end
    /\ App.localPlayer (App.onSubscriptionApplied rows s)
       = match App.players (App.onSubscriptionApplied rows s) !! id with
         | Some p => Some p
         | None => App.localPlayer s
         end.
Proof.
  intros rows s id He Hc Hid.
  rewrite (onSubscriptionApplied_players rows s He Hc).
  unfold App.onSubscriptionApplied.
  rewrite He, map_size_empty, (bool_decide_eq_true_2 _ Hc). cbn [Nat.eqb andb].
  pose proof (backfill_fold_local rows id ∅ s Hid) as Hfold.
  destruct (fold_left App.backfillRow rows (∅, s)) as [m s1].
  cbv zeta in Hfold. cbn [snd] in Hfold. destruct Hfold as [H1 H2].
  rewrite <- H1, <- H2. destruct s1; auto.
Qed.

Lemma backfill_finds_local_player_witness :
  App.localPlayerRef (App.onSubscriptionApplied [rowBob; rowAda] connectedState)
  = Some rowAda.
Proof.
  exact (proj1 (backfill_finds_local_player [rowBob; rowAda] connectedState
                  "c0ffee00c0ffee00"%string eq_refl
                  (ex_intro _ 1%positive eq_refl) eq_refl)).
Defined.
